(** * rag-demo: the lexical retrieval core

    A shallow embedding of [src/lib/chunker.ts] ([chunkDocuments]) and
    [src/lib/bm25.ts] ([tokenize], [buildIndex], [bm25Search]), with the
    properties the specification states about them; then of the code
    around them: the search route, the answer route's relay of the event
    stream of the model, and what the page ([app/page.tsx]) does with
    both.

    Modelling conventions
    - A JavaScript string is a [list ascii]: a sequence of code units,
      here restricted to code units below 256.
    - [chunkSize], [overlap], [topK] and character offsets are JavaScript
      numbers holding integers; they are modelled in [Z].
    - Scores are JavaScript numbers; they are modelled as real numbers
      ([R]), so rounding is not modelled.
    - [Map<string, number>] is a [gmap], [Set<string>] is a [gset].
    - The [while] loop of the chunker is modelled with fuel: [None] means
      that the fuel ran out; a call that yields [None] for every amount of
      fuel does not terminate.
    - A stream is the list of the decoded texts of its reads; [JSON.parse]
      and [JSON.stringify] are parameters of the functions that read and
      write streams. *)

From Stdlib Require Import ZArith List Ascii String Reals Lra Lia.
From stdpp Require Import gmap strings list sorting.

Open Scope Z_scope.

(** ** JavaScript string primitives *)

Abbreviation str := (list ascii).

Definition len {A} (s : list A) : Z := Z.of_nat (length s).

(** Truthiness of a string: the empty string is falsy. *)
Definition truthy (s : str) : bool :=
  match s with [] => false | _ :: _ => true end.

(** [WhiteSpace] and [LineTerminator] code units below 256: TAB, LF, VT,
    FF, CR, SP and NBSP.  Both [String.prototype.trim] and the regular
    expression class [\s] use this set. *)
Definition isWhiteSpace (c : ascii) : bool :=
  let n := nat_of_ascii c in
  ((9 <=? n)%nat && (n <=? 13)%nat) || (n =? 32)%nat || (n =? 160)%nat.

Definition LF : ascii := ascii_of_nat 10.
Definition SP : ascii := ascii_of_nat 32.

Definition isNewline (c : ascii) : bool := (nat_of_ascii c =? 10)%nat.

Fixpoint trimStart (s : str) : str :=
  match s with
  | [] => []
  | c :: rest => if isWhiteSpace c then trimStart rest else s
  end.

Definition trimEnd (s : str) : str := rev (trimStart (rev s)).

Definition trim (s : str) : str := trimEnd (trimStart s).

(** [String.prototype.slice(start, end)]: a negative index counts from the
    end, both indices are clamped to the string. *)
Definition relIndex (n i : Z) : Z :=
  if i <? 0 then Z.max (n + i) 0 else Z.min i n.

Definition slice {A} (s : list A) (start stop : Z) : list A :=
  let from := relIndex (len s) start in
  let to := relIndex (len s) stop in
  take (Z.to_nat (to - from)) (drop (Z.to_nat from) s).

(** Puts a code unit in front of the first field of a split. *)
Definition consHead (c : ascii) (fields : list str) : list str :=
  match fields with
  | [] => [[c]]
  | f :: fs => (c :: f) :: fs
  end.

(** [s.split(/\n{2,}/)]: the separators are the maximal runs of two or more
    line feeds.  [inSep] says that the scan is inside a separator. *)
Fixpoint splitParagraphs (inSep : bool) (s : str) : list str :=
  match s with
  | [] => [[]]
  | c :: rest =>
      if isNewline c then
        if inSep then splitParagraphs true rest
        else
          match rest with
          | c' :: _ =>
              if isNewline c' then [] :: splitParagraphs true rest
              else consHead c (splitParagraphs false rest)
          | [] => consHead c (splitParagraphs false rest)
          end
      else consHead c (splitParagraphs false rest)
  end.

(** [s.split(/\s+/)]: the separators are the maximal runs of white space. *)
Fixpoint splitWhiteSpace (inSep : bool) (s : str) : list str :=
  match s with
  | [] => [[]]
  | c :: rest =>
      if isWhiteSpace c then
        if inSep then splitWhiteSpace true rest
        else [] :: splitWhiteSpace true rest
      else consHead c (splitWhiteSpace false rest)
  end.

(** ** Data model ([bm25.ts], [chunker.ts]) *)

Module DocumentInput.
Record t := mk { name : str; text : str }.
End DocumentInput.

Record Chunk := mkChunk {
  id : nat;
  text : str;
  docIndex : nat;
  docName : str;
  startChar : Z
}.

(** ** The chunker ([chunker.ts]) *)

(** The variables of [chunkDocuments] that live across documents. *)
Record Out := mkOut { chunks : list Chunk; globalId : nat }.

(** [chunks.push({ id: globalId++, text, docIndex, docName, startChar })] *)
Definition push (o : Out) (t : str) (di : nat) (dn : str) (sc : Z) : Out :=
  {| chunks := chunks o ++ [mkChunk (globalId o) t di dn sc];
     globalId := S (globalId o) |}.

(** The variables of one document's paragraph loop. *)
Record Acc := mkAcc { currentChunk : str; currentStart : Z; charPos : Z }.

(** [text.split(/\n{2,}/).map((p) => p.trim()).filter(Boolean)] *)
Definition paragraphs (text : str) : list str :=
  List.filter truthy (map trim (splitParagraphs false text)).

Section Chunker.
Variables (chunkSize overlap : Z).

(** The character fallback:
    [while (pos < para.length) { push(slice); pos += chunkSize - overlap }] *)
Fixpoint splitByChars (fuel : nat) (para : str) (di : nat) (dn : str)
    (cp pos : Z) (o : Out) : option Out :=
  match fuel with
  | O => None
  | S fuel' =>
      if pos <? len para then
        splitByChars fuel' para di dn cp (pos + (chunkSize - overlap))
          (push o (slice para pos (pos + chunkSize)) di dn (cp + pos))
      else Some o
  end.

(** The body of [for (const para of paragraphs)]. *)
Definition paraStep (fuel : nat) (di : nat) (dn : str)
    (st : Out * Acc) (para : str) : option (Out * Acc) :=
  let '(o, a) := st in
  let candidateLength :=
    if truthy (currentChunk a)
    then len (currentChunk a) + 2 + len para
    else len para in
  let next :=
    if candidateLength <=? chunkSize then
      if truthy (currentChunk a) then
        Some (o, mkAcc (currentChunk a ++ [LF; LF] ++ para)
                       (currentStart a) (charPos a))
      else Some (o, mkAcc para (charPos a) (charPos a))
    else
      let o1 :=
        if truthy (currentChunk a)
        then push o (currentChunk a) di dn (currentStart a)
        else o in
      if chunkSize <? len para then
        match splitByChars fuel para di dn (charPos a) 0 o1 with
        | Some o2 => Some (o2, mkAcc [] (charPos a + len para) (charPos a))
        | None => None
        end
      else Some (o1, mkAcc para (charPos a) (charPos a)) in
  match next with
  | Some (o', a') =>
      Some (o', mkAcc (currentChunk a') (currentStart a')
                      (charPos a' + (len para + 2)))
  | None => None
  end.

Fixpoint paraLoop (fuel : nat) (di : nat) (dn : str)
    (paras : list str) (st : Out * Acc) : option (Out * Acc) :=
  match paras with
  | [] => Some st
  | para :: rest =>
      match paraStep fuel di dn st para with
      | Some st' => paraLoop fuel di dn rest st'
      | None => None
      end
  end.

(** The callback of [docs.forEach((doc, docIndex) => ...)]. *)
Definition docStep (fuel : nat) (o : Out) (di : nat)
    (doc : DocumentInput.t) : option Out :=
  let text := trim (DocumentInput.text doc) in
  if truthy text then
    match paraLoop fuel di (DocumentInput.name doc) (paragraphs text)
            (o, mkAcc [] 0 0) with
    | Some (o', a) =>
        Some (if truthy (currentChunk a)
              then push o' (currentChunk a) di (DocumentInput.name doc)
                     (currentStart a)
              else o')
    | None => None
    end
  else Some o.

Fixpoint docsLoop (fuel : nat) (docs : list DocumentInput.t) (di : nat)
    (o : Out) : option Out :=
  match docs with
  | [] => Some o
  | doc :: rest =>
      match docStep fuel o di doc with
      | Some o' => docsLoop fuel rest (S di) o'
      | None => None
      end
  end.

Definition chunkDocuments (fuel : nat) (docs : list DocumentInput.t)
    : option (list Chunk) :=
  match docsLoop fuel docs 0%nat (mkOut [] 0) with
  | Some o => Some (chunks o)
  | None => None
  end.

End Chunker.

(** ** The chunks of a call, as a total function

    [pieces] below computes, without fuel, the texts and offsets that a
    terminating call emits; [chunkDocuments_inv] and [chunkDocuments_total]
    relate it to the loops above. *)

Abbreviation Piece := (str * Z)%type.

Definition pushAll (di : nat) (dn : str) (o : Out) (ps : list Piece) : Out :=
  fold_left (fun o p => push o (fst p) di dn (snd p)) ps o.

(** Ceiling of [a / b] for positive [b]. *)
Definition ceilDiv (a b : Z) : Z := (a + b - 1) / b.

(** The paragraphs of a document. *)
Definition docParas (doc : DocumentInput.t) : list str :=
  paragraphs (trim (DocumentInput.text doc)).

(** The chunks pushed for the pieces [ps] of document [di], the first one
    with id [start]. *)
Definition number (di : nat) (dn : str) (start : nat) (ps : list Piece)
    : list Chunk :=
  imap (fun k p => mkChunk (start + k) (fst p) di dn (snd p)) ps.

Section Pieces.
Variables (chunkSize overlap : Z).

Fixpoint windowsFrom (n : nat) (para : str) (cp pos : Z) : list Piece :=
  match n with
  | O => []
  | S n' =>
      (slice para pos (pos + chunkSize), cp + pos)
        :: windowsFrom n' para cp (pos + (chunkSize - overlap))
  end.

(** Number of iterations of the fallback loop entered at [pos]. *)
Definition windowCount (L pos : Z) : nat :=
  if pos <? L then Z.to_nat (ceilDiv (L - pos) (chunkSize - overlap))
  else O.

Definition windows (para : str) (cp : Z) : list Piece :=
  windowsFrom (windowCount (len para) 0) para cp 0.

Definition paraPieces (a : Acc) (para : str) : list Piece * Acc :=
  let candidateLength :=
    if truthy (currentChunk a)
    then len (currentChunk a) + 2 + len para
    else len para in
  let cp' := charPos a + (len para + 2) in
  if candidateLength <=? chunkSize then
    if truthy (currentChunk a) then
      ([], mkAcc (currentChunk a ++ [LF; LF] ++ para) (currentStart a) cp')
    else ([], mkAcc para (charPos a) cp')
  else
    let flushed :=
      if truthy (currentChunk a)
      then [(currentChunk a, currentStart a)] else [] in
    if chunkSize <? len para then
      (flushed ++ windows para (charPos a),
       mkAcc [] (charPos a + len para) cp')
    else (flushed, mkAcc para (charPos a) cp').

Fixpoint parasPieces (paras : list str) (a : Acc) : list Piece * Acc :=
  match paras with
  | [] => ([], a)
  | para :: rest =>
      let '(ps, a') := paraPieces a para in
      let '(qs, a'') := parasPieces rest a' in
      (ps ++ qs, a'')
  end.

Definition flushPieces (a : Acc) : list Piece :=
  if truthy (currentChunk a) then [(currentChunk a, currentStart a)]
  else [].

(** The pieces of one document text. *)
Definition pieces (text : str) : list Piece :=
  let '(ps, a) := parasPieces (paragraphs (trim text)) (mkAcc [] 0 0) in
  ps ++ flushPieces a.

Fixpoint docsPieces (docs : list DocumentInput.t) (di : nat) (o : Out)
    : Out :=
  match docs with
  | [] => o
  | doc :: rest =>
      docsPieces rest (S di)
        (pushAll di (DocumentInput.name doc) o
           (pieces (DocumentInput.text doc)))
  end.

(** The fallback of [para] makes progress. *)
Definition advances (para : str) : Prop :=
  chunkSize < len para -> 0 < len para -> 0 < chunkSize - overlap.

(** Every paragraph that takes the fallback has a positive step. *)
Definition allAdvance (docs : list DocumentInput.t) : Prop :=
  Forall (fun d => Forall advances (docParas d)) docs.

(** Fuel that is enough for every fallback loop of a call. *)
Definition enoughFuel (fuel : nat) (docs : list DocumentInput.t) : Prop :=
  Forall (fun d => Forall (fun p => (length p < fuel)%nat) (docParas d))
    docs.

Fixpoint docsChunks (docs : list DocumentInput.t) (di start : nat)
    : list Chunk :=
  match docs with
  | [] => []
  | doc :: rest =>
      let ps := pieces (DocumentInput.text doc) in
      number di (DocumentInput.name doc) start ps
        ++ docsChunks rest (S di) (start + length ps)
  end.

End Pieces.

(** The longest paragraph of a call bounds the fuel it needs. *)
Definition fuelFor (docs : list DocumentInput.t) : nat :=
  S (list_max (flat_map (fun d => map length (docParas d)) docs)).

Definition S_ (s : string) : str := list_ascii_of_string s.

(** The [k]-th chunk that the character fallback pushes for a paragraph
    [para] of document [di], when the paragraph is at offset [cp] of the
    document and the first of its windows gets the id [firstId]. *)
Definition fallbackChunk (chunkSize overlap : Z) (di : nat) (dn : str)
    (firstId : nat) (cp : Z) (para : str) (k : nat) : Chunk :=
  let start := Z.of_nat k * (chunkSize - overlap) in
  mkChunk (firstId + k) (slice para start (start + chunkSize)) di dn
    (cp + start).

(** ** Invariants of the paragraph loop *)

(** No piece and no buffer is longer than [chunkSize]. *)
Definition sizeInv (chunkSize : Z) (ps : list Piece) (a : Acc) : Prop :=
  Forall (fun p => len (fst p) <= chunkSize) ps
  /\ len (currentChunk a) <= chunkSize.

(** The text that the offsets of the paragraph loop refer to: every
    paragraph followed by a blank line ([charPos += para.length + 2]). *)
Definition normalized (paras : list str) : str :=
  flat_map (fun p => p ++ [LF; LF]) paras.

(** [t] occurs in [s] at offset [i]. *)
Definition subAt (s : str) (i : Z) (t : str) : Prop :=
  0 <= i /\ take (length t) (drop (Z.to_nat i) s) = t.

(** Offsets that grow strictly along a list. *)
Definition increasing (l : list Z) : Prop :=
  forall i j x y, (i < j)%nat -> l !! i = Some x -> l !! j = Some y -> x < y.

(** The least offset at which the loop can still start a chunk. *)
Definition nextStart (a : Acc) : Z :=
  if truthy (currentChunk a) then currentStart a else charPos a.

(** Offsets and texts of the pieces and of the buffer are those of the
    normalized text of the paragraphs seen so far. *)
Definition structInv (done : list str) (ps : list Piece) (a : Acc) : Prop :=
  charPos a = len (normalized done)
  /\ (truthy (currentChunk a) = true ->
      0 <= currentStart a
      /\ drop (Z.to_nat (currentStart a)) (normalized done)
         = currentChunk a ++ [LF; LF])
  /\ Forall (fun p => subAt (normalized done) (snd p) (fst p)) ps
  /\ increasing (map snd ps)
  /\ Forall (fun p => snd p < nextStart a) ps.

(** The characters of a string that are not white space. *)
Definition nonBlank (s : str) : str :=
  List.filter (fun c => negb (isWhiteSpace c)) s.

(** Concatenation of pieces that ignores what a piece repeats of the text
    before it: [covered] is the offset up to which the text is already
    there. *)
Fixpoint stitch (covered : Z) (ps : list Piece) : str :=
  match ps with
  | [] => []
  | p :: rest =>
      drop (Z.to_nat (covered - snd p)) (fst p)
        ++ stitch (Z.max covered (snd p + len (fst p))) rest
  end.

Fixpoint coveredAfter (covered : Z) (ps : list Piece) : Z :=
  match ps with
  | [] => covered
  | p :: rest => coveredAfter (Z.max covered (snd p + len (fst p))) rest
  end.

(** The stitched pieces and the buffer hold every character of the
    paragraphs seen so far that is not white space, in order. *)
Definition coverInv (done : list str) (ps : list Piece) (a : Acc) : Prop :=
  nonBlank (stitch 0 ps) ++ nonBlank (currentChunk a)
  = nonBlank (concat done)
  /\ coveredAfter 0 ps <= nextStart a.

(** The chunks of document [i] in a chunk list, as pieces. *)
Definition piecesOf (i : nat) (cs : list Chunk) : list Piece :=
  map (fun c => (text c, startChar c))
    (List.filter (fun c => (docIndex c =? i)%nat) cs).

(** ** The scorer ([bm25.ts]) *)

Module ScoredChunk.
Record t := mk {
  id : nat;
  text : str;
  docIndex : nat;
  docName : str;
  startChar : Z;
  score : R;
  termMatches : list str
}.
End ScoredChunk.

(** [{ ...chunk, score, termMatches }] *)
Definition spread (chunk : Chunk) (score : R) (termMatches : list str)
    : ScoredChunk.t :=
  ScoredChunk.mk (id chunk) (text chunk) (docIndex chunk) (docName chunk)
    (startChar chunk) score termMatches.

(** The fields that a [ScoredChunk] inherits from [Chunk]. *)
Definition toChunk (c : ScoredChunk.t) : Chunk :=
  mkChunk (ScoredChunk.id c) (ScoredChunk.text c) (ScoredChunk.docIndex c)
    (ScoredChunk.docName c) (ScoredChunk.startChar c).

(** *** Tokens *)

(** [toLowerCase] on code units below 256: [A-Z] and the capital letters
    of Latin-1 ([U+00C0] to [U+00DE] without the multiplication sign). *)
Definition toLowerCase (c : ascii) : ascii :=
  let n := nat_of_ascii c in
  if ((65 <=? n)%nat && (n <=? 90)%nat)
     || ((192 <=? n)%nat && (n <=? 222)%nat && negb (n =? 215)%nat)
  then ascii_of_nat (n + 32) else c.

(** The class [[a-z0-9\s]]. *)
Definition isWordOrSpace (c : ascii) : bool :=
  let n := nat_of_ascii c in
  ((97 <=? n)%nat && (n <=? 122)%nat) || ((48 <=? n)%nat && (n <=? 57)%nat)
  || isWhiteSpace c.

(** [text.toLowerCase().replace(/[^a-z0-9\s]/g, " ").split(/\s+/)
       .filter((t) => t.length > 2)] *)
Definition tokenize (text : str) : list str :=
  List.filter (fun t => (2 <? length t)%nat)
    (splitWhiteSpace false
       (map (fun c => if isWordOrSpace c then c else SP)
          (map toLowerCase text))).

(** [[...new Set(tokens)]]: the distinct tokens, in the order of their
    first occurrence. *)
Fixpoint distinct (seen : gset str) (tokens : list str) : list str :=
  match tokens with
  | [] => []
  | t :: rest =>
      if decide (t ∈ seen) then distinct seen rest
      else t :: distinct ({[t]} ∪ seen) rest
  end.

(** *** The index *)

(** [m.get(k) ?? 0] *)
Definition getOr0 (m : gmap str nat) (k : str) : nat := default 0%nat (m !! k).

(** [m.set(k, (m.get(k) ?? 0) + 1)] *)
Definition increment (k : str) (m : gmap str nat) : gmap str nat :=
  <[k := (getOr0 m k + 1)%nat]> m.

(** The variables of [buildIndex] that its loops update. *)
Record IndexState := mkIndexState {
  st_tf : list (gmap str nat);
  st_df : gmap str nat;
  st_docLengths : list nat;
  st_totalLength : nat
}.

(** The callback of [tokens.forEach((token) => ...)] for chunk [i]:
    the state is [tf], [df] and [seenTerms].  [tf] has a map for every
    chunk, so that [tf[i]] is always there. *)
Definition tokenStep (i : nat)
    (st : list (gmap str nat) * gmap str nat * gset str) (token : str)
    : list (gmap str nat) * gmap str nat * gset str :=
  let '(tf, df, seenTerms) := st in
  let tf' := alter (increment token) i tf in
  if decide (token ∈ seenTerms) then (tf', df, seenTerms)
  else (tf', increment token df, {[token]} ∪ seenTerms).

(** The callback of [chunks.forEach((chunk, i) => ...)]. *)
Definition chunkStep (st : IndexState) (i : nat) (chunk : Chunk)
    : IndexState :=
  let tokens := tokenize (text chunk) in
  let '(tf', df', _) :=
    fold_left (tokenStep i) tokens (st_tf st, st_df st, ∅) in
  mkIndexState tf' df' (st_docLengths st ++ [length tokens])
    (st_totalLength st + length tokens).

Fixpoint chunksLoop (chunks : list Chunk) (i : nat) (st : IndexState)
    : IndexState :=
  match chunks with
  | [] => st
  | chunk :: rest => chunksLoop rest (S i) (chunkStep st i chunk)
  end.

Record Index := mkIndex {
  tf : list (gmap str nat);
  df : gmap str nat;
  docLengths : list nat;
  avgdl : R;
  N : nat
}.

Definition buildIndex (chunks : list Chunk) : Index :=
  let n := length chunks in
  let st :=
    chunksLoop chunks 0
      (mkIndexState (map (fun _ => ∅) chunks) ∅ [] 0) in
  mkIndex (st_tf st) (st_df st) (st_docLengths st)
    (INR (st_totalLength st) / INR n) n.

(** *** Scores *)

Open Scope R_scope.

Definition k1 : R := 1.5.
Definition b : R := 0.75.

(** [Math.log((N - termDf + 0.5) / (termDf + 0.5) + 1)] *)
Definition idfOf (n termDf : nat) : R :=
  ln ((INR n - INR termDf + 0.5) / (INR termDf + 0.5) + 1).

(** [(termTf * (k1 + 1)) / (termTf + k1 * (1 - b + b * (docLength / avgdl)))] *)
Definition tfNormOf (termTf docLength : nat) (avgdl : R) : R :=
  (INR termTf * (k1 + 1))
  / (INR termTf + k1 * (1 - b + b * (INR docLength / avgdl))).

(** The callback of [queryTerms.forEach((term) => ...)] for chunk [i]:
    the state is [score] and [matchedTerms].  [i] is the index of a chunk,
    so that [tf[i]] and [docLengths[i]] are always there. *)
Definition termStep (idx : Index) (i : nat) (st : R * list str) (term : str)
    : R * list str :=
  let '(score, matchedTerms) := st in
  let termTf := getOr0 (tf idx !!! i) term in
  let termDf := getOr0 (df idx) term in
  if (termDf =? 0)%nat then st
  else
    let idf := idfOf (N idx) termDf in
    let tfNorm := tfNormOf termTf (docLengths idx !!! i) (avgdl idx) in
    (score + idf * tfNorm,
     if (0 <? termTf)%nat then matchedTerms ++ [term] else matchedTerms).

(** The callback of [chunks.map((chunk, i) => ...)]. *)
Definition scoreChunk (idx : Index) (queryTerms : list str) (i : nat)
    (chunk : Chunk) : ScoredChunk.t :=
  let '(score, matchedTerms) :=
    fold_left (termStep idx i) queryTerms (0, []) in
  spread chunk score matchedTerms.

(** The array [scored] of [bm25Search], for a chunk list that is not
    empty. *)
Definition scored (chunks : list Chunk) (query : str)
    : list ScoredChunk.t :=
  let idx := buildIndex chunks in
  let queryTerms := distinct ∅ (tokenize query) in
  imap (scoreChunk idx queryTerms) chunks.

(** [(c) => c.score > 0] *)
Definition isPositive (c : ScoredChunk.t) : bool :=
  if Rlt_dec 0 (ScoredChunk.score c) then true else false.

(** [sort((a, b) => b.score - a.score)]: the sort is stable, so its result
    is the one of inserting every element, from the last to the first, in
    front of the first element whose score is not larger. *)
Fixpoint insertByScore (x : ScoredChunk.t) (l : list ScoredChunk.t)
    : list ScoredChunk.t :=
  match l with
  | [] => [x]
  | y :: rest =>
      if Rlt_dec (ScoredChunk.score x) (ScoredChunk.score y)
      then y :: insertByScore x rest
      else x :: y :: rest
  end.

Definition sortByScore (l : list ScoredChunk.t) : list ScoredChunk.t :=
  fold_right insertByScore [] l.

Definition bm25Search (chunks : list Chunk) (query : str) (topK : Z)
    : list ScoredChunk.t :=
  match chunks with
  | [] => []
  | _ :: _ =>
      slice (sortByScore (List.filter isPositive (scored chunks query)))
        0 topK
  end.

Close Scope R_scope.

(** *** The scores as the specification words them *)

(** Occurrences of [t] in a token list. *)
Definition occurrences (t : str) (tokens : list str) : nat :=
  length (List.filter (fun u => bool_decide (u = t)) tokens).

(** [freq(t, i)]: the occurrences of [t] among the tokens of a chunk. *)
Definition freq (t : str) (chunk : Chunk) : nat :=
  occurrences t (tokenize (text chunk)).

(** [df(t)]: the number of chunks with at least one occurrence of [t]. *)
Definition docFreq (chunks : list Chunk) (t : str) : nat :=
  length (List.filter (fun c => (0 <? freq t c)%nat) chunks).

(** [len(i)]: the number of tokens of a chunk. *)
Definition tokenCount (chunk : Chunk) : nat :=
  length (tokenize (text chunk)).

(** [avgdl]: the mean number of tokens of a chunk. *)
Definition meanTokenCount (chunks : list Chunk) : R :=
  (INR (list_sum (map tokenCount chunks)) / INR (length chunks))%R.

Definition sumR (l : list R) : R := fold_right Rplus 0%R l.

(** [idf(t) * tf_norm(t, i)]: what the term [t] adds to the score of a
    chunk. *)
Definition contribution (chunks : list Chunk) (chunk : Chunk) (t : str) : R :=
  (idfOf (length chunks) (docFreq chunks t)
   * tfNormOf (freq t chunk) (tokenCount chunk) (meanTokenCount chunks))%R.

(** The sum, over the distinct query terms [t] with [df(t) > 0], of
    [idf(t) * tf_norm(t, i)]. *)
Definition specScore (chunks : list Chunk) (query : str) (chunk : Chunk)
    : R :=
  sumR
    (map (contribution chunks chunk)
       (List.filter (fun t => (0 <? docFreq chunks t)%nat)
          (distinct ∅ (tokenize query)))).

(** The distinct query terms that occur in a chunk. *)
Definition specMatches (query : str) (chunk : Chunk) : list str :=
  List.filter (fun t => (0 <? freq t chunk)%nat)
    (distinct ∅ (tokenize query)).

(** The state of [buildIndex] after the chunks [pre] of [all]: the counts
    of the chunks seen are in place, the maps of the others are empty. *)
Definition indexInv (all pre : list Chunk) (st : IndexState) : Prop :=
  length (st_tf st) = length all
  /\ (forall j c, pre !! j = Some c ->
        exists m, st_tf st !! j = Some m /\ forall t, getOr0 m t = freq t c)
  /\ (forall j, (length pre <= j < length all)%nat -> st_tf st !! j = Some ∅)
  /\ (forall t, getOr0 (st_df st) t = docFreq pre t)
  /\ st_docLengths st = map tokenCount pre
  /\ st_totalLength st = list_sum (map tokenCount pre).

(** Scores that do not grow along a list. *)
Definition descending (l : list ScoredChunk.t) : Prop :=
  forall i j x y,
    (i < j)%nat -> l !! i = Some x -> l !! j = Some y ->
    (ScoredChunk.score y <= ScoredChunk.score x)%R.

(** [x] comes before [y] in a list sorted by [(a, b) => b.score - a.score]. *)
Definition scoreGe (x y : ScoredChunk.t) : Prop :=
  (ScoredChunk.score y <= ScoredChunk.score x)%R.

(** The entry has the score [s]. *)
Definition hasScore (s : R) (c : ScoredChunk.t) : bool :=
  if Req_dec_T (ScoredChunk.score c) s then true else false.

(** A query term occurs in the chunk. *)
Definition hasMatch (query : str) (chunk : Chunk) : bool :=
  match specMatches query chunk with [] => false | _ :: _ => true end.

(** The entry of [scored] for a chunk, in the words of the specification. *)
Definition specScored (chunks : list Chunk) (query : str) (chunk : Chunk)
    : ScoredChunk.t :=
  spread chunk (specScore chunks query chunk) (specMatches query chunk).

(** ** The search on a store

    The arrays and objects that [bm25Search] reads, creates and updates,
    as cells of a store: [chunks.map], [filter] and [slice] create an
    array, the object spread creates an object, and [sort] updates the
    array it is called on.  The maps and the set of [buildIndex] are
    created there and hold no reference; they stay values. *)

Abbreviation loc := positive.

Inductive Cell :=
  | ChunkCell (c : Chunk)
  | ScoredCell (c : ScoredChunk.t)
  | ArrayCell (elems : list loc).

Abbreviation Store := (gmap loc Cell).

(** A new cell, at a location that is not in use. *)
Definition alloc (h : Store) (cell : Cell) : loc * Store :=
  let l := fresh (dom h) in (l, <[l := cell]> h).

Fixpoint allocAll (h : Store) (cells : list Cell) : list loc * Store :=
  match cells with
  | [] => ([], h)
  | cell :: rest =>
      let '(l, h1) := alloc h cell in
      let '(ls, h2) := allocAll h1 rest in
      (l :: ls, h2)
  end.

Definition readArray (h : Store) (r : loc) : option (list loc) :=
  match h !! r with Some (ArrayCell elems) => Some elems | _ => None end.

Definition readChunk (h : Store) (l : loc) : option Chunk :=
  match h !! l with Some (ChunkCell c) => Some c | _ => None end.

Definition readScored (h : Store) (l : loc) : option ScoredChunk.t :=
  match h !! l with Some (ScoredCell c) => Some c | _ => None end.

(** The chunks of the array at [r]. *)
Definition readChunks (h : Store) (r : loc) : option (list Chunk) :=
  elems ← readArray h r; mapM (readChunk h) elems.

(** The elements of the array of scored chunks at [r], each with the
    object it refers to. *)
Definition readEntries (h : Store) (r : loc)
    : option (list (loc * ScoredChunk.t)) :=
  elems ← readArray h r;
  mapM (fun l => c ← readScored h l; Some (l, c)) elems.

(** [sortByScore] on references. *)
Fixpoint insertEntry (x : loc * ScoredChunk.t)
    (l : list (loc * ScoredChunk.t)) : list (loc * ScoredChunk.t) :=
  match l with
  | [] => [x]
  | y :: rest =>
      if Rlt_dec (ScoredChunk.score (snd x)) (ScoredChunk.score (snd y))
      then y :: insertEntry x rest
      else x :: y :: rest
  end.

Definition sortEntries (l : list (loc * ScoredChunk.t))
    : list (loc * ScoredChunk.t) :=
  fold_right insertEntry [] l.

(** [bm25Search(chunks, query, topK)] where [chunks] is the array at
    [chunksRef]: the array that is returned, and the store after the
    call.  [None] is a store in which [chunksRef] is not an array of
    chunks. *)
Definition bm25SearchOn (h : Store) (chunksRef : loc) (query : str)
    (topK : Z) : option (loc * Store) :=
  chunks ← readChunks h chunksRef;
  match chunks with
  | [] => Some (alloc h (ArrayCell []))
  | _ :: _ =>
      let idx := buildIndex chunks in
      let queryTerms := distinct ∅ (tokenize query) in
      (* const scored = chunks.map((chunk, i) => ({ ...chunk, ... })) *)
      let '(objs, h1) :=
        allocAll h
          (imap (fun i c => ScoredCell (scoreChunk idx queryTerms i c))
             chunks) in
      let '(scoredRef, h2) := alloc h1 (ArrayCell objs) in
      (* scored.filter((c) => c.score > 0) *)
      entries ← readEntries h2 scoredRef;
      let kept := List.filter (fun p => isPositive (snd p)) entries in
      let '(filteredRef, h3) := alloc h2 (ArrayCell (kept.*1)) in
      (* .sort((a, b) => b.score - a.score), in place *)
      entries' ← readEntries h3 filteredRef;
      let h4 :=
        <[filteredRef := ArrayCell ((sortEntries entries').*1)]> h3 in
      (* .slice(0, topK) *)
      elems ← readArray h4 filteredRef;
      Some (alloc h4 (ArrayCell (slice elems 0 topK)))
  end.

(** Every entry refers to the object that comes with it. *)
Definition entriesValid (h : Store) (ps : list (loc * ScoredChunk.t)) : Prop :=
  Forall (fun p => h !! fst p = Some (ScoredCell (snd p))) ps.

(** ** Examples *)

(** Two chunks of the kind the demonstration feeds the scorer. *)
Definition dogChunk : Chunk := mkChunk 0 (S_ "dog food recipes") 0 (S_ "A") 0.
Definition catChunk : Chunk := mkChunk 1 (S_ "cat food recipes") 1 (S_ "B") 0.

(** ** More of the tokenizer *)

(** The class [[a-z0-9]]. *)
Definition isLowerAlnum (c : ascii) : bool :=
  let n := nat_of_ascii c in
  ((97 <=? n)%nat && (n <=? 122)%nat) || ((48 <=? n)%nat && (n <=? 57)%nat).

(** A separator: a code unit whose lower case is not in [a-z0-9], so
    that [tokenize] makes white space of it if it is not white space
    already.  Among the code units below 256 these are all but the
    letters of [a-z] and [A-Z] and the digits. *)
Definition isSeparator (c : ascii) : bool :=
  negb (isLowerAlnum (toLowerCase c)).

(** Puts [pre] in front of the first field of a split. *)
Definition prepend (pre : str) (fields : list str) : list str :=
  match fields with
  | [] => [pre]
  | f :: fs => (pre ++ f) :: fs
  end.

(** The code unit that [tokenize] splits on, for a code unit of the text. *)
Definition normalizeChar (c : ascii) : ascii :=
  let c' := toLowerCase c in if isWordOrSpace c' then c' else SP.

(** ** More of the index *)

(** Every count that a map holds is at least 1. *)
Definition positiveCounts (m : gmap str nat) : Prop :=
  forall k n, m !! k = Some n -> (0 < n)%nat.

(** The chunk [c] of a call, as it comes out of a call in which [dn]
    documents and [idn] chunks precede it. *)
Definition renumber (dn idn : nat) (c : Chunk) : Chunk :=
  mkChunk (idn + id c) (text c) (dn + docIndex c) (docName c) (startChar c).

(** The paragraphs with a blank line between them, as the accumulation
    [currentChunk += "\n\n" + para] builds them. *)
Definition joinParagraphs (paras : list str) : str :=
  match paras with
  | [] => []
  | p :: rest => p ++ flat_map (fun q => [LF; LF] ++ q) rest
  end.

(** No paragraph of the documents is longer than [chunkSize]. *)
Definition allShort (chunkSize : Z) (docs : list DocumentInput.t) : Prop :=
  Forall (fun d => Forall (fun p => len p <= chunkSize) (docParas d)) docs.

(** ** The search route ([POST /api/search])

    The handler, as a function of the parsed request body.  A field that
    the body does not have is [None]; [topK = 5] in the destructuring
    pattern gives the default to an absent [topK].  A reply is the JSON
    body with its status; [None] stands for a call of [chunkDocuments]
    that has not returned within the fuel. *)

Module SearchRequest.
Record t := mk {
  docs : option (list DocumentInput.t);
  query : option str;
  topK : option Z
}.
End SearchRequest.

Module Stats.
Record t := mk {
  docCount : nat;
  totalWords : nat;
  chunkCount : nat;
  retrievedCount : nat;
  queryTerms : list str
}.
End Stats.

Module SearchResponse.
Record t := mk {
  chunks : list ScoredChunk.t;
  totalChunks : nat;
  stats : Stats.t
}.
End SearchResponse.

Inductive Reply :=
| Failure (status : Z) (error : str)
| Success (body : SearchResponse.t).

(** [docs.reduce((acc, d) => acc + d.text.split(/\s+/).length, 0)] *)
Definition countWords (docs : list DocumentInput.t) : nat :=
  fold_left
    (fun acc d =>
       (acc + length (splitWhiteSpace false (DocumentInput.text d)))%nat)
    docs 0%nat.

Definition POST (fuel : nat) (req : SearchRequest.t) : option Reply :=
  let topK := default 5 (SearchRequest.topK req) in
  match SearchRequest.docs req with
  | None | Some [] => Some (Failure 400 (S_ "No documents provided"))
  | Some docs =>
      match SearchRequest.query req with
      | None => Some (Failure 400 (S_ "No query provided"))
      | Some query =>
          if truthy (trim query) then
            match chunkDocuments 400 80 fuel docs with
            | None => None
            | Some chunks =>
                let totalWords := countWords docs in
                let scoredChunks := bm25Search chunks query topK in
                let queryTerms :=
                  distinct ∅
                    (List.filter (fun t => (2 <? length t)%nat)
                       (splitWhiteSpace false
                          (map (fun c => if isWordOrSpace c then c else SP)
                             (map toLowerCase query)))) in
                Some (Success
                        (SearchResponse.mk scoredChunks (length chunks)
                           (Stats.mk (length docs) totalWords
                              (length chunks) (length scoredChunks)
                              queryTerms)))
            end
          else Some (Failure 400 (S_ "No query provided"))
      end
  end.

(** ** The page ([app/page.tsx]) *)

(** [Math.round(x)]: the integer nearest to [x], a tie going up, that is
    the floor of [x + 0.5]. *)
Definition Math_round (x : R) : Z := Int_part (x + / 2).

(** [ScoreBar({ score, max })]: the width of the bar, in percent,
    [max > 0 ? Math.round((score / max) * 100) : 0]. *)
Definition ScoreBar (score max : R) : Z :=
  if Rlt_dec 0 max then Math_round (score / max * 100) else 0.

(** [chunks.length > 0 ? chunks[0].score : 1] *)
Definition maxScore (chunks : list ScoredChunk.t) : R :=
  match chunks with
  | c :: _ => ScoredChunk.score c
  | [] => 1%R
  end.

(** [runPipeline], up to the request to the search route: nothing is sent
    when the query is blank or there is no document; otherwise the body
    of the request is [{ docs, query, topK: 5 }]. *)
Definition pipelineRequest (docs : list DocumentInput.t) (query : str)
    : option SearchRequest.t :=
  if negb (truthy (trim query)) || (length docs =? 0)%nat then None
  else Some (SearchRequest.mk (Some docs) (Some query) (Some 5)).

(** The body [{ chunks, query }] of a request to the answer route. *)
Module AnswerRequest.
Record t := mk {
  chunks : option (list ScoredChunk.t);
  query : option str
}.
End AnswerRequest.

(** What [runPipeline] does with the reply of the search route. *)
Inductive Next :=
| RetrievalFailed
| NoContent
| Generate (body : AnswerRequest.t)
| Throws.

(** [searchRes.ok]: the status is in the range 200-299. *)
Definition ok (status : Z) : bool := (200 <=? status) && (status <=? 299).

(** [runPipeline] after the search: ["Retrieval failed"] for a reply that
    is not [ok]; the message ["No relevant content found ..."] for an
    empty [chunks]; otherwise the request to the answer route.  A reply
    that is [ok] and has no [chunks] makes [searchData.chunks.length]
    throw. *)
Definition afterSearch (query : str) (reply : Reply) : Next :=
  match reply with
  | Failure status _ => if ok status then Throws else RetrievalFailed
  | Success body =>
      match SearchResponse.chunks body with
      | [] => NoContent
      | _ :: _ =>
          Generate
            (AnswerRequest.mk (Some (SearchResponse.chunks body)) (Some query))
      end
  end.

(** The check at the head of the answer route:
    [if (!chunks || chunks.length === 0)] the reply is 400 with
    ["No chunks provided"]. *)
Definition answerRejects (req : AnswerRequest.t) : option (Z * str) :=
  match AnswerRequest.chunks req with
  | None | Some [] => Some (400, S_ "No chunks provided")
  | Some (_ :: _) => None
  end.

(** [Math.ceil(doc.text.length / 400)]: the number of chunks that the page
    announces for a document of its list. *)
Definition announcedChunks (text : str) : Z := ceilDiv (len text) 400.

(** Length of the fields of a split with the two characters of a
    separator between them. *)
Definition joinedLength (fields : list str) : Z :=
  Z.of_nat (list_sum (map (fun f => (2 + length f)%nat) fields)) - 2.

(** *** The reader of the answer stream ([runPipeline])

    The decoded texts of the successive [reader.read()] calls are the
    input; the state of the loop is [buffer] and [answerRef.current]. *)

(** [s.startsWith(prefix)] *)
Fixpoint startsWith (s prefix : str) {struct prefix} : bool :=
  match prefix, s with
  | [], _ => true
  | _ :: _, [] => false
  | a :: prefix', c :: s' => Ascii.eqb a c && startsWith s' prefix'
  end.

(** [s.split("\n\n")]: the separators are found from the left, each two
    line feeds. *)
Fixpoint splitBlankLine (s : str) : list str :=
  match s with
  | [] => [[]]
  | c :: rest =>
      match rest with
      | c' :: rest' =>
          if isNewline c && isNewline c' then [] :: splitBlankLine rest'
          else consHead c (splitBlankLine rest)
      | [] => consHead c (splitBlankLine rest)
      end
  end.

Section Reader.

(** What [const { text } = JSON.parse(raw); if (text) answer += text]
    appends for the payload [raw]; [None] when [JSON.parse] or the
    destructuring throws, and when [text] is falsy. *)
Variable textOf : str -> option str.

(** [for (const line of lines) { ... }], with its [continue] and its
    [break]. *)
Fixpoint forLines (lines : list str) (answer : str) : str :=
  match lines with
  | [] => answer
  | line :: rest =>
      if negb (startsWith line (S_ "data: ")) then forLines rest answer
      else
        let raw := slice line 6 (len line) in
        if bool_decide (raw = S_ "[DONE]") then answer
        else
          match textOf raw with
          | Some text => forLines rest (answer ++ text)
          | None => forLines rest answer
          end
  end.

(** One turn of the [while] loop for a read that is not [done]. *)
Definition readStep (st : str * str) (decoded : str) : str * str :=
  let '(buffer, answer) := st in
  let lines := splitBlankLine (buffer ++ decoded) in
  (default [] (last lines), forLines (removelast lines) answer).

(** The loop, from [buffer = ""] and [answerRef.current = ""], over the
    reads up to the one that is [done]: the buffer and the answer. *)
Definition readAnswer (reads : list str) : str * str :=
  fold_left readStep reads ([], []).

(** The frame ends the answer: ["data: [DONE]"]. *)
Definition isDone (line : str) : bool :=
  startsWith line (S_ "data: ")
  && bool_decide (slice line 6 (len line) = S_ "[DONE]").

(** The text that a frame adds to the answer. *)
Definition frameText (line : str) : str :=
  if startsWith line (S_ "data: ") && negb (isDone line)
  then default [] (textOf (slice line 6 (len line)))
  else [].

End Reader.

(** ** The answer route ([POST /api/answer], the one that reads the
    event stream of the model itself)

    The part of the handler that turns the event stream of the model into
    the stream of the reply.  The decoded texts of the successive
    [reader.read()] calls are the input, with the way the stream ends;
    the output is the list of the strings passed to
    [controller.enqueue]. *)

(** [s.split("\n")] *)
Fixpoint splitLines (s : str) : list str :=
  match s with
  | [] => [[]]
  | c :: rest =>
      if isNewline c then [] :: splitLines rest
      else consHead c (splitLines rest)
  end.

(** The stream of the model ends, or a read fails with a message. *)
Inductive StreamEnd :=
| Done
| Failed (errorMsg : str).

Section Relay.

(** [JSON.stringify({ text: parsed.delta.text })] for the [data] of an
    event that parses to a [content_block_delta] with a [text_delta];
    [None] for any other [data], and when [JSON.parse] throws. *)
Variable deltaOf : str -> option str.

(** [JSON.stringify({ error: errorMsg })] *)
Variable errorOf : str -> str.

(** [`data: ${json}\n\n`] *)
Definition frame (json : str) : str := S_ "data: " ++ json ++ [LF; LF].

(** The JSON of what the handler enqueues for one line of the stream of
    the model, if it enqueues something. *)
Definition payload (line : str) : option str :=
  if startsWith line (S_ "data: ") then
    let data := trim (slice line 6 (len line)) in
    if bool_decide (data = S_ "[DONE]") then None else deltaOf data
  else None.

(** [for (const line of lines) { ... }] *)
Fixpoint relayLines (lines : list str) (out : list str) : list str :=
  match lines with
  | [] => out
  | line :: rest =>
      match payload line with
      | Some json => relayLines rest (out ++ [frame json])
      | None => relayLines rest out
      end
  end.

(** One turn of the [while] loop for a read that is not [done]. *)
Definition relayStep (st : str * list str) (decoded : str)
    : str * list str :=
  let '(buffer, out) := st in
  let lines := splitLines (buffer ++ decoded) in
  (default [] (last lines), relayLines (removelast lines) out).

(** [start(controller)]: the loop, then the frame that ends the reply. *)
Definition answerStream (reads : list str) (ending : StreamEnd)
    : list str :=
  let out := snd (fold_left relayStep reads ([], [])) in
  match ending with
  | Done => out ++ [frame (S_ "[DONE]")]
  | Failed errorMsg => out ++ [frame (errorOf errorMsg)]
  end.

End Relay.
(** ** Arithmetic of the window count *)

Lemma ceilDiv_step a b : 0 < b -> ceilDiv a b = 1 + ceilDiv (a - b) b.
Proof.
  intros Hb. unfold ceilDiv.
  replace (a + b - 1) with (a - b + b - 1 + 1 * b) by ring.
  rewrite Z.div_add by lia. ring.
Qed.

Lemma ceilDiv_nonpos a b : 0 < b -> a <= 0 -> ceilDiv a b <= 0.
Proof.
  intros Hb Ha. unfold ceilDiv.
  assert ((a + b - 1) / b < 1); [|lia].
  apply Z.div_lt_upper_bound; lia.
Qed.

Lemma ceilDiv_pos a b : 0 < b -> 0 < a -> 0 < ceilDiv a b.
Proof.
  intros Hb Ha. unfold ceilDiv.
  apply Z.div_str_pos. lia.
Qed.

(** [ceilDiv a b] is the least [q] with [a <= q * b]. *)
Lemma ceilDiv_spec a b :
  0 < b -> (ceilDiv a b - 1) * b < a <= ceilDiv a b * b.
Proof.
  intros Hb. unfold ceilDiv.
  pose proof (Z.div_mod (a + b - 1) b ltac:(lia)) as E.
  pose proof (Z.mod_pos_bound (a + b - 1) b Hb) as M.
  nia.
Qed.

Section ChunkerFacts.
Variables (chunkSize overlap : Z).

Abbreviation step := (chunkSize - overlap).

Lemma windowCount_lt L pos :
  0 < step -> pos < L ->
  windowCount chunkSize overlap L pos
  = S (windowCount chunkSize overlap L (pos + step)).
Proof.
  intros Hs Hp. unfold windowCount.
  destruct (Z.ltb_spec pos L); [|lia].
  rewrite (ceilDiv_step (L - pos)) by lia.
  replace (L - pos - step) with (L - (pos + step)) by ring.
  destruct (Z.ltb_spec (pos + step) L).
  - pose proof (ceilDiv_pos (L - (pos + step)) step Hs ltac:(lia)).
    generalize dependent (ceilDiv (L - (pos + step)) step). lia.
  - pose proof (ceilDiv_nonpos (L - (pos + step)) step Hs ltac:(lia)).
    pose proof (ceilDiv_pos (L - pos) step Hs ltac:(lia)) as Hc.
    rewrite (ceilDiv_step (L - pos)) in Hc by lia.
    replace (L - pos - step) with (L - (pos + step)) in Hc by ring.
    generalize dependent (ceilDiv (L - (pos + step)) step). lia.
Qed.

Lemma windowCount_ge L pos :
  L <= pos -> windowCount chunkSize overlap L pos = O.
Proof.
  intros Hp. unfold windowCount. destruct (Z.ltb_spec pos L); [lia|done].
Qed.

Lemma windowCount_le L pos :
  0 < step -> 0 <= pos ->
  (windowCount chunkSize overlap L pos <= Z.to_nat L)%nat.
Proof.
  intros Hs Hp. unfold windowCount.
  destruct (Z.ltb_spec pos L); [|lia].
  pose proof (ceilDiv_spec (L - pos) step Hs). nia.
Qed.

(** *** The fallback loop *)

Lemma splitByChars_diverges fuel para di dn cp pos o :
  step <= 0 -> pos < len para ->
  splitByChars chunkSize overlap fuel para di dn cp pos o = None.
Proof.
  intros Hs. revert pos o.
  induction fuel as [|fuel IH]; intros pos o Hp; simpl; [done|].
  destruct (Z.ltb_spec pos (len para)); [|lia].
  apply IH. lia.
Qed.

Lemma splitByChars_Some fuel para di dn cp pos o o' :
  splitByChars chunkSize overlap fuel para di dn cp pos o = Some o' ->
  (pos < len para -> 0 < step) /\
  o' = pushAll di dn o
         (windowsFrom chunkSize overlap
            (windowCount chunkSize overlap (len para) pos) para cp pos).
Proof.
  destruct (Z.le_gt_cases step 0) as [Hs|Hs].
  { destruct (Z.lt_ge_cases pos (len para)) as [Hp|Hp].
    - intros H. by rewrite splitByChars_diverges in H.
    - destruct fuel as [|fuel]; simpl; [done|].
      destruct (Z.ltb_spec pos (len para)); [lia|].
      intros [= <-]. split; [lia|].
      by rewrite windowCount_ge. }
  revert pos o.
  induction fuel as [|fuel IH]; intros pos o; simpl; [done|].
  destruct (Z.ltb_spec pos (len para)) as [Hp|Hp].
  - intros H. apply IH in H as [_ ->]. split; [done|].
    by rewrite (windowCount_lt _ pos).
  - intros [= <-]. split; [lia|]. by rewrite windowCount_ge.
Qed.

Lemma splitByChars_enough fuel para di dn cp pos o :
  0 < step ->
  (windowCount chunkSize overlap (len para) pos < fuel)%nat ->
  is_Some (splitByChars chunkSize overlap fuel para di dn cp pos o).
Proof.
  intros Hs. revert pos o.
  induction fuel as [|fuel IH]; intros pos o Hf; simpl; [lia|].
  destruct (Z.ltb_spec pos (len para)) as [Hp|Hp]; [|done].
  apply IH. rewrite (windowCount_lt _ pos) in Hf by done. lia.
Qed.

(** *** The loops against [pieces] *)

Lemma pushAll_app di dn o ps qs :
  pushAll di dn o (ps ++ qs) = pushAll di dn (pushAll di dn o ps) qs.
Proof. unfold pushAll. by rewrite fold_left_app. Qed.


Lemma paraStep_Some fuel di dn o a para o' a' :
  paraStep chunkSize overlap fuel di dn (o, a) para = Some (o', a') ->
  o' = pushAll di dn o (fst (paraPieces chunkSize overlap a para))
  /\ a' = snd (paraPieces chunkSize overlap a para)
  /\ advances chunkSize overlap para.
Proof.
  unfold paraStep, paraPieces, advances.
  destruct (_ <=? chunkSize) eqn:Hc.
  - destruct (truthy (currentChunk a)); intros [= <- <-]; simpl;
      (split; [done|split; [done|]]).
    + apply Z.leb_le in Hc. unfold len in *. lia.
    + apply Z.leb_le in Hc. lia.
  - destruct (Z.ltb_spec chunkSize (len para)) as [Hl|Hl].
    + destruct (splitByChars _ _ _ _ _ _ _ _ _) as [o2|] eqn:Hw; [|done].
      intros [= <- <-]. apply splitByChars_Some in Hw as [Hs ->].
      split; [|split; [done|auto]]. simpl.
      rewrite pushAll_app. f_equal.
      by destruct (truthy (currentChunk a)).
    + intros [= <- <-]. split; [|split; [done|lia]].
      by destruct (truthy (currentChunk a)).
Qed.

Lemma paraStep_enough fuel di dn o a para :
  advances chunkSize overlap para -> (length para < fuel)%nat ->
  is_Some (paraStep chunkSize overlap fuel di dn (o, a) para).
Proof.
  intros Hadv Hf. unfold paraStep.
  destruct (_ <=? chunkSize).
  - by destruct (truthy (currentChunk a)).
  - destruct (Z.ltb_spec chunkSize (len para)) as [Hl|Hl]; [|done].
    destruct (Z.lt_ge_cases 0 (len para)) as [Hp|Hp].
    + edestruct splitByChars_enough as [o2 ->]; [by apply Hadv| |done].
      pose proof (windowCount_le (len para) 0 (Hadv Hl Hp) ltac:(lia)).
      unfold len in *. lia.
    + destruct fuel as [|fuel]; [lia|]. simpl.
      destruct (Z.ltb_spec 0 (len para)); [lia|done].
Qed.

Lemma paraLoop_Some fuel di dn paras o a o' a' :
  paraLoop chunkSize overlap fuel di dn paras (o, a) = Some (o', a') ->
  o' = pushAll di dn o (fst (parasPieces chunkSize overlap paras a))
  /\ a' = snd (parasPieces chunkSize overlap paras a)
  /\ Forall (advances chunkSize overlap) paras.
Proof.
  revert o a o' a'. induction paras as [|para rest IH]; intros o a o' a';
    cbn [paraLoop parasPieces].
  - by intros [= <- <-].
  - destruct (paraStep _ _ _ _ _ _ _) as [[o1 a1]|] eqn:Hs; [|done].
    intros Hl. apply paraStep_Some in Hs as (-> & -> & Hadv).
    apply IH in Hl as (-> & -> & Hall).
    destruct (paraPieces _ _ a para) as [ps a1]. cbn [fst snd].
    destruct (parasPieces _ _ rest a1) as [qs a2]. cbn [fst snd].
    rewrite pushAll_app. split; [done|split; [done|by constructor]].
Qed.

Lemma paraLoop_enough fuel di dn paras o a :
  Forall (advances chunkSize overlap) paras ->
  Forall (fun p => (length p < fuel)%nat) paras ->
  is_Some (paraLoop chunkSize overlap fuel di dn paras (o, a)).
Proof.
  revert o a. induction paras as [|para rest IH]; intros o a Ha Hf;
    cbn [paraLoop].
  - done.
  - inversion Ha; inversion Hf; subst.
    edestruct (paraStep_enough fuel di dn o a para) as [[o1 a1] ->]; auto.
Qed.

Lemma docStep_Some fuel o di doc o' :
  docStep chunkSize overlap fuel o di doc = Some o' ->
  o' = pushAll di (DocumentInput.name doc) o
         (pieces chunkSize overlap (DocumentInput.text doc))
  /\ Forall (advances chunkSize overlap) (paragraphs (trim (DocumentInput.text doc))).
Proof.
  unfold docStep, pieces.
  destruct (truthy (trim (DocumentInput.text doc))) eqn:Ht.
  - destruct (paraLoop _ _ _ _ _ _ _) as [[o1 a1]|] eqn:Hl; [|done].
    intros [= <-]. apply paraLoop_Some in Hl as (-> & -> & Hall).
    split; [|done].
    destruct (parasPieces _ _ _ _) as [ps a2]. simpl.
    rewrite pushAll_app. unfold flushPieces.
    by destruct (truthy (currentChunk a2)).
  - intros [= <-].
    destruct (trim (DocumentInput.text doc)); [|done]. by split.
Qed.

Lemma docStep_enough fuel o di doc :
  Forall (advances chunkSize overlap) (paragraphs (trim (DocumentInput.text doc))) ->
  Forall (fun p => (length p < fuel)%nat)
    (paragraphs (trim (DocumentInput.text doc))) ->
  is_Some (docStep chunkSize overlap fuel o di doc).
Proof.
  intros Ha Hf. unfold docStep.
  destruct (truthy _); [|done].
  edestruct paraLoop_enough as [[o1 a1] ->]; done.
Qed.


Lemma docsLoop_Some fuel docs di o o' :
  docsLoop chunkSize overlap fuel docs di o = Some o' ->
  o' = docsPieces chunkSize overlap docs di o
  /\ Forall (fun d => Forall (advances chunkSize overlap) (docParas d)) docs.
Proof.
  revert di o o'. induction docs as [|doc rest IH]; intros di o o';
    cbn [docsLoop docsPieces].
  - by intros [= <-].
  - destruct (docStep _ _ _ _ _ _) as [o1|] eqn:Hd; [|done].
    intros Hl. apply docStep_Some in Hd as [-> Ha].
    apply IH in Hl as [-> Hall]. by split; [|constructor].
Qed.

Lemma docsLoop_enough fuel docs di o :
  Forall (fun d => Forall (advances chunkSize overlap) (docParas d)) docs ->
  Forall (fun d => Forall (fun p => (length p < fuel)%nat) (docParas d))
    docs ->
  is_Some (docsLoop chunkSize overlap fuel docs di o).
Proof.
  revert di o. induction docs as [|doc rest IH]; intros di o Ha Hf;
    cbn [docsLoop].
  - done.
  - inversion Ha; inversion Hf; subst.
    edestruct (docStep_enough fuel o di doc) as [o1 ->]; auto.
Qed.

End ChunkerFacts.

(** ** The emitted chunk list *)


Section Emitted.
Variables (chunkSize overlap : Z).


Lemma pushAll_chunks di dn o ps :
  chunks (pushAll di dn o ps) = chunks o ++ number di dn (globalId o) ps
  /\ globalId (pushAll di dn o ps) = (globalId o + length ps)%nat.
Proof.
  revert o. induction ps as [|p ps IH]; intros o.
  - simpl. by rewrite app_nil_r, Nat.add_0_r.
  - change (pushAll di dn o (p :: ps))
      with (pushAll di dn (push o (fst p) di dn (snd p)) ps).
    destruct (IH (push o (fst p) di dn (snd p))) as [-> ->].
    unfold number. simpl. rewrite <- app_assoc. simpl.
    rewrite Nat.add_0_r. split; [|lia].
    do 2 f_equal. apply imap_ext. intros k q _. simpl.
    f_equal. lia.
Qed.

Lemma docsPieces_chunks docs di o :
  chunks (docsPieces chunkSize overlap docs di o)
  = chunks o ++ docsChunks chunkSize overlap docs di (globalId o).
Proof.
  revert di o. induction docs as [|doc rest IH]; intros di o; simpl.
  - by rewrite app_nil_r.
  - rewrite IH.
    destruct (pushAll_chunks di (DocumentInput.name doc) o
                (pieces chunkSize overlap (DocumentInput.text doc)))
      as [-> ->].
    by rewrite <- app_assoc.
Qed.


(** A terminating call returns [docsChunks]. *)
Lemma chunkDocuments_inv fuel docs result :
  chunkDocuments chunkSize overlap fuel docs = Some result ->
  result = docsChunks chunkSize overlap docs 0 0 /\ allAdvance chunkSize overlap docs.
Proof.
  unfold chunkDocuments.
  destruct (docsLoop _ _ _ _ _ _) as [o|] eqn:Hl; [|done].
  intros [= <-]. apply docsLoop_Some in Hl as [-> Hall].
  by rewrite docsPieces_chunks.
Qed.


Lemma chunkDocuments_total fuel docs :
  allAdvance chunkSize overlap docs -> enoughFuel fuel docs ->
  chunkDocuments chunkSize overlap fuel docs = Some (docsChunks chunkSize overlap docs 0 0).
Proof.
  intros Ha Hf.
  destruct (docsLoop_enough chunkSize overlap fuel docs 0%nat (mkOut [] 0)
              Ha Hf) as [o Ho].
  pose proof Ho as Ho'. unfold chunkDocuments. rewrite Ho.
  apply docsLoop_Some in Ho' as [-> _].
  by rewrite docsPieces_chunks.
Qed.

Lemma allAdvance_valid docs : overlap < chunkSize -> allAdvance chunkSize overlap docs.
Proof.
  intros Hv. unfold allAdvance.
  apply Forall_forall. intros d _. apply Forall_forall. intros p _.
  unfold advances. lia.
Qed.

End Emitted.

Lemma fuelFor_enough docs fuel :
  (fuelFor docs <= fuel)%nat -> enoughFuel fuel docs.
Proof.
  intros Hf. unfold enoughFuel, fuelFor in *.
  apply Forall_forall. intros d Hd. apply Forall_forall. intros p Hp.
  assert (length p <= list_max (flat_map (fun d => map length (docParas d)) docs))%nat; [|lia].
  pose proof (proj1 (list_max_le (flat_map (fun d => map length (docParas d)) docs) _) (Nat.le_refl _)) as Hall.
  rewrite List.Forall_forall in Hall. apply Hall.
  apply in_flat_map. exists d. split; [by apply list_elem_of_In|].
  apply in_map. by apply list_elem_of_In.
Qed.

(** ** Slices *)

Lemma slice_nonneg {A} (s : list A) (a b : Z) :
  0 <= a -> a <= b ->
  slice s a b = take (Z.to_nat (b - a)) (drop (Z.to_nat a) s).
Proof.
  intros Ha Hb. unfold slice, relIndex.
  destruct (Z.ltb_spec a 0); [lia|]. destruct (Z.ltb_spec b 0); [lia|].
  destruct (Z.le_gt_cases a (len s)) as [Hl|Hl].
  - rewrite (Z.min_l a) by done.
    apply list_eq. intros i. rewrite !lookup_take, !lookup_drop.
    repeat case_decide; try done; try lia.
    symmetry. apply lookup_ge_None. unfold len in *. lia.
  - rewrite (drop_ge s (Z.to_nat a)) by (unfold len in *; lia).
    rewrite (drop_ge s) by (unfold len in *; lia).
    by rewrite !take_nil.
Qed.

Lemma slice_length_le {A} (s : list A) (a n : Z) :
  0 <= a -> 0 <= n -> len (slice s a (a + n)) <= n.
Proof.
  intros Ha Hn. rewrite slice_nonneg by lia.
  unfold len. rewrite length_take. lia.
Qed.

Lemma slice_length {A} (s : list A) (a n : Z) :
  0 <= a -> 0 <= n -> a <= len s ->
  len (slice s a (a + n)) = Z.min n (len s - a).
Proof.
  intros Ha Hn Hl. rewrite slice_nonneg by lia.
  unfold len in *. rewrite length_take, length_drop. lia.
Qed.

(** Two windows of width [w] whose starts are [d <= w] apart: what follows
    the first [d] elements of the earlier one is the first [w - d] elements
    of the later one. *)
Lemma slice_shared {A} (s : list A) (a d w : Z) :
  0 <= a -> 0 <= d -> d <= w ->
  drop (Z.to_nat d) (slice s a (a + w))
  = take (Z.to_nat (w - d)) (slice s (a + d) (a + d + w)).
Proof.
  intros Ha Hd Hw. rewrite !slice_nonneg by lia.
  apply list_eq. intros i.
  rewrite lookup_drop, !lookup_take, !lookup_drop.
  repeat case_decide; try done; try lia.
  f_equal. lia.
Qed.

(** ** The windows of the character fallback *)

Lemma windowsFrom_seq chunkSize overlap n para cp pos :
  windowsFrom chunkSize overlap n para cp pos
  = map (fun k : nat =>
           let start := pos + Z.of_nat k * (chunkSize - overlap) in
           (slice para start (start + chunkSize), cp + start))
        (seq 0 n).
Proof.
  revert pos. induction n as [|n IH]; intros pos; [done|].
  cbn [windowsFrom seq map]. f_equal.
  - f_equal; [f_equal|]; lia.
  - rewrite IH, <- seq_shift, map_map. apply map_ext. intros k.
    cbn zeta. f_equal; [f_equal|]; lia.
Qed.

Lemma number_map di dn start (f : nat -> Piece) n :
  number di dn start (map f (seq 0 n))
  = map (fun k => mkChunk (start + k) (fst (f k)) di dn (snd (f k)))
        (seq 0 n).
Proof.
  unfold number. apply list_eq. intros i.
  rewrite list_lookup_imap, !list_lookup_fmap.
  destruct (decide (i < n)%nat) as [Hi|Hi].
  - by rewrite lookup_seq_lt.
  - rewrite lookup_seq_ge; [done|lia].
Qed.

Lemma pieces_single chunkSize overlap text p :
  paragraphs (trim text) = [p] -> chunkSize < len p ->
  pieces chunkSize overlap text = windows chunkSize overlap p 0.
Proof.
  intros Hp Hl. unfold pieces. rewrite Hp.
  cbn [parasPieces]. unfold paraPieces. cbn [currentChunk truthy].
  destruct (Z.leb_spec (len p) chunkSize); [lia|].
  destruct (Z.ltb_spec chunkSize (len p)); [|lia].
  cbn [app flushPieces currentChunk charPos truthy].
  by rewrite !app_nil_r.
Qed.

(** ** Invariants of the paragraph loop *)

(** An invariant [J done ps a] of the paragraph loop, over the paragraphs
    [done] already seen, the pieces [ps] already emitted and the loop
    variables [a], holds at the end of the loop as soon as each paragraph
    preserves it. *)
Lemma parasPieces_inv chunkSize overlap
    (J : list str -> list Piece -> Acc -> Prop) paras a0 :
  J [] [] a0 ->
  (forall done ps a para,
     para ∈ paras -> J done ps a ->
     J (done ++ [para]) (ps ++ fst (paraPieces chunkSize overlap a para))
       (snd (paraPieces chunkSize overlap a para))) ->
  J paras (fst (parasPieces chunkSize overlap paras a0))
    (snd (parasPieces chunkSize overlap paras a0)).
Proof.
  intros H0 Hstep.
  enough (forall rest done ps a,
            (forall para, para ∈ rest -> para ∈ paras) -> J done ps a ->
            J (done ++ rest)
              (ps ++ fst (parasPieces chunkSize overlap rest a))
              (snd (parasPieces chunkSize overlap rest a))) as Hgen.
  { apply (Hgen paras [] [] a0); auto. }
  induction rest as [|para rest IH]; intros done ps a Hin HJ.
  - cbn. by rewrite !app_nil_r.
  - cbn [parasPieces].
    pose proof (Hstep done ps a para (Hin para ltac:(left)) HJ) as HJ'.
    destruct (paraPieces chunkSize overlap a para) as [qs a1].
    cbn [fst snd] in HJ'.
    apply IH in HJ'; [|intros q Hq; apply Hin; by right].
    destruct (parasPieces chunkSize overlap rest a1) as [rs a2].
    cbn [fst snd] in *.
    by rewrite <- !app_assoc in HJ'.
Qed.

Lemma paragraphs_truthy content :
  Forall (fun p => 0 < len p) (paragraphs content).
Proof.
  unfold paragraphs. apply Forall_forall. intros p Hp.
  apply list_elem_of_In, filter_In in Hp as [_ Hp].
  destruct p; [done|]. unfold len. simpl. lia.
Qed.

Lemma windows_lookup chunkSize overlap para cp k p :
  windows chunkSize overlap para cp !! k = Some p ->
  0 < chunkSize - overlap ->
  let start := Z.of_nat k * (chunkSize - overlap) in
  p = (slice para start (start + chunkSize), cp + start)
  /\ 0 <= start < len para.
Proof.
  unfold windows. rewrite windowsFrom_seq, list_lookup_fmap.
  intros Hk Hs.
  destruct (seq 0 _ !! k) as [k'|] eqn:Hseq; [|done].
  apply lookup_seq in Hseq as [-> Hlt]. cbn in Hk.
  injection Hk as <-. rewrite !Z.add_0_l. split; [done|].
  unfold windowCount in Hlt.
  destruct (Z.ltb_spec 0 (len para)); [|cbn in Hlt; lia].
  rewrite Z.sub_0_r in Hlt.
  pose proof (ceilDiv_spec (len para) _ Hs). nia.
Qed.

(** *** Chunk size *)

Section SizeBound.
Variables (chunkSize overlap : Z).
Hypothesis (Hsize : 0 <= chunkSize) (Hvalid : overlap < chunkSize).

Lemma windows_size para cp :
  Forall (fun p => len (fst p) <= chunkSize)
    (windows chunkSize overlap para cp).
Proof.
  apply Forall_lookup. intros k p Hk.
  apply windows_lookup in Hk as [-> Hr]; [|lia].
  cbn [fst]. apply slice_length_le; lia.
Qed.

Lemma paraPieces_size ps a para :
  sizeInv chunkSize ps a ->
  sizeInv chunkSize (ps ++ fst (paraPieces chunkSize overlap a para))
    (snd (paraPieces chunkSize overlap a para)).
Proof.
  intros [Hps Hcur]. unfold paraPieces, sizeInv.
  destruct (Z.leb_spec
              (if truthy (currentChunk a)
               then len (currentChunk a) + 2 + len para else len para)
              chunkSize) as [Hc|Hc].
  - destruct (truthy (currentChunk a)); cbn [fst snd currentChunk];
      rewrite app_nil_r; (split; [done|]).
    + unfold len in *. rewrite !length_app. cbn [length]. lia.
    + done.
  - assert (Forall (fun p => len (fst p) <= chunkSize)
              (if truthy (currentChunk a)
               then [(currentChunk a, currentStart a)] else [])) as Hfl.
    { destruct (truthy (currentChunk a)); repeat constructor. done. }
    destruct (Z.ltb_spec chunkSize (len para)) as [Hl|Hl];
      cbn [fst snd currentChunk].
    + split; [|unfold len; cbn; lia].
      rewrite !Forall_app. auto using windows_size.
    + split; [|done]. rewrite Forall_app. auto.
Qed.

Lemma pieces_size content :
  Forall (fun p => len (fst p) <= chunkSize)
    (pieces chunkSize overlap content).
Proof.
  unfold pieces.
  pose proof (parasPieces_inv chunkSize overlap (fun _ => sizeInv chunkSize)
                (paragraphs (trim content)) (mkAcc [] 0 0)) as H.
  destruct (parasPieces _ _ _ _) as [ps a]. cbn [fst snd] in H.
  destruct H as [Hps Hcur].
  - split; [constructor|]. unfold len. cbn. lia.
  - intros done qs b para _. apply paraPieces_size.
  - rewrite Forall_app. split; [done|]. unfold flushPieces.
    destruct (truthy (currentChunk a)); repeat constructor. done.
Qed.

End SizeBound.

(** ** Where the chunks of a call come from *)

Lemma number_elem c di dn start ps :
  c ∈ number di dn start ps ->
  docIndex c = di /\ docName c = dn /\ (text c, startChar c) ∈ ps.
Proof.
  unfold number. intros Hc.
  apply list_elem_of_lookup in Hc as [k Hk].
  rewrite list_lookup_imap in Hk.
  apply fmap_Some in Hk as [[t s] [Hp ->]]. cbn.
  split; [done|split; [done|]].
  apply list_elem_of_lookup. by exists k.
Qed.

Lemma docsChunks_elem chunkSize overlap c docs di start :
  c ∈ docsChunks chunkSize overlap docs di start ->
  exists d,
    (di <= docIndex c)%nat
    /\ docs !! (docIndex c - di)%nat = Some d
    /\ docName c = DocumentInput.name d
    /\ (text c, startChar c) ∈ pieces chunkSize overlap (DocumentInput.text d).
Proof.
  revert di start. induction docs as [|doc rest IH]; intros di start;
    cbn [docsChunks].
  - by intros ?%elem_of_nil.
  - intros [Hc|Hc]%elem_of_app.
    + apply number_elem in Hc as (-> & -> & Hp).
      exists doc. rewrite Nat.sub_diag. auto.
    + apply IH in Hc as (d & Hle & Hd & Hn & Hp).
      exists d. split; [lia|]. split; [|done].
      replace (docIndex c - di)%nat with (S (docIndex c - S di)) by lia.
      done.
Qed.

(** ** Offsets in the normalized text *)

Lemma len_app {A} (s t : list A) : len (s ++ t) = len s + len t.
Proof. unfold len. rewrite length_app. lia. Qed.

Lemma len_nonneg {A} (s : list A) : 0 <= len s.
Proof. unfold len. lia. Qed.

Lemma normalized_snoc done p :
  normalized (done ++ [p]) = normalized done ++ p ++ [LF; LF].
Proof.
  unfold normalized. rewrite flat_map_app. cbn. by rewrite app_nil_r.
Qed.

Lemma len_normalized_snoc done p :
  len (normalized (done ++ [p])) = len (normalized done) + len p + 2.
Proof. rewrite normalized_snoc, !len_app. unfold len. cbn. lia. Qed.

Lemma subAt_take_drop s i n :
  0 <= i -> subAt s i (take n (drop (Z.to_nat i) s)).
Proof.
  intros Hi. split; [done|].
  rewrite length_take.
  destruct (Nat.le_ge_cases n (length (drop (Z.to_nat i) s))) as [Hn|Hn].
  - by rewrite Nat.min_l.
  - rewrite Nat.min_r by done. by rewrite !take_ge.
Qed.

Lemma subAt_app_r s s' i t : subAt s i t -> subAt (s ++ s') i t.
Proof.
  intros [Hi Ht]. split; [done|].
  assert (length t <= length s - Z.to_nat i)%nat as Hle.
  { rewrite <- Ht at 1. rewrite length_take, length_drop. lia. }
  destruct (decide (Z.to_nat i <= length s)%nat) as [Hl|Hl].
  - rewrite drop_app_le by done. rewrite take_app_le; [done|].
    rewrite length_drop. lia.
  - assert (length t = 0)%nat as Hz by lia.
    destruct t; [|done]. by rewrite take_0.
Qed.

Lemma subAt_app_l pre s i t : subAt s i t -> subAt (pre ++ s) (len pre + i) t.
Proof.
  intros [Hi Ht]. split; [pose proof (len_nonneg pre); lia|].
  replace (Z.to_nat (len pre + i)) with (length pre + Z.to_nat i)%nat
    by (unfold len; lia).
  by rewrite drop_app_add.
Qed.

Lemma slice_subAt (s : str) a b : 0 <= a -> subAt s a (slice s a b).
Proof.
  intros Ha. unfold slice, relIndex.
  destruct (Z.ltb_spec a 0); [lia|].
  destruct (Z.le_gt_cases a (len s)) as [Hl|Hl].
  - rewrite (Z.min_l a) by done. by apply subAt_take_drop.
  - rewrite (drop_ge s (Z.to_nat (Z.min a (len s))))
      by (unfold len in *; lia).
    rewrite take_nil. split; [done|]. by rewrite take_0.
Qed.

Lemma increasing_nil : increasing [].
Proof. intros i j x y _ Hi. by rewrite lookup_nil in Hi. Qed.

Lemma increasing_app l1 l2 :
  increasing l1 -> increasing l2 ->
  (forall x y, x ∈ l1 -> y ∈ l2 -> x < y) ->
  increasing (l1 ++ l2).
Proof.
  intros H1 H2 H12 i j x y Hij Hi Hj.
  apply lookup_app_Some in Hi as [Hi|[Hil Hi]];
    apply lookup_app_Some in Hj as [Hj|[Hjl Hj]].
  - by apply (H1 i j).
  - apply H12; by eapply list_elem_of_lookup_2.
  - apply lookup_lt_Some in Hj. lia.
  - apply (H2 (i - length l1)%nat (j - length l1)%nat); [lia|done..].
Qed.

Lemma increasing_singleton x : increasing [x].
Proof.
  intros i j a b Hij Hi Hj. apply lookup_lt_Some in Hj. cbn in Hj. lia.
Qed.

Lemma increasing_windows chunkSize overlap para cp :
  0 < chunkSize - overlap ->
  increasing (map snd (windows chunkSize overlap para cp)).
Proof.
  intros Hs i j x y Hij Hi Hj.
  rewrite list_lookup_fmap in Hi, Hj.
  apply fmap_Some in Hi as [p [Hi ->]]. apply fmap_Some in Hj as [q [Hj ->]].
  apply windows_lookup in Hi as [-> _]; [|done].
  apply windows_lookup in Hj as [-> _]; [|done].
  cbn. nia.
Qed.

Lemma truthy_len (s : str) : truthy s = true <-> 0 < len s.
Proof. destruct s; unfold len; cbn; split; (done || lia). Qed.

Lemma truthy_false (s : str) : truthy s = false -> s = [].
Proof. by destruct s. Qed.

Lemma structInv_next done ps a :
  structInv done ps a ->
  nextStart a <= charPos a
  /\ (truthy (currentChunk a) = true ->
      currentStart a + len (currentChunk a) + 2 = charPos a
      /\ subAt (normalized done) (currentStart a) (currentChunk a)).
Proof.
  intros (Hcp & Hcur & _). unfold nextStart.
  destruct (truthy (currentChunk a)) eqn:Ht; [|split; [lia|done]].
  destruct (Hcur eq_refl) as [H0 Hd].
  assert (currentStart a + len (currentChunk a) + 2 = charPos a) as E.
  { apply (f_equal length) in Hd.
    rewrite length_drop, length_app in Hd. cbn in Hd.
    unfold len in *. lia. }
  split; [pose proof (len_nonneg (currentChunk a)); lia|].
  intros _. split; [done|]. split; [done|].
  rewrite Hd. by rewrite take_app_length.
Qed.

Lemma windows_struct chunkSize overlap pre para :
  0 < chunkSize - overlap ->
  Forall (fun p => subAt (pre ++ para ++ [LF; LF]) (snd p) (fst p)
                   /\ len pre <= snd p < len pre + len para)
    (windows chunkSize overlap para (len pre)).
Proof.
  intros Hs. apply Forall_lookup. intros k p Hk.
  apply windows_lookup in Hk as [-> Hr]; [|done]. cbn [fst snd].
  split; [|lia].
  apply subAt_app_l, subAt_app_r, slice_subAt. lia.
Qed.

Section StructInv.
Variables (chunkSize overlap : Z).

Lemma flushed_struct done ps a :
  structInv done ps a ->
  Forall (fun p => subAt (normalized done) (snd p) (fst p)
                   /\ nextStart a <= snd p < charPos a) (flushPieces a).
Proof.
  intros Hinv. apply structInv_next in Hinv as [Hle Hcur].
  unfold flushPieces, nextStart in *.
  destruct (truthy (currentChunk a)); [|constructor].
  destruct (Hcur eq_refl) as [E Hsub].
  constructor; [|constructor]. cbn [fst snd]. split; [done|].
  pose proof (len_nonneg (currentChunk a)). lia.
Qed.

Lemma paraPieces_struct done ps a para :
  advances chunkSize overlap para -> 0 < len para ->
  structInv done ps a ->
  structInv (done ++ [para])
    (ps ++ fst (paraPieces chunkSize overlap a para))
    (snd (paraPieces chunkSize overlap a para)).
Proof.
  intros Hadv Hpos Hinv.
  pose proof (structInv_next _ _ _ Hinv) as [Hnext Hend].
  pose proof (flushed_struct _ _ _ Hinv) as Hfl.
  destruct Hinv as (Hcp & Hcur & Hsub & Hinc & Hbelow).
  assert (Forall (fun p => subAt (normalized (done ++ [para])) (snd p) (fst p))
            ps) as Hsub'.
  { rewrite normalized_snoc. eapply Forall_impl; [exact Hsub|].
    intros p Hp. by apply subAt_app_r. }
  assert (drop (Z.to_nat (charPos a)) (normalized (done ++ [para]))
          = para ++ [LF; LF]) as Hdrop.
  { rewrite normalized_snoc, Hcp. unfold len. rewrite Nat2Z.id.
    by rewrite drop_app_length. }
  assert (truthy para = true) as Hpt by by apply truthy_len.
  unfold paraPieces. fold (flushPieces a).
  destruct (Z.leb_spec
              (if truthy (currentChunk a)
               then len (currentChunk a) + 2 + len para else len para)
              chunkSize) as [Hc|Hc].
  - (* the paragraph joins the buffer *)
    destruct (truthy (currentChunk a)) eqn:Ht; cbn [fst snd];
      rewrite app_nil_r; unfold structInv, nextStart in *;
      cbn [currentChunk currentStart charPos].
    + destruct (Hcur eq_refl) as [H0 Hd].
      assert (truthy (currentChunk a ++ [LF; LF] ++ para) = true) as Ht'
        by (by destruct (currentChunk a)).
      rewrite Ht'. rewrite Ht in Hbelow.
      split; [rewrite len_normalized_snoc; lia|].
      split; [|done]. intros _. split; [done|].
      rewrite normalized_snoc, drop_app_le.
      * rewrite Hd. by rewrite <- !app_assoc.
      * destruct (Hend eq_refl) as [E _].
        pose proof (len_nonneg (currentChunk a)). unfold len in *. lia.
    + rewrite Hpt. rewrite Ht in Hbelow.
      split; [rewrite len_normalized_snoc; lia|].
      split; [intros _; split; [rewrite Hcp; apply len_nonneg|done]|].
      done.
  - (* the buffer is flushed *)
    assert (Forall (fun p => subAt (normalized (done ++ [para])) (snd p) (fst p))
              (flushPieces a)) as Hflsub.
    { rewrite normalized_snoc. eapply Forall_impl; [exact Hfl|].
      intros p [Hp _]. by apply subAt_app_r. }
    assert (increasing (map snd (ps ++ flushPieces a))) as Hinc'.
    { rewrite map_app. apply increasing_app; [done| |].
      - unfold flushPieces. destruct (truthy (currentChunk a));
          [apply increasing_singleton|apply increasing_nil].
      - intros x y Hx Hy.
        apply list_elem_of_fmap in Hx as [p [-> Hp]].
        apply list_elem_of_fmap in Hy as [q [-> Hq]].
        rewrite Forall_forall in Hbelow, Hfl.
        specialize (Hbelow p Hp). destruct (Hfl q Hq) as [_ Hr]. lia. }
    destruct (Z.ltb_spec chunkSize (len para)) as [Hl|Hl]; cbn [fst snd];
      unfold structInv, nextStart; cbn [currentChunk currentStart charPos truthy].
    + (* the character fallback *)
      assert (0 < chunkSize - overlap) as Hs by by apply Hadv.
      pose proof (windows_struct chunkSize overlap (normalized done) para Hs)
        as Hw.
      rewrite <- Hcp, <- normalized_snoc in Hw.
      split; [rewrite len_normalized_snoc; lia|].
      split; [done|]. rewrite app_assoc.
      split; [|split].
      * rewrite !Forall_app. repeat split; [done..|].
        eapply Forall_impl; [exact Hw|]. by intros p [Hp _].
      * rewrite map_app. apply increasing_app; [done| |].
        -- by apply increasing_windows.
        -- intros x y Hx Hy.
           apply list_elem_of_fmap in Hx as [p [-> Hp]].
           apply list_elem_of_fmap in Hy as [q [-> Hq]].
           rewrite Forall_forall in Hw. destruct (Hw q Hq) as [_ Hr].
           apply elem_of_app in Hp as [Hp|Hp].
           ++ rewrite Forall_forall in Hbelow. specialize (Hbelow p Hp).
              unfold nextStart in *. lia.
           ++ rewrite Forall_forall in Hfl. destruct (Hfl p Hp) as [_ Hr'].
              lia.
      * rewrite !Forall_app. repeat split.
        -- eapply Forall_impl; [exact Hbelow|]. intros p Hp.
           unfold nextStart in *. cbn beta in *. lia.
        -- eapply Forall_impl; [exact Hfl|]. intros p [_ Hp].
           cbn beta in *. lia.
        -- eapply Forall_impl; [exact Hw|]. intros p [_ Hp].
           cbn beta in *. lia.
    + rewrite Hpt.
      split; [rewrite len_normalized_snoc; lia|].
      split; [intros _; split; [rewrite Hcp; apply len_nonneg|done]|].
      split; [|split; [done|]].
      * rewrite Forall_app. by split.
      * rewrite Forall_app. split.
        -- eapply Forall_impl; [exact Hbelow|]. intros p Hp.
           unfold nextStart in *. cbn beta in *. lia.
        -- eapply Forall_impl; [exact Hfl|]. intros p [_ Hp].
           cbn beta in *. lia.
Qed.

End StructInv.

Lemma pieces_struct chunkSize overlap content :
  Forall (advances chunkSize overlap) (paragraphs (trim content)) ->
  Forall (fun p => subAt (normalized (paragraphs (trim content)))
                     (snd p) (fst p))
    (pieces chunkSize overlap content)
  /\ increasing (map snd (pieces chunkSize overlap content)).
Proof.
  intros Hadv. unfold pieces.
  pose proof (parasPieces_inv chunkSize overlap structInv
                (paragraphs (trim content)) (mkAcc [] 0 0)) as H.
  destruct (parasPieces _ _ _ _) as [ps a]. cbn [fst snd] in H.
  assert (structInv (paragraphs (trim content)) ps a) as Hinv.
  { apply H.
    - unfold structInv, nextStart. cbn.
      repeat split; first [done|apply increasing_nil].
    - intros done qs b para Hin. apply paraPieces_struct.
      + rewrite Forall_forall in Hadv. by apply Hadv.
      + pose proof (paragraphs_truthy (trim content)) as Ht.
        rewrite Forall_forall in Ht. by apply Ht. }
  pose proof (flushed_struct _ _ _ Hinv) as Hfl.
  destruct Hinv as (Hcp & Hcur & Hsub & Hinc & Hbelow).
  split.
  - rewrite Forall_app. split; [done|].
    eapply Forall_impl; [exact Hfl|]. by intros p [Hp _].
  - rewrite map_app. apply increasing_app; [done| |].
    + unfold flushPieces. destruct (truthy (currentChunk a));
        [apply increasing_singleton|apply increasing_nil].
    + intros x y Hx Hy.
      apply list_elem_of_fmap in Hx as [p [-> Hp]].
      apply list_elem_of_fmap in Hy as [q [-> Hq]].
      rewrite Forall_forall in Hbelow, Hfl.
      specialize (Hbelow p Hp). destruct (Hfl q Hq) as [_ Hr]. lia.
Qed.

Lemma number_lookup di dn start ps k c :
  number di dn start ps !! k = Some c ->
  exists p, ps !! k = Some p
            /\ c = mkChunk (start + k) (fst p) di dn (snd p).
Proof.
  unfold number. rewrite list_lookup_imap. intros Hk.
  apply fmap_Some in Hk as [p [Hp ->]]. by exists p.
Qed.

Lemma number_length di dn start ps :
  length (number di dn start ps) = length ps.
Proof. unfold number. by rewrite length_imap. Qed.

Lemma docsChunks_ids chunkSize overlap docs di start k c :
  docsChunks chunkSize overlap docs di start !! k = Some c ->
  id c = (start + k)%nat.
Proof.
  revert di start k. induction docs as [|doc rest IH]; intros di start k;
    cbn [docsChunks].
  - by rewrite lookup_nil.
  - intros [Hk|[Hlen Hk]]%lookup_app_Some.
    + by apply number_lookup in Hk as [p [_ ->]].
    + apply IH in Hk. rewrite number_length in *. lia.
Qed.

Lemma docsChunks_order chunkSize overlap docs di start j k cj ck :
  allAdvance chunkSize overlap docs -> (j < k)%nat ->
  docsChunks chunkSize overlap docs di start !! j = Some cj ->
  docsChunks chunkSize overlap docs di start !! k = Some ck ->
  (docIndex cj < docIndex ck)%nat
  \/ (docIndex cj = docIndex ck /\ startChar cj < startChar ck).
Proof.
  intros Hall Hjk. revert di start j k Hjk.
  induction docs as [|doc rest IH]; intros di start j k Hjk;
    cbn [docsChunks].
  - by rewrite lookup_nil.
  - apply Forall_cons in Hall as [Hdoc Hall].
    intros [Hj|[Hjl Hj]]%lookup_app_Some [Hk|[Hkl Hk]]%lookup_app_Some.
    + right. apply number_lookup in Hj as [p [Hp ->]].
      apply number_lookup in Hk as [q [Hq ->]]. cbn. split; [done|].
      destruct (pieces_struct chunkSize overlap _ Hdoc) as [_ Hinc].
      apply (Hinc j k); [done|rewrite list_lookup_fmap..].
      * exact (f_equal (fmap snd) Hp).
      * exact (f_equal (fmap snd) Hq).
    + left. apply number_lookup in Hj as [p [_ ->]]. cbn.
      apply list_elem_of_lookup_2, docsChunks_elem in Hk
        as (d & Hle & _). lia.
    + apply lookup_lt_Some in Hk. lia.
    + eapply (IH Hall); [|exact Hj|exact Hk]. lia.
Qed.

(** ** Stitching pieces *)

Lemma stitch_app c ps qs :
  stitch c (ps ++ qs) = stitch c ps ++ stitch (coveredAfter c ps) qs.
Proof.
  revert c. induction ps as [|p ps IH]; intros c; cbn; [done|].
  by rewrite IH, <- app_assoc.
Qed.

Lemma coveredAfter_app c ps qs :
  coveredAfter c (ps ++ qs) = coveredAfter (coveredAfter c ps) qs.
Proof. revert c. induction ps as [|p ps IH]; intros c; cbn; [done|]. apply IH. Qed.

(** A piece that starts at or after [c] is stitched whole. *)
Lemma stitch_below c p rest :
  c <= snd p ->
  stitch c (p :: rest) = fst p ++ stitch (snd p + len (fst p)) rest
  /\ coveredAfter c (p :: rest) = coveredAfter (snd p + len (fst p)) rest.
Proof.
  intros Hc. cbn. pose proof (len_nonneg (fst p)).
  replace (Z.to_nat (c - snd p)) with 0%nat by lia.
  rewrite Z.max_r by lia. by rewrite drop_0.
Qed.

Lemma drop_split {A} (l : list A) (e e' : nat) :
  (e <= e')%nat -> drop e l = take (e' - e) (drop e l) ++ drop e' l.
Proof.
  intros He. rewrite <- (take_drop (e' - e) (drop e l)) at 1.
  rewrite drop_drop. do 2 f_equal. lia.
Qed.

Section Stitch.
Variables (chunkSize overlap : Z).
Hypothesis (Hoverlap : 0 <= overlap) (Hvalid : overlap < chunkSize).

Lemma stitch_windowsFrom para cp n pos E :
  n = windowCount chunkSize overlap (len para) pos ->
  0 <= pos -> Z.min pos (len para) <= E <= len para ->
  stitch (cp + E) (windowsFrom chunkSize overlap n para cp pos)
  = drop (Z.to_nat E) para
  /\ coveredAfter (cp + E) (windowsFrom chunkSize overlap n para cp pos)
     = cp + len para.
Proof.
  revert pos E. induction n as [|n IH]; intros pos E Hn Hpos HE.
  - destruct (Z.lt_ge_cases pos (len para)) as [Hlt|Hge].
    { rewrite windowCount_lt in Hn by lia. done. }
    cbn. assert (E = len para) as -> by lia.
    split; [|done]. unfold len. rewrite Nat2Z.id. by rewrite drop_all.
  - destruct (Z.lt_ge_cases pos (len para)) as [Hlt|Hge];
      [|by rewrite windowCount_ge in Hn].
    rewrite windowCount_lt in Hn by lia. injection Hn as Hn.
    cbn [windowsFrom stitch coveredAfter fst snd].
    rewrite slice_length by lia.
    set (E' := Z.max E (pos + Z.min chunkSize (len para - pos))).
    replace (Z.max (cp + E)
               (cp + pos + Z.min chunkSize (len para - pos)))
      with (cp + E') by lia.
    destruct (IH (pos + (chunkSize - overlap)) E' Hn) as [-> ->];
      [lia|lia|]. split; [|done].
    rewrite (drop_split para (Z.to_nat E) (Z.to_nat E')) by lia. f_equal.
    rewrite slice_nonneg by lia.
    rewrite skipn_firstn_comm, drop_drop.
    replace (Z.to_nat pos + Z.to_nat (cp + E - (cp + pos)))%nat
      with (Z.to_nat E) by lia.
    destruct (Z.le_gt_cases (pos + chunkSize) (len para)) as [Hc|Hc].
    + f_equal. lia.
    + rewrite !take_ge; [done|rewrite length_drop; unfold len in *; lia..].
Qed.

Lemma stitch_windows para cp c :
  0 < len para -> c <= cp ->
  stitch c (windows chunkSize overlap para cp) = para
  /\ coveredAfter c (windows chunkSize overlap para cp) = cp + len para.
Proof.
  intros Hpos Hc. unfold windows.
  pose proof (stitch_windowsFrom para cp _ 0 0 eq_refl ltac:(lia) ltac:(lia))
    as Hgen.
  rewrite Z.add_0_r, drop_0 in Hgen.
  rewrite windowCount_lt in * by lia.
  cbn [windowsFrom] in *.
  edestruct (stitch_below c) as [-> ->]; [cbn; lia|].
  edestruct (stitch_below cp) as [E1 E2]; [|rewrite E1, E2 in Hgen]; [cbn; lia|].
  done.
Qed.

End Stitch.

(** ** Characters that are not white space *)

Lemma nonBlank_app s t : nonBlank (s ++ t) = nonBlank s ++ nonBlank t.
Proof. apply List.filter_app. Qed.

Lemma isNewline_isWhiteSpace c : isNewline c = true -> isWhiteSpace c = true.
Proof.
  unfold isNewline, isWhiteSpace. intros H%Nat.eqb_eq. by rewrite H.
Qed.

Lemma nonBlank_trimStart s : nonBlank (trimStart s) = nonBlank s.
Proof.
  induction s as [|c s IH]; [done|]. cbn.
  destruct (isWhiteSpace c) eqn:Hc; cbn; [done|]. by rewrite Hc.
Qed.

Lemma nonBlank_rev s : nonBlank (rev s) = rev (nonBlank s).
Proof.
  induction s as [|c s IH]; [done|]. cbn.
  rewrite nonBlank_app, IH. cbn.
  destruct (isWhiteSpace c); cbn; [by rewrite app_nil_r|done].
Qed.

Lemma nonBlank_trim s : nonBlank (trim s) = nonBlank s.
Proof.
  unfold trim, trimEnd.
  by rewrite nonBlank_rev, nonBlank_trimStart, nonBlank_rev, rev_involutive,
    nonBlank_trimStart.
Qed.

Lemma concat_consHead c fields :
  concat (consHead c fields) = c :: concat fields.
Proof. by destruct fields. Qed.

Lemma nonBlank_splitParagraphs inSep s :
  nonBlank (concat (splitParagraphs inSep s)) = nonBlank s.
Proof.
  revert inSep. induction s as [|c s IH]; intros inSep; [done|].
  cbn [splitParagraphs].
  destruct (isNewline c) eqn:Hn.
  - apply isNewline_isWhiteSpace in Hn.
    assert (nonBlank (c :: s) = nonBlank s) as -> by (cbn; by rewrite Hn).
    assert (nonBlank (concat (consHead c (splitParagraphs false s)))
            = nonBlank s) as Hcons.
    { rewrite concat_consHead. cbn. by rewrite Hn, IH. }
    destruct inSep; [apply IH|].
    destruct s as [|c' s']; [done|].
    destruct (isNewline c'); [apply IH|done].
  - rewrite concat_consHead. cbn. by rewrite IH.
Qed.

Lemma nonBlank_concat_trim fields :
  nonBlank (concat (map trim fields)) = nonBlank (concat fields).
Proof.
  induction fields as [|f fs IH]; [done|]. cbn.
  by rewrite !nonBlank_app, nonBlank_trim, IH.
Qed.

Lemma concat_filter_truthy fields :
  concat (List.filter truthy fields) = concat fields.
Proof.
  induction fields as [|f fs IH]; [done|]. cbn.
  destruct f; cbn; [done|]. by rewrite IH.
Qed.

Lemma nonBlank_paragraphs content :
  nonBlank (concat (paragraphs content)) = nonBlank content.
Proof.
  unfold paragraphs.
  by rewrite concat_filter_truthy, nonBlank_concat_trim,
    nonBlank_splitParagraphs.
Qed.

Lemma concat_snoc (done : list str) p : concat (done ++ [p]) = concat done ++ p.
Proof. rewrite concat_app. cbn. by rewrite app_nil_r. Qed.

(** ** Coverage *)

Section Coverage.
Variables (chunkSize overlap : Z).
Hypothesis (Hoverlap : 0 <= overlap) (Hvalid : overlap < chunkSize).

(** Stitching what a flush emits gives the buffer. *)
Lemma stitch_flush done ps a c :
  structInv done ps a -> c <= nextStart a ->
  stitch c (flushPieces a) = currentChunk a
  /\ coveredAfter c (flushPieces a) <= charPos a.
Proof.
  intros Hinv Hc. apply structInv_next in Hinv as [Hle Hcur].
  unfold flushPieces, nextStart in *.
  destruct (truthy (currentChunk a)) eqn:Ht.
  - destruct (Hcur eq_refl) as [E _].
    edestruct (stitch_below c) as [-> ->]; [cbn; lia|]. cbn.
    rewrite app_nil_r. split; [done|lia].
  - apply truthy_false in Ht. rewrite Ht. split; [done|]. cbn. lia.
Qed.

Lemma paraPieces_cover done ps a para :
  0 < len para -> structInv done ps a -> coverInv done ps a ->
  coverInv (done ++ [para])
    (ps ++ fst (paraPieces chunkSize overlap a para))
    (snd (paraPieces chunkSize overlap a para)).
Proof.
  intros Hpos Hinv [Hnb Hcov].
  pose proof (structInv_next _ _ _ Hinv) as [Hnext Hend].
  pose proof (stitch_flush _ _ _ _ Hinv Hcov) as [Hfl Hflc].
  assert (truthy para = true) as Hpt by by apply truthy_len.
  unfold coverInv. rewrite concat_snoc, nonBlank_app, <- Hnb.
  unfold paraPieces. unfold flushPieces in Hfl, Hflc.
  destruct (Z.leb_spec
              (if truthy (currentChunk a)
               then len (currentChunk a) + 2 + len para else len para)
              chunkSize) as [Hc|Hc].
  - destruct (truthy (currentChunk a)) eqn:Ht; cbn [fst snd];
      rewrite app_nil_r; unfold nextStart in *;
      cbn [currentChunk currentStart charPos].
    + assert (truthy (currentChunk a ++ [LF; LF] ++ para) = true) as ->
        by (by destruct (currentChunk a)).
      rewrite Ht in Hcov. split; [|done].
      rewrite !nonBlank_app. by rewrite <- !app_assoc.
    + apply truthy_false in Ht. rewrite Ht in *. rewrite Hpt.
      cbn. rewrite app_nil_r. done.
  - destruct (Z.ltb_spec chunkSize (len para)) as [Hl|Hl]; cbn [fst snd];
      unfold nextStart; cbn [currentChunk currentStart charPos truthy].
    + destruct (stitch_windows chunkSize overlap Hoverlap Hvalid para
                  (charPos a) _ Hpos Hflc) as [Hw Hwc].
      rewrite !stitch_app, !coveredAfter_app, Hfl, Hw, Hwc.
      split; [|lia]. rewrite !nonBlank_app. cbn [nonBlank List.filter].
      by rewrite app_nil_r, <- !app_assoc.
    + rewrite Hpt, stitch_app, coveredAfter_app, Hfl.
      split; [|done]. by rewrite !nonBlank_app.
Qed.

Lemma pieces_cover content :
  nonBlank (stitch 0 (pieces chunkSize overlap content))
  = nonBlank (trim content).
Proof.
  unfold pieces.
  pose proof (parasPieces_inv chunkSize overlap
                (fun done ps a => structInv done ps a /\ coverInv done ps a)
                (paragraphs (trim content)) (mkAcc [] 0 0)) as H.
  destruct (parasPieces _ _ _ _) as [ps a]. cbn [fst snd] in H.
  destruct H as [Hinv [Hnb Hcov]].
  - split.
    + unfold structInv, nextStart. cbn.
      repeat split; first [done|apply increasing_nil].
    + unfold coverInv, nextStart. by cbn.
  - intros done qs b para Hin [Hs Hc].
    assert (0 < len para) as Hpos.
    { pose proof (paragraphs_truthy (trim content)) as Ht.
      rewrite Forall_forall in Ht. by apply Ht. }
    split.
    + apply paraPieces_struct; [|done..]. unfold advances. lia.
    + by apply paraPieces_cover.
  - destruct (stitch_flush _ _ _ _ Hinv Hcov) as [Hfl _].
    rewrite stitch_app, Hfl, nonBlank_app, Hnb.
    apply nonBlank_paragraphs.
Qed.

End Coverage.

(** ** The chunks of one document *)

Lemma filter_all {A} (f : A -> bool) l :
  (forall x, x ∈ l -> f x = true) -> List.filter f l = l.
Proof.
  induction l as [|x l IH]; intros H; [done|]. cbn.
  rewrite (H x) by left. f_equal. apply IH. intros y Hy. apply H. by right.
Qed.

Lemma filter_none {A} (f : A -> bool) l :
  (forall x, x ∈ l -> f x = false) -> List.filter f l = [].
Proof.
  induction l as [|x l IH]; intros H; [done|]. cbn.
  rewrite (H x) by left. apply IH. intros y Hy. apply H. by right.
Qed.

Lemma number_pieces di dn start ps :
  map (fun c => (text c, startChar c)) (number di dn start ps) = ps.
Proof.
  unfold number. apply list_eq. intros k.
  rewrite list_lookup_fmap, list_lookup_imap.
  by destruct (ps !! k) as [[t s]|].
Qed.

Lemma piecesOf_docsChunks chunkSize overlap docs di start i d :
  docs !! i = Some d ->
  piecesOf (di + i) (docsChunks chunkSize overlap docs di start)
  = pieces chunkSize overlap (DocumentInput.text d).
Proof.
  revert di start i. induction docs as [|doc rest IH]; intros di start i;
    [by rewrite lookup_nil|].
  unfold piecesOf in *. cbn [docsChunks]. rewrite List.filter_app, map_app.
  destruct i as [|i]; cbn [lookup list_lookup].
  - intros [= ->]. rewrite Nat.add_0_r.
    rewrite filter_all, number_pieces.
    + rewrite filter_none; [by rewrite app_nil_r|].
      intros c Hc. apply docsChunks_elem in Hc as (_ & Hle & _).
      apply Nat.eqb_neq. lia.
    + intros c Hc. apply number_elem in Hc as (-> & _).
      apply Nat.eqb_refl.
  - intros Hd. rewrite filter_none.
    + replace (di + S i)%nat with (S di + i)%nat by lia. by apply IH.
    + intros c Hc. apply number_elem in Hc as (-> & _).
      apply Nat.eqb_neq. lia.
Qed.

(** ** The index against the counts of the specification *)

Lemma occurrences_cons t u tokens :
  occurrences t (u :: tokens)
  = ((if decide (u = t) then 1 else 0) + occurrences t tokens)%nat.
Proof.
  unfold occurrences. cbn. by destruct (decide (u = t)) as [->|Hne];
    [rewrite bool_decide_eq_true_2|rewrite bool_decide_eq_false_2].
Qed.

Lemma occurrences_pos t tokens : (0 < occurrences t tokens)%nat <-> t ∈ tokens.
Proof.
  induction tokens as [|u tokens IH].
  - cbn. split; [lia|by intros ?%elem_of_nil].
  - rewrite occurrences_cons, elem_of_cons.
    destruct (decide (u = t)) as [->|Hne]; [split; [by left|lia]|].
    rewrite Nat.add_0_l, IH. split; [by right|by intros [?|?]].
Qed.

Lemma occurrences_le t tokens : (occurrences t tokens <= length tokens)%nat.
Proof. unfold occurrences. apply filter_length_le. Qed.

Lemma getOr0_increment k m t :
  getOr0 (increment k m) t
  = ((if decide (k = t) then 1 else 0) + getOr0 m t)%nat.
Proof.
  unfold increment, getOr0. destruct (decide (k = t)) as [->|Hne].
  - rewrite lookup_insert_eq. cbn. lia.
  - by rewrite lookup_insert_ne.
Qed.

Lemma getOr0_empty t : getOr0 ∅ t = 0%nat.
Proof. unfold getOr0. by rewrite lookup_empty. Qed.

(** The token loop of chunk [i]. *)
Lemma tokenStep_fold i tokens tf df seen tf' df' seen' :
  fold_left (tokenStep i) tokens (tf, df, seen) = (tf', df', seen') ->
  length tf' = length tf
  /\ (forall j, j ≠ i -> tf' !! j = tf !! j)
  /\ (forall m, tf !! i = Some m ->
        exists m', tf' !! i = Some m'
                   /\ forall t, getOr0 m' t
                                = (getOr0 m t + occurrences t tokens)%nat)
  /\ (forall t, getOr0 df' t
                = (getOr0 df t
                   + (if decide (t ∈ tokens /\ t ∉ seen) then 1 else 0))%nat).
Proof.
  revert tf df seen. induction tokens as [|u tokens IH]; intros tf df seen.
  - cbn. intros [= <- <- <-]. split; [done|]. split; [done|]. split.
    + intros m Hm. exists m. split; [done|]. intros t. cbn. lia.
    + intros t. rewrite decide_False; [lia|]. by intros [?%elem_of_nil _].
  - cbn [fold_left]. unfold tokenStep at 2.
    destruct (decide (u ∈ seen)) as [Hin|Hnin]; intros Hf;
      apply IH in Hf as (Hlen & Hother & Hi & Hdf);
      rewrite length_alter in Hlen.
    + split; [done|]. split.
      { intros j Hj. rewrite Hother by done. by apply list_lookup_alter_ne. }
      split.
      { intros m Hm.
        destruct (Hi (increment u m)) as (m' & Hm' & Hcount).
        { by rewrite list_lookup_alter_eq, Hm. }
        exists m'. split; [done|]. intros t.
        rewrite Hcount, getOr0_increment, occurrences_cons. lia. }
      intros t. rewrite Hdf. f_equal.
      destruct (decide (t ∈ tokens /\ t ∉ seen)) as [[H1 H2]|Hn].
      * rewrite decide_True; [done|]. split; [by right|done].
      * rewrite decide_False; [done|].
        intros [[->|H1]%elem_of_cons H2]; [done|]. by apply Hn.
    + split; [done|]. split.
      { intros j Hj. rewrite Hother by done. by apply list_lookup_alter_ne. }
      split.
      { intros m Hm.
        destruct (Hi (increment u m)) as (m' & Hm' & Hcount).
        { by rewrite list_lookup_alter_eq, Hm. }
        exists m'. split; [done|]. intros t.
        rewrite Hcount, getOr0_increment, occurrences_cons. lia. }
      intros t. rewrite Hdf, getOr0_increment.
      destruct (decide (u = t)) as [->|Hne].
      * rewrite (decide_False (P := _ /\ t ∉ {[t]} ∪ seen)).
        2:{ intros [_ H2]. apply H2, elem_of_union. left.
            by apply elem_of_singleton. }
        rewrite (decide_True (P := t ∈ t :: tokens /\ _)); [lia|].
        split; [by left|done].
      * destruct (decide (t ∈ tokens /\ t ∉ {[u]} ∪ seen)) as [[H1 H2]|Hn].
        -- rewrite decide_True; [lia|]. split; [by right|].
           intros H3. apply H2, elem_of_union. by right.
        -- rewrite decide_False; [lia|].
           intros [[->|H1]%elem_of_cons H2]; [done|].
           apply Hn. split; [done|].
           intros [H3%elem_of_singleton|H3]%elem_of_union; [by subst|done].
Qed.

Lemma docFreq_snoc pre c t :
  docFreq (pre ++ [c]) t
  = (docFreq pre t + (if (0 <? freq t c)%nat then 1 else 0))%nat.
Proof.
  unfold docFreq. rewrite List.filter_app, length_app. f_equal.
  cbn [List.filter]. by destruct (0 <? freq t c)%nat.
Qed.

Lemma chunkStep_inv all pre c rest st :
  all = pre ++ c :: rest ->
  indexInv all pre st ->
  indexInv all (pre ++ [c]) (chunkStep st (length pre) c).
Proof.
  intros -> (Hlen & Hseen & Hempty & Hdf & Hdl & Htl).
  unfold chunkStep.
  destruct (fold_left _ _ _) as [[tf' df'] seen'] eqn:Hf.
  apply tokenStep_fold in Hf as (Hlen' & Hother & Hi & Hdf').
  unfold indexInv. cbn [st_tf st_df st_docLengths st_totalLength].
  split; [lia|]. split; [|split; [|split; [|split]]].
  - intros j d Hj. apply lookup_app_Some in Hj as [Hj|[Hge Hj]].
    + rewrite Hother; [by apply Hseen|].
      apply lookup_lt_Some in Hj. lia.
    + apply list_lookup_singleton_Some in Hj as [Hz <-].
      assert (j = length pre) as -> by lia.
      destruct (Hi ∅) as (m' & Hm' & Hc).
      { apply Hempty. rewrite length_app. cbn. lia. }
      exists m'. split; [done|]. intros t.
      by rewrite Hc, getOr0_empty.
  - intros j Hj. rewrite length_app in Hj. cbn in Hj.
    rewrite Hother by lia. apply Hempty. lia.
  - intros t. rewrite Hdf', Hdf, docFreq_snoc. f_equal.
    unfold freq. destruct (Nat.ltb_spec 0 (occurrences t (tokenize (text c))))
      as [Hp|Hp].
    + rewrite decide_True; [done|]. split; [by apply occurrences_pos|].
      apply not_elem_of_empty.
    + rewrite decide_False; [done|]. intros [Hin%occurrences_pos _]. lia.
  - by rewrite Hdl, map_app.
  - rewrite Htl, map_app, list_sum_app. cbn. unfold tokenCount. lia.
Qed.

Lemma chunksLoop_inv all rest pre st :
  all = pre ++ rest ->
  indexInv all pre st ->
  indexInv all all (chunksLoop rest (length pre) st).
Proof.
  revert pre st. induction rest as [|c rest IH]; intros pre st Hall Hinv.
  - rewrite app_nil_r in Hall. by subst.
  - cbn [chunksLoop].
    replace (S (length pre)) with (length (pre ++ [c]))
      by (rewrite length_app; cbn; lia).
    apply IH; [by rewrite <- app_assoc|].
    by eapply chunkStep_inv.
Qed.

(** The index that [buildIndex] returns holds the counts that the
    specification names. *)
Lemma buildIndex_spec chunks :
  let idx := buildIndex chunks in
  N idx = length chunks
  /\ avgdl idx = meanTokenCount chunks
  /\ (forall t, getOr0 (df idx) t = docFreq chunks t)
  /\ (forall i c t, chunks !! i = Some c ->
        getOr0 (tf idx !!! i) t = freq t c)
  /\ (forall i c, chunks !! i = Some c ->
        docLengths idx !!! i = tokenCount c).
Proof.
  pose proof (chunksLoop_inv chunks chunks []
                (mkIndexState (map (fun _ => ∅) chunks) ∅ [] 0) eq_refl)
    as (Hlen & Hseen & _ & Hdf & Hdl & Htl).
  { unfold indexInv. cbn. split; [by rewrite length_map|].
    split; [intros j c Hj; by rewrite lookup_nil in Hj|].
    split.
    { intros j Hj. rewrite list_lookup_fmap.
      destruct (chunks !! j) eqn:E; [done|].
      apply lookup_ge_None in E. lia. }
    split; [intros t; apply getOr0_empty|done]. }
  cbn [length] in *. cbn zeta. unfold buildIndex.
  cbn [N avgdl df tf docLengths].
  split; [done|]. split; [unfold meanTokenCount; by rewrite Htl|].
  split; [done|]. split.
  - intros i c t Hi. destruct (Hseen i c Hi) as (m & Hm & Hc).
    by rewrite (list_lookup_total_correct _ _ _ Hm).
  - intros i c Hi. rewrite Hdl.
    apply list_lookup_total_correct. by rewrite list_lookup_fmap, Hi.
Qed.

(** ** Scores against the sum of the specification *)

Lemma freq_docFreq chunks c t :
  c ∈ chunks -> (0 < freq t c)%nat -> (0 < docFreq chunks t)%nat.
Proof.
  intros Hc Hf. unfold docFreq.
  assert (c ∈ List.filter (fun c => (0 <? freq t c)%nat) chunks) as Hin.
  { apply list_elem_of_In, filter_In. split; [by apply list_elem_of_In|].
    by apply Nat.ltb_lt. }
  destruct (List.filter _ chunks); [by apply elem_of_nil in Hin|cbn; lia].
Qed.

Lemma docFreq_le chunks t : (docFreq chunks t <= length chunks)%nat.
Proof. unfold docFreq. apply filter_length_le. Qed.

Section Scoring.
Variables (chunks : list Chunk) (i : nat) (c : Chunk).
Hypothesis (Hi : chunks !! i = Some c).

Lemma termStep_spec score matched term :
  termStep (buildIndex chunks) i (score, matched) term
  = if (docFreq chunks term =? 0)%nat then (score, matched)
    else ((score + contribution chunks c term)%R,
          if (0 <? freq term c)%nat then matched ++ [term] else matched).
Proof.
  destruct (buildIndex_spec chunks) as (HN & Havg & Hdf & Htf & Hdl).
  unfold termStep. rewrite Hdf, (Htf i c term Hi), (Hdl i c Hi), HN, Havg.
  done.
Qed.

Lemma termStep_fold terms score matched :
  fold_left (termStep (buildIndex chunks) i) terms (score, matched)
  = ((score
      + sumR (map (contribution chunks c)
                (List.filter (fun t => (0 <? docFreq chunks t)%nat) terms)))%R,
     matched ++ List.filter (fun t => (0 <? freq t c)%nat) terms).
Proof.
  revert score matched.
  induction terms as [|t terms IH]; intros score matched.
  - cbn. by rewrite Rplus_0_r, app_nil_r.
  - cbn [fold_left]. rewrite termStep_spec.
    cbn [List.filter].
    destruct (Nat.eqb_spec (docFreq chunks t) 0) as [Hz|Hnz];
      destruct (Nat.ltb_spec 0 (docFreq chunks t)) as [Hd|Hd]; try lia;
      destruct (Nat.ltb_spec 0 (freq t c)) as [Hf|Hf]; rewrite IH.
    + apply (freq_docFreq chunks) in Hf;
        [lia|by eapply list_elem_of_lookup_2].
    + done.
    + cbn [map sumR fold_right]. f_equal; [unfold sumR; ring|].
      by rewrite <- app_assoc.
    + cbn [map sumR fold_right]. f_equal. unfold sumR. ring.
Qed.

Lemma scoreChunk_spec query :
  scoreChunk (buildIndex chunks) (distinct ∅ (tokenize query)) i c
  = spread c (specScore chunks query c) (specMatches query c).
Proof.
  unfold scoreChunk. rewrite termStep_fold.
  unfold specScore, specMatches. f_equal. apply Rplus_0_l.
Qed.

End Scoring.

Lemma scored_spec chunks query :
  scored chunks query
  = map (fun c => spread c (specScore chunks query c) (specMatches query c))
      chunks.
Proof.
  unfold scored. apply list_eq. intros i.
  rewrite list_lookup_imap, list_lookup_fmap.
  destruct (chunks !! i) as [c|] eqn:Hi; [|done]. cbn.
  by rewrite (scoreChunk_spec chunks i c Hi).
Qed.

(** ** Signs of the scores *)

Open Scope R_scope.

Lemma idfOf_pos n d : (d <= n)%nat -> 0 < idfOf n d.
Proof.
  intros Hd. unfold idfOf. rewrite <- ln_1.
  assert (0 <= INR d) by apply pos_INR.
  assert (INR d <= INR n) by by apply le_INR.
  assert (0 < (INR n - INR d + 0.5) / (INR d + 0.5)).
  { apply Rdiv_lt_0_compat; lra. }
  apply ln_increasing; lra.
Qed.

Lemma tfNormOf_0 dl avg : tfNormOf 0 dl avg = 0.
Proof. unfold tfNormOf. cbn [INR]. unfold Rdiv. ring. Qed.

Lemma tfNormOf_pos termTf dl avg :
  (0 < termTf)%nat -> 0 < avg -> 0 < tfNormOf termTf dl avg.
Proof.
  intros Ht Ha. unfold tfNormOf, k1, b.
  assert (0 < INR termTf) by by apply lt_0_INR.
  assert (0 <= INR dl / avg).
  { apply Rle_mult_inv_pos; [apply pos_INR|done]. }
  apply Rdiv_lt_0_compat; lra.
Qed.

Lemma tfNormOf_nonneg termTf dl avg : 0 < avg -> 0 <= tfNormOf termTf dl avg.
Proof.
  intros Ha. destruct termTf as [|n].
  - rewrite tfNormOf_0. lra.
  - left. apply tfNormOf_pos; [lia|done].
Qed.

(** The JavaScript division [totalLength / N] is by a positive number, and
    its result is positive, whenever some term has a document frequency. *)
Lemma meanTokenCount_pos chunks t :
  (0 < docFreq chunks t)%nat ->
  (0 < length chunks)%nat /\ 0 < meanTokenCount chunks.
Proof.
  intros Hd. unfold docFreq in Hd.
  destruct (List.filter _ chunks) as [|c l] eqn:Hf; [cbn in Hd; lia|].
  assert (In c (List.filter (fun c => (0 <? freq t c)%nat) chunks)) as Hin
    by (rewrite Hf; by left).
  apply filter_In in Hin as [Hin Hfreq]. apply Nat.ltb_lt in Hfreq.
  assert (0 < tokenCount c)%nat as Htc.
  { pose proof (occurrences_le t (tokenize (text c))).
    unfold tokenCount, freq in *. lia. }
  assert (tokenCount c <= list_sum (map tokenCount chunks))%nat as Hsum.
  { clear -Hin. induction chunks as [|d chunks IH]; [done|].
    change (list_sum (map tokenCount (d :: chunks)))
      with (tokenCount d + list_sum (map tokenCount chunks))%nat.
    destruct Hin as [->|Hin]; [lia|]. apply IH in Hin. lia. }
  assert (0 < length chunks)%nat as Hlen.
  { destruct chunks; [done|cbn; lia]. }
  split; [done|]. unfold meanTokenCount.
  apply Rdiv_lt_0_compat; apply lt_0_INR; lia.
Qed.

Lemma sumR_nonneg l : Forall (fun x => 0 <= x) l -> 0 <= sumR l.
Proof.
  induction 1 as [|x l Hx _ IH]; cbn; [lra|]. unfold sumR in IH. lra.
Qed.

Lemma sumR_zero l : Forall (fun x => x = 0) l -> sumR l = 0.
Proof.
  induction 1 as [|x l Hx _ IH]; cbn; [done|]. unfold sumR in IH. lra.
Qed.

Lemma sumR_pos l :
  Forall (fun x => 0 <= x) l -> Exists (fun x => 0 < x) l -> 0 < sumR l.
Proof.
  intros Hall Hex. induction Hall as [|x l Hx Hl IH]; [by inversion Hex|].
  cbn. pose proof (sumR_nonneg l Hl) as Hs. unfold sumR in *.
  inversion Hex; subst; [lra|]. specialize (IH ltac:(done)). lra.
Qed.

Lemma specScore_nonneg chunks query c : 0 <= specScore chunks query c.
Proof.
  unfold specScore. apply sumR_nonneg, Forall_forall. intros x Hx.
  apply list_elem_of_fmap in Hx as [t [-> Ht]]. unfold contribution.
  apply list_elem_of_In, filter_In in Ht as [_ Hd]. apply Nat.ltb_lt in Hd.
  apply Rmult_le_pos.
  - left. apply idfOf_pos, docFreq_le.
  - apply tfNormOf_nonneg. by apply (meanTokenCount_pos chunks t).
Qed.

(** The score is positive exactly when a query term occurs in the chunk. *)
Lemma specScore_pos_iff chunks query c :
  c ∈ chunks ->
  0 < specScore chunks query c <-> specMatches query c ≠ [].
Proof.
  intros Hc. unfold specScore, specMatches. split.
  - intros Hpos Hnil.
    rewrite sumR_zero in Hpos; [lra|].
    apply Forall_forall. intros x Hx.
    apply list_elem_of_fmap in Hx as [t [-> Ht]]. unfold contribution.
    apply list_elem_of_In, filter_In in Ht as [Ht _].
    assert (freq t c = 0%nat) as ->.
    { destruct (Nat.ltb_spec 0 (freq t c)) as [Hf|Hf]; [|lia].
      assert (In t (List.filter (fun t => (0 <? freq t c)%nat)
                      (distinct ∅ (tokenize query)))) as Hin.
      { apply filter_In. split; [done|by apply Nat.ltb_lt]. }
      by rewrite Hnil in Hin. }
    rewrite tfNormOf_0. ring.
  - intros Hne.
    destruct (List.filter (fun t => (0 <? freq t c)%nat) _) as [|t l] eqn:Hf;
      [done|].
    assert (In t (List.filter (fun t => (0 <? freq t c)%nat)
                    (distinct ∅ (tokenize query)))) as Hin
      by (rewrite Hf; by left).
    apply filter_In in Hin as [Hin Hfreq]. apply Nat.ltb_lt in Hfreq.
    pose proof (freq_docFreq chunks c t Hc Hfreq) as Hdf.
    apply sumR_pos.
    + apply Forall_forall. intros x Hx.
      apply list_elem_of_fmap in Hx as [u [-> Hu]]. unfold contribution.
      apply list_elem_of_In, filter_In in Hu as [_ Hd].
      apply Nat.ltb_lt in Hd. apply Rmult_le_pos.
      * left. apply idfOf_pos, docFreq_le.
      * apply tfNormOf_nonneg. by apply (meanTokenCount_pos chunks u).
    + apply Exists_exists. eexists. split.
      * apply list_elem_of_fmap. exists t. split; [done|].
        apply list_elem_of_In, filter_In. split; [done|by apply Nat.ltb_lt].
      * unfold contribution. apply Rmult_lt_0_compat.
        -- apply idfOf_pos, docFreq_le.
        -- apply tfNormOf_pos; [done|].
           by apply (meanTokenCount_pos chunks t).
Qed.

Close Scope R_scope.

(** ** Filter, sort and slice *)

Lemma insertByScore_perm x l : insertByScore x l ≡ₚ x :: l.
Proof.
  induction l as [|y l IH]; cbn; [done|].
  destruct (Rlt_dec _ _); [|done]. rewrite IH. apply Permutation_swap.
Qed.

Lemma sortByScore_perm l : sortByScore l ≡ₚ l.
Proof.
  induction l as [|x l IH]; cbn; [done|].
  by rewrite insertByScore_perm, IH.
Qed.

Lemma insertByScore_sorted x l :
  StronglySorted scoreGe l -> StronglySorted scoreGe (insertByScore x l).
Proof.
  induction 1 as [|y l Hl IH Hy]; cbn; [by repeat constructor|].
  destruct (Rlt_dec (ScoredChunk.score x) (ScoredChunk.score y)) as [Hlt|Hge].
  - constructor; [done|].
    rewrite insertByScore_perm. constructor; [|done].
    unfold scoreGe. lra.
  - constructor; [by constructor|]. constructor.
    + unfold scoreGe. lra.
    + eapply Forall_impl; [exact Hy|]. unfold scoreGe. intros z Hz. lra.
Qed.

Lemma sortByScore_sorted l : StronglySorted scoreGe (sortByScore l).
Proof.
  induction l as [|x l IH]; cbn; [constructor|].
  by apply insertByScore_sorted.
Qed.

(** The sort is stable: the entries of any one score keep their order. *)
Lemma insertByScore_stable s x l :
  List.filter (hasScore s)
    (insertByScore x l)
  = List.filter (hasScore s) (x :: l).
Proof.
  induction l as [|y l IH]; [done|]. cbn [insertByScore].
  destruct (Rlt_dec (ScoredChunk.score x) (ScoredChunk.score y)) as [Hlt|Hge];
    [|done].
  cbn [List.filter] in *. rewrite IH. unfold hasScore.
  destruct (Req_dec_T (ScoredChunk.score x) s) as [Hx|Hx]; [|done].
  destruct (Req_dec_T (ScoredChunk.score y) s); [lra|done].
Qed.

Lemma sortByScore_stable s l :
  List.filter (hasScore s) (sortByScore l)
  = List.filter (hasScore s) l.
Proof.
  induction l as [|x l IH]; [done|].
  unfold sortByScore in *. cbn [fold_right].
  rewrite insertByScore_stable. cbn [List.filter]. by rewrite IH.
Qed.

Lemma StronglySorted_descending l : StronglySorted scoreGe l -> descending l.
Proof.
  induction 1 as [|x l Hl IH Hx]; intros i j a c Hij Hi Hj.
  - by rewrite lookup_nil in Hi.
  - destruct j as [|j]; [lia|]. cbn in Hj.
    destruct i as [|i]; cbn in Hi.
    + injection Hi as <-. rewrite Forall_forall in Hx.
      apply Hx. by eapply list_elem_of_lookup_2.
    + apply (IH i j); [lia|done..].
Qed.

Lemma descending_take n l : descending l -> descending (take n l).
Proof.
  intros Hl i j x y Hij Hi Hj.
  apply lookup_take_Some in Hi as [Hi _].
  apply lookup_take_Some in Hj as [Hj _]. by apply (Hl i j).
Qed.

Lemma filter_sublist {A} (f : A -> bool) l : List.filter f l `sublist_of` l.
Proof.
  induction l as [|x l IH]; cbn; [constructor|].
  destruct (f x); by constructor.
Qed.

Lemma filter_map_agree {A B} (f : B -> bool) (h : A -> bool) (g : A -> B) l :
  (forall x, x ∈ l -> f (g x) = h x) ->
  List.filter f (map g l) = map g (List.filter h l).
Proof.
  induction l as [|x l IH]; intros H; [done|]. cbn [map List.filter].
  rewrite (H x) by left.
  rewrite IH by (intros y Hy; apply H; by right).
  by destruct (h x).
Qed.

Lemma isPositive_true c : isPositive c = true <-> (0 < ScoredChunk.score c)%R.
Proof. unfold isPositive. by destruct (Rlt_dec _ _). Qed.

(** The entries that pass the filter are those of the chunks in which a
    query term occurs. *)
Lemma positive_scored chunks query :
  List.filter isPositive (scored chunks query)
  = map (specScored chunks query) (List.filter (hasMatch query) chunks).
Proof.
  rewrite scored_spec. fold (specScored chunks query).
  assert (forall c, c ∈ chunks ->
            isPositive (specScored chunks query c) = hasMatch query c) as H.
  { intros c Hc. unfold hasMatch.
    pose proof (specScore_pos_iff chunks query c Hc) as Hiff.
    destruct (isPositive _) eqn:Hp.
    - apply isPositive_true in Hp. apply Hiff in Hp.
      by destruct (specMatches query c).
    - destruct (specMatches query c) eqn:Hm; [done|].
      assert (isPositive (specScored chunks query c) = true) as Hp'.
      { by apply isPositive_true, Hiff. }
      congruence. }
  by apply filter_map_agree.
Qed.

Lemma slice_0_take {A} (l : list A) k :
  slice l 0 k = take (Z.to_nat (relIndex (len l) k)) l.
Proof.
  unfold slice. pose proof (len_nonneg l).
  replace (relIndex (len l) 0) with 0 by (unfold relIndex; cbn; lia).
  rewrite drop_0. f_equal. lia.
Qed.

(** The search, as the specification words it: the chunks in which a query
    term occurs, with their scores, sorted, and cut at [topK]. *)
Lemma bm25Search_spec chunks query topK :
  bm25Search chunks query topK
  = slice (sortByScore
             (map (specScored chunks query)
                (List.filter (hasMatch query) chunks))) 0 topK.
Proof.
  unfold bm25Search. destruct chunks as [|c l]; [|by rewrite positive_scored].
  cbn. by rewrite slice_0_take, take_nil.
Qed.

Lemma bm25Search_sublist chunks query topK :
  bm25Search chunks query topK
  `sublist_of` sortByScore (List.filter isPositive (scored chunks query)).
Proof.
  unfold bm25Search. destruct chunks as [|c l].
  - apply sublist_nil_l.
  - rewrite slice_0_take. apply sublist_take.
Qed.

Lemma slice_length_only {A B} (l : list A) (l' : list B) a b :
  length l = length l' -> length (slice l a b) = length (slice l' a b).
Proof.
  intros Hl. unfold slice, len.
  rewrite !length_take, !length_drop, Hl. done.
Qed.

Lemma bm25Search_length chunks query topK :
  length (bm25Search chunks query topK)
  = length (slice (List.filter (hasMatch query) chunks) 0 topK).
Proof.
  rewrite bm25Search_spec. apply slice_length_only.
  by rewrite sortByScore_perm, length_map.
Qed.

Lemma toChunk_specScored chunks query c :
  toChunk (specScored chunks query c) = c.
Proof. by destruct c. Qed.

Lemma toChunk_map_specScored chunks query l :
  map toChunk (map (specScored chunks query) l) = l.
Proof.
  induction l as [|c l IH]; [done|]. cbn [map].
  by rewrite toChunk_specScored, IH.
Qed.

Lemma elem_of_distinct seen tokens t :
  t ∈ distinct seen tokens <-> t ∈ tokens /\ t ∉ seen.
Proof.
  revert seen. induction tokens as [|u tokens IH]; intros seen; cbn.
  - split; [by intros ?%elem_of_nil|by intros [?%elem_of_nil _]].
  - destruct (decide (u ∈ seen)) as [Hin|Hnin].
    + rewrite IH, elem_of_cons. split; [intros [? ?]; auto|].
      intros [[->|?] ?]; [done|auto].
    + rewrite !elem_of_cons, IH. split.
      * intros [->|[Ht Hs]]; [auto|]. split; [auto|].
        intros Hs'. apply Hs, elem_of_union. by right.
      * intros [[->|Ht] Hs]; [auto|].
        destruct (decide (t = u)) as [->|Hne]; [auto|]. right.
        split; [done|].
        intros [Hu%elem_of_singleton|Hs']%elem_of_union; done.
Qed.

Lemma elem_of_specMatches query c t :
  t ∈ specMatches query c
  <-> t ∈ tokenize query /\ t ∈ tokenize (text c).
Proof.
  unfold specMatches. rewrite list_elem_of_In, filter_In, <- list_elem_of_In.
  rewrite elem_of_distinct, Nat.ltb_lt. unfold freq.
  rewrite occurrences_pos. split.
  - by intros [[? _] ?].
  - intros [? ?]. split; [|done]. split; [done|apply not_elem_of_empty].
Qed.

(** What is known of every returned entry. *)
Lemma bm25Search_elem chunks query topK r :
  r ∈ bm25Search chunks query topK ->
  exists c, c ∈ chunks /\ hasMatch query c = true
            /\ r = specScored chunks query c.
Proof.
  rewrite bm25Search_spec, slice_0_take. intros Hr.
  apply subseteq_take in Hr.
  rewrite sortByScore_perm in Hr.
  apply list_elem_of_fmap in Hr as [c [-> Hc]].
  apply list_elem_of_In, filter_In in Hc as [Hc Hm].
  exists c. by rewrite list_elem_of_In.
Qed.

(** The entries that a search returns are entries of distinct input
    chunks, each with the fields of its chunk. *)
Lemma bm25Search_fields chunks query topK :
  map toChunk (bm25Search chunks query topK) ⊆+ chunks
  /\ Forall (fun r =>
       exists c,
         c ∈ chunks
         /\ ScoredChunk.id r = id c
         /\ ScoredChunk.text r = text c
         /\ ScoredChunk.docIndex r = docIndex c
         /\ ScoredChunk.docName r = docName c
         /\ ScoredChunk.startChar r = startChar c
         /\ ScoredChunk.score r = specScore chunks query c
         /\ ScoredChunk.termMatches r = specMatches query c)
       (bm25Search chunks query topK).
Proof.
  split.
  - rewrite bm25Search_spec, slice_0_take.
    etrans; [apply fmap_submseteq, sublist_submseteq, sublist_take|].
    rewrite sortByScore_perm, toChunk_map_specScored.
    apply sublist_submseteq, filter_sublist.
  - apply Forall_forall. intros r Hr.
    apply bm25Search_elem in Hr as (c & Hc & _ & ->).
    exists c. by repeat split.
Qed.

(** ** The search on a store *)

Lemma alloc_spec h cell l h' :
  alloc h cell = (l, h') ->
  h !! l = None /\ h' = <[l := cell]> h /\ h ⊆ h' /\ h' !! l = Some cell.
Proof.
  unfold alloc. intros [= <- <-].
  assert (h !! fresh (dom h) = None) as Hnone.
  { apply not_elem_of_dom, is_fresh. }
  split; [done|]. split; [done|]. split.
  - by apply insert_subseteq.
  - apply lookup_insert_eq.
Qed.

Lemma entriesValid_weaken h h' ps :
  h ⊆ h' -> entriesValid h ps -> entriesValid h' ps.
Proof.
  intros Hsub Hv. eapply Forall_impl; [exact Hv|].
  intros p Hp. cbn beta in *. eapply lookup_weaken; [exact Hp|exact Hsub].
Qed.

Lemma allocAll_scored h vals ls h' :
  allocAll h (ScoredCell <$> vals) = (ls, h') ->
  h ⊆ h'
  /\ exists ps, ps.*1 = ls /\ ps.*2 = vals /\ entriesValid h' ps.
Proof.
  revert h ls h'. induction vals as [|v vals IH]; intros h ls h'.
  - cbn. intros [= <- <-]. split; [done|]. exists [].
    split; [done|]. split; [done|]. constructor.
  - cbn [fmap list_fmap allocAll].
    destruct (alloc h (ScoredCell v)) as [l h1] eqn:Ha.
    destruct (allocAll h1 _) as [ls' h2] eqn:Hall.
    intros [= <- <-].
    apply alloc_spec in Ha as (_ & _ & Hsub & Hl).
    apply IH in Hall as (Hsub' & ps & Hfst & Hsnd & Hv).
    split; [by etrans|].
    exists ((l, v) :: ps). cbn. rewrite Hfst, Hsnd.
    split; [done|]. split; [done|].
    constructor; [|done]. cbn. by eapply lookup_weaken.
Qed.

Lemma readEntries_intro h r ps :
  h !! r = Some (ArrayCell (ps.*1)) -> entriesValid h ps ->
  readEntries h r = Some ps.
Proof.
  intros Hr Hv. unfold readEntries, readArray. rewrite Hr. cbn.
  apply mapM_Some_2.
  clear Hr. induction Hv as [|[l c] ps Hp _ IH]; cbn; [constructor|].
  constructor; [|done].
  unfold readScored. cbn in Hp. by rewrite Hp.
Qed.

Lemma readChunks_weaken h h' r chunks :
  h ⊆ h' -> readChunks h r = Some chunks -> readChunks h' r = Some chunks.
Proof.
  intros Hsub. unfold readChunks, readArray, readChunk.
  destruct (h !! r) as [[| |elems]|] eqn:Hr; try done. cbn.
  rewrite (lookup_weaken _ _ _ _ Hr Hsub). cbn.
  intros Hm%mapM_Some_1. apply mapM_Some_2.
  eapply Forall2_impl; [exact Hm|]. cbn. intros l c Hl.
  destruct (h !! l) as [cell|] eqn:E; [|done].
  by rewrite (lookup_weaken _ _ _ _ E Hsub).
Qed.

Lemma insertEntry_perm x l : insertEntry x l ≡ₚ x :: l.
Proof.
  induction l as [|y l IH]; cbn; [done|].
  destruct (Rlt_dec _ _); [|done]. rewrite IH. apply Permutation_swap.
Qed.

Lemma sortEntries_perm l : sortEntries l ≡ₚ l.
Proof.
  induction l as [|x l IH]; cbn; [done|].
  by rewrite insertEntry_perm, IH.
Qed.

Lemma insertEntry_snd x l : (insertEntry x l).*2 = insertByScore (snd x) (l.*2).
Proof.
  induction l as [|y l IH]; [done|].
  rewrite fmap_cons. cbn [insertEntry insertByScore].
  destruct (Rlt_dec _ _); rewrite !fmap_cons; [by rewrite IH|done].
Qed.

Lemma sortEntries_snd l : (sortEntries l).*2 = sortByScore (l.*2).
Proof.
  induction l as [|x l IH]; [done|].
  rewrite fmap_cons. unfold sortEntries, sortByScore in *.
  cbn [fold_right]. by rewrite insertEntry_snd, IH.
Qed.

Lemma filter_entries_snd (ps : list (loc * ScoredChunk.t)) :
  (List.filter (fun p => isPositive (snd p)) ps).*2
  = List.filter isPositive (ps.*2).
Proof.
  induction ps as [|p ps IH]; [done|].
  rewrite fmap_cons. cbn [List.filter].
  destruct (isPositive (snd p)); rewrite ?fmap_cons; by rewrite IH.
Qed.

Lemma slice_fmap {A B} (f : A -> B) (l : list A) a b :
  slice (f <$> l) a b = f <$> slice l a b.
Proof.
  unfold slice, len. by rewrite length_fmap, fmap_take, fmap_drop.
Qed.

Lemma imap_scored {A} (f : nat -> A -> ScoredChunk.t) (l : list A) :
  imap (fun i c => ScoredCell (f i c)) l = ScoredCell <$> imap f l.
Proof.
  apply list_eq. intros i.
  rewrite list_lookup_fmap, !list_lookup_imap. by destruct (l !! i).
Qed.

(** A call on a store in which [chunksRef] is an array of chunks returns
    an array of the entries of [bm25Search]; every cell of the store before
    the call is in the store after it, unchanged. *)
Lemma bm25SearchOn_spec h chunksRef chunks query topK :
  readChunks h chunksRef = Some chunks ->
  exists res h' entries,
    bm25SearchOn h chunksRef query topK = Some (res, h')
    /\ h ⊆ h'
    /\ readEntries h' res = Some entries
    /\ entries.*2 = bm25Search chunks query topK.
Proof.
  intros Hread. unfold bm25SearchOn. rewrite Hread. cbn [mbind option_bind].
  destruct chunks as [|c0 cs].
  { destruct (alloc h (ArrayCell [])) as [res h'] eqn:Ha.
    apply alloc_spec in Ha as (_ & _ & Hsub & Hres).
    exists res, h', []. split; [done|]. split; [done|]. split; [|done].
    apply readEntries_intro; [done|constructor]. }
  set (chunks := c0 :: cs) in *.
  rewrite imap_scored.
  destruct (allocAll h _) as [objs h1] eqn:Hall.
  apply allocAll_scored in Hall as (Hsub1 & ps & Hfst & Hsnd & Hv1).
  destruct (alloc h1 (ArrayCell objs)) as [scoredRef h2] eqn:Ha2.
  apply alloc_spec in Ha2 as (_ & _ & Hsub2 & Hr2).
  rewrite <- Hfst in Hr2.
  rewrite (readEntries_intro h2 scoredRef ps Hr2
             (entriesValid_weaken _ _ _ Hsub2 Hv1)).
  cbn [mbind option_bind].
  set (kept := List.filter (fun p => isPositive (snd p)) ps).
  assert (entriesValid h2 kept) as Hv2.
  { apply Forall_forall. intros p Hp.
    apply list_elem_of_In, filter_In in Hp as [Hp _].
    pose proof (entriesValid_weaken _ _ _ Hsub2 Hv1) as Hv.
    unfold entriesValid in Hv. rewrite Forall_forall in Hv.
    by apply Hv, list_elem_of_In. }
  destruct (alloc h2 (ArrayCell (kept.*1))) as [filteredRef h3] eqn:Ha3.
  apply alloc_spec in Ha3 as (Hnone3 & _ & Hsub3 & Hr3).
  rewrite (readEntries_intro h3 filteredRef kept Hr3
             (entriesValid_weaken _ _ _ Hsub3 Hv2)).
  cbn [mbind option_bind].
  set (sorted := sortEntries kept).
  set (h4 := <[filteredRef := ArrayCell (sorted.*1)]> h3).
  assert (entriesValid h4 sorted) as Hv4.
  { apply Forall_forall. intros p Hp.
    unfold sorted in Hp. rewrite sortEntries_perm in Hp.
    pose proof (entriesValid_weaken _ _ _ Hsub3 Hv2) as Hv.
    unfold entriesValid in Hv. rewrite Forall_forall in Hv.
    specialize (Hv p Hp).
    unfold h4. rewrite lookup_insert_ne; [done|].
    intros E. by rewrite <- E, Hr3 in Hv. }
  assert (readArray h4 filteredRef = Some (sorted.*1)) as ->.
  { unfold readArray, h4. by rewrite lookup_insert_eq. }
  cbn [mbind option_bind].
  destruct (alloc h4 _) as [res h5] eqn:Ha5.
  apply alloc_spec in Ha5 as (_ & _ & Hsub5 & Hr5).
  exists res, h5, (slice sorted 0 topK).
  split; [done|]. split; [|split].
  - etrans; [|exact Hsub5]. unfold h4.
    apply insert_subseteq_r.
    + destruct (h !! filteredRef) as [cell|] eqn:E; [|done].
      assert (h2 !! filteredRef = Some cell) as E2.
      { eapply lookup_weaken; [exact E|]. by etrans. }
      by rewrite Hnone3 in E2.
    + etrans; [exact Hsub1|]. by etrans.
  - apply readEntries_intro.
    + by rewrite <- slice_fmap.
    + eapply entriesValid_weaken; [exact Hsub5|].
      rewrite slice_0_take. by apply Forall_take.
  - rewrite <- slice_fmap. unfold sorted, kept.
    rewrite sortEntries_snd, filter_entries_snd, Hsnd.
    done.
Qed.

(** ** More of the tokenizer *)

Lemma isWordOrSpace_split c :
  isWordOrSpace c = isLowerAlnum c || isWhiteSpace c.
Proof. reflexivity. Qed.

(** Facts about single code units, by going through all of them. *)
Ltac by_cases_on_ascii c :=
  destruct c as [[] [] [] [] [] [] [] []]; vm_compute; try reflexivity;
  try discriminate; try (intros; discriminate); auto.

Lemma toLowerCase_idemp c : toLowerCase (toLowerCase c) = toLowerCase c.
Proof. by_cases_on_ascii c. Qed.

Lemma toLowerCase_lowerAlnum c :
  isLowerAlnum c = true -> toLowerCase c = c.
Proof. by_cases_on_ascii c. Qed.

Lemma lowerAlnum_not_space c :
  isLowerAlnum c = true -> isWhiteSpace c = false.
Proof. by_cases_on_ascii c. Qed.

Lemma isWhiteSpace_SP : isWhiteSpace SP = true.
Proof. reflexivity. Qed.

Lemma tokenize_normalize s :
  tokenize s
  = List.filter (fun t => (2 <? length t)%nat)
      (splitWhiteSpace false (map normalizeChar s)).
Proof. unfold tokenize. by rewrite map_map. Qed.

Lemma normalizeChar_cases c :
  isWhiteSpace (normalizeChar c) = true
  \/ isLowerAlnum (normalizeChar c) = true.
Proof.
  unfold normalizeChar. rewrite isWordOrSpace_split.
  destruct (isLowerAlnum (toLowerCase c)) eqn:Ha; cbn; [by right|].
  destruct (isWhiteSpace (toLowerCase c)) eqn:Hw; [by left|].
  left. apply isWhiteSpace_SP.
Qed.

Lemma normalizeChar_separator c :
  isSeparator c = true -> isWhiteSpace (normalizeChar c) = true.
Proof.
  unfold isSeparator, normalizeChar. rewrite isWordOrSpace_split.
  intros Hs%negb_true_iff. rewrite Hs. cbn.
  by destruct (isWhiteSpace (toLowerCase c)) eqn:Hw.
Qed.

Lemma normalizeChar_lowerAlnum c :
  isLowerAlnum c = true -> normalizeChar c = c.
Proof.
  intros Hc. unfold normalizeChar. rewrite (toLowerCase_lowerAlnum c Hc).
  by rewrite isWordOrSpace_split, Hc.
Qed.

Lemma normalizeChar_toLowerCase c :
  normalizeChar (toLowerCase c) = normalizeChar c.
Proof. unfold normalizeChar. by rewrite toLowerCase_idemp. Qed.

(** The fields of a split hold code units of the string that are not white
    space. *)
Lemma splitWhiteSpace_fields inSep s :
  Forall (Forall (fun c => c ∈ s /\ isWhiteSpace c = false))
    (splitWhiteSpace inSep s).
Proof.
  revert inSep. induction s as [|c s IH]; intros inSep.
  - cbn. by repeat constructor.
  - assert (forall b, Forall (Forall (fun d => d ∈ c :: s
                                               /\ isWhiteSpace d = false))
                        (splitWhiteSpace b s)) as IH'.
    { intros b. eapply Forall_impl; [apply IH|]. intros f Hf.
      eapply Forall_impl; [exact Hf|]. intros d [Hd Hw].
      split; [by right|done]. }
    cbn [splitWhiteSpace]. destruct (isWhiteSpace c) eqn:Hc.
    + destruct inSep; [apply IH'|]. constructor; [constructor|apply IH'].
    + specialize (IH' false).
      destruct (splitWhiteSpace false s) as [|f fs]; cbn.
      * repeat constructor. done.
      * apply Forall_cons in IH' as [Hf Hfs].
        constructor; [|done]. constructor; [|done]. split; [by left|done].
Qed.

Lemma splitWhiteSpace_no_space inSep s :
  Forall (fun c => isWhiteSpace c = false) s ->
  splitWhiteSpace inSep s = if inSep then (if s is [] then [[]] else [s])
                            else [s].
Proof.
  intros Hs. revert inSep. induction Hs as [|c s Hc Hs IH]; intros inSep.
  - by destruct inSep.
  - cbn [splitWhiteSpace]. rewrite Hc, (IH false). cbn. by destruct inSep.
Qed.

(** Splitting at a white space code unit, up to the empty fields. *)
Lemma filter_split_true (P : str -> bool) s :
  P [] = false ->
  List.filter P (splitWhiteSpace true s)
  = List.filter P (splitWhiteSpace false s).
Proof.
  intros HP. destruct s as [|c s]; [done|]. cbn [splitWhiteSpace].
  destruct (isWhiteSpace c); [|done]. cbn. by rewrite HP.
Qed.

Lemma prepend_consHead pre c fields :
  prepend pre (consHead c fields) = prepend (pre ++ [c]) fields.
Proof. destruct fields; cbn; [done|]. by rewrite <- app_assoc. Qed.

Lemma consHead_prepend c fields : consHead c fields = prepend [c] fields.
Proof. by destruct fields. Qed.

Lemma filter_split_app (P : str -> bool) w t s :
  P [] = false -> isWhiteSpace w = true ->
  (forall pre,
     List.filter P (prepend pre (splitWhiteSpace false (s ++ w :: t)))
     = List.filter P (prepend pre (splitWhiteSpace false s))
       ++ List.filter P (splitWhiteSpace false t))
  /\ List.filter P (splitWhiteSpace true (s ++ w :: t))
     = List.filter P (splitWhiteSpace true s)
       ++ List.filter P (splitWhiteSpace false t).
Proof.
  intros HP Hw. induction s as [|c s [IHf IHt]].
  - cbn [app splitWhiteSpace]. rewrite Hw. split.
    + intros pre. cbn [prepend List.filter]. rewrite app_nil_r.
      rewrite (filter_split_true P t HP).
      by destruct (P pre).
    + cbn. rewrite HP. cbn. by apply filter_split_true.
  - cbn [app splitWhiteSpace]. destruct (isWhiteSpace c) eqn:Hc.
    + split; [|done]. intros pre. cbn [prepend List.filter].
      rewrite app_nil_r, IHt. by destruct (P pre).
    + split.
      * intros pre. by rewrite !prepend_consHead.
      * by rewrite !consHead_prepend.
Qed.

Lemma tokenize_app_separator s c t :
  isSeparator c = true -> tokenize (s ++ c :: t) = tokenize s ++ tokenize t.
Proof.
  intros Hc. rewrite !tokenize_normalize, map_app. cbn [map].
  destruct (filter_split_app (fun t => (2 <? length t)%nat)
              (normalizeChar c) (map normalizeChar t) (map normalizeChar s)
              eq_refl (normalizeChar_separator c Hc)) as [Hf _].
  specialize (Hf []).
  assert (forall X, prepend [] (splitWhiteSpace false X)
                    = splitWhiteSpace false X) as E.
  { intros X. destruct X as [|x X]; [done|]. cbn [splitWhiteSpace].
    destruct (isWhiteSpace x); [done|].
    by destruct (splitWhiteSpace false X). }
  by rewrite !E in Hf.
Qed.

Lemma tokenize_word t :
  (2 < length t)%nat -> Forall (fun c => isLowerAlnum c = true) t ->
  tokenize t = [t].
Proof.
  intros Hlen Hall. rewrite tokenize_normalize.
  assert (map normalizeChar t = t) as ->.
  { clear Hlen. induction Hall as [|c t Hc _ IH]; [done|]. cbn.
    by rewrite (normalizeChar_lowerAlnum c Hc), IH. }
  rewrite (splitWhiteSpace_no_space false).
  - cbn [List.filter]. destruct (Nat.ltb_spec 2 (length t)); [done|lia].
  - eapply Forall_impl; [exact Hall|]. apply lowerAlnum_not_space.
Qed.

Lemma tokenize_words s :
  Forall (fun t => (2 < length t)%nat
                   /\ Forall (fun c => isLowerAlnum c = true) t)
    (tokenize s).
Proof.
  rewrite tokenize_normalize. apply Forall_forall. intros t Ht.
  apply list_elem_of_In, filter_In in Ht as [Ht Hlen].
  split; [by apply Nat.ltb_lt|].
  pose proof (splitWhiteSpace_fields false (map normalizeChar s)) as Hf.
  rewrite Forall_forall in Hf. apply list_elem_of_In, Hf in Ht.
  eapply Forall_impl; [exact Ht|]. intros c [Hc Hw]. cbn beta in *.
  apply list_elem_of_fmap in Hc as [x [-> _]].
  destruct (normalizeChar_cases x) as [H|H]; [congruence|done].
Qed.

Lemma tokenize_nil : tokenize [] = [].
Proof. reflexivity. Qed.

Lemma tokenize_separators s :
  Forall (fun c => isSeparator c = true) s -> tokenize s = [].
Proof.
  induction 1 as [|c s Hc _ IH]; [done|].
  change (c :: s) with ([] ++ c :: s).
  by rewrite (tokenize_app_separator [] c s Hc), IH.
Qed.

(** ** More of the index *)

Lemma positiveCounts_empty : positiveCounts ∅.
Proof. intros k n Hk. by rewrite lookup_empty in Hk. Qed.

Lemma positiveCounts_increment k m :
  positiveCounts m -> positiveCounts (increment k m).
Proof.
  intros Hm j n. unfold increment. destruct (decide (k = j)) as [->|Hne].
  - rewrite lookup_insert_eq. intros [= <-]. lia.
  - rewrite lookup_insert_ne by done. apply Hm.
Qed.

Lemma positiveCounts_getOr0 m t :
  positiveCounts m -> m !! t = None <-> getOr0 m t = 0%nat.
Proof.
  intros Hm. unfold getOr0. destruct (m !! t) as [n|] eqn:E; cbn.
  - split; [done|]. intros ->. apply Hm in E. lia.
  - done.
Qed.

Lemma tokenStep_fold_positive i tokens tf df seen tf' df' seen' :
  fold_left (tokenStep i) tokens (tf, df, seen) = (tf', df', seen') ->
  Forall positiveCounts tf -> positiveCounts df ->
  Forall positiveCounts tf' /\ positiveCounts df'.
Proof.
  revert tf df seen. induction tokens as [|u tokens IH]; intros tf df seen.
  - cbn. by intros [= <- <- <-].
  - cbn [fold_left]. unfold tokenStep at 2.
    assert (Forall positiveCounts tf ->
            Forall positiveCounts (alter (increment u) i tf)) as Halter.
    { intros Htf. apply Forall_alter; [done|].
      intros m _ Hm. by apply positiveCounts_increment. }
    destruct (decide (u ∈ seen)); intros Hf Htf Hdf;
      apply IH in Hf; auto using positiveCounts_increment.
Qed.

Lemma chunksLoop_positive chunks i st :
  Forall positiveCounts (st_tf st) -> positiveCounts (st_df st) ->
  Forall positiveCounts (st_tf (chunksLoop chunks i st))
  /\ positiveCounts (st_df (chunksLoop chunks i st)).
Proof.
  revert i st. induction chunks as [|c chunks IH]; intros i st Htf Hdf;
    [done|].
  cbn [chunksLoop]. apply IH; unfold chunkStep;
    destruct (fold_left _ _ _) as [[tf' df'] seen'] eqn:Hf;
    apply tokenStep_fold_positive in Hf as [? ?]; done.
Qed.

(** All that [buildIndex] returns, in the counts of the chunk list. *)
Lemma buildIndex_full chunks :
  let idx := buildIndex chunks in
  N idx = length chunks
  /\ length (tf idx) = length chunks
  /\ docLengths idx = map tokenCount chunks
  /\ avgdl idx = meanTokenCount chunks
  /\ (forall t, getOr0 (df idx) t = docFreq chunks t)
  /\ (forall i c, chunks !! i = Some c ->
        exists m, tf idx !! i = Some m
                  /\ forall t, getOr0 m t = freq t c)
  /\ Forall positiveCounts (tf idx)
  /\ positiveCounts (df idx).
Proof.
  pose proof (chunksLoop_inv chunks chunks []
                (mkIndexState (map (fun _ => ∅) chunks) ∅ [] 0) eq_refl)
    as (Hlen & Hseen & _ & Hdf & Hdl & Htl).
  { unfold indexInv. cbn. split; [by rewrite length_map|].
    split; [intros j c Hj; by rewrite lookup_nil in Hj|].
    split.
    { intros j Hj. rewrite list_lookup_fmap.
      destruct (chunks !! j) eqn:E; [done|].
      apply lookup_ge_None in E. lia. }
    split; [intros t; apply getOr0_empty|done]. }
  destruct (chunksLoop_positive chunks 0
              (mkIndexState (map (fun _ => ∅) chunks) ∅ [] 0)) as [Hp1 Hp2].
  { cbn. apply Forall_forall. intros m Hm.
    apply list_elem_of_fmap in Hm as [c [-> _]]. apply positiveCounts_empty. }
  { apply positiveCounts_empty. }
  cbn [length] in *. cbn zeta. unfold buildIndex.
  cbn [N avgdl df tf docLengths].
  split; [done|]. split; [done|]. split; [done|].
  split; [unfold meanTokenCount; by rewrite Htl|].
  split; [done|]. split; [done|]. by split.
Qed.

(** ** The shape of the BM25 terms *)

Open Scope R_scope.

Lemma Rdiv_le_cross a b c d :
  0 < b -> 0 < d -> a * d <= c * b -> a / b <= c / d.
Proof.
  intros Hb Hd H.
  replace (a / b) with (a * d * / (b * d)) by (field; lra).
  replace (c / d) with (c * b * / (b * d)) by (field; lra).
  apply Rmult_le_compat_r; [|done].
  left. apply Rinv_0_lt_compat. by apply Rmult_lt_0_compat.
Qed.

Lemma ln_monotone x y : 0 < x -> x <= y -> ln x <= ln y.
Proof.
  intros Hx [Hlt| ->]; [|lra]. left. by apply ln_increasing.
Qed.

(** The length normalisation [k1 * (1 - b + b * (docLength / avgdl))]. *)
Lemma lengthNorm_pos dl avg :
  0 < avg -> 0 < k1 * (1 - b + b * (INR dl / avg)).
Proof.
  intros Ha. unfold k1, b.
  assert (0 <= INR dl / avg) by (apply Rle_mult_inv_pos; [apply pos_INR|done]).
  lra.
Qed.

Lemma lengthNorm_le dl dl' avg :
  0 < avg -> (dl <= dl')%nat ->
  k1 * (1 - b + b * (INR dl / avg)) <= k1 * (1 - b + b * (INR dl' / avg)).
Proof.
  intros Ha Hd. unfold k1, b.
  assert (INR dl / avg <= INR dl' / avg).
  { apply Rmult_le_compat_r; [left; by apply Rinv_0_lt_compat|by apply le_INR]. }
  lra.
Qed.

Lemma tfNormOf_bound termTf dl avg : 0 < avg -> tfNormOf termTf dl avg < k1 + 1.
Proof.
  intros Ha. unfold tfNormOf.
  pose proof (lengthNorm_pos dl avg Ha) as HK.
  pose proof (pos_INR termTf) as Hx.
  set (K := k1 * (1 - b + b * (INR dl / avg))) in *.
  unfold Rdiv. apply Rmult_lt_reg_r with (INR termTf + K); [lra|].
  rewrite Rmult_assoc, Rinv_l by lra. unfold k1 in *. lra.
Qed.

Lemma tfNormOf_mono_tf termTf termTf' dl avg :
  0 < avg -> (termTf <= termTf')%nat ->
  tfNormOf termTf dl avg <= tfNormOf termTf' dl avg.
Proof.
  intros Ha Ht. unfold tfNormOf.
  pose proof (lengthNorm_pos dl avg Ha) as HK.
  pose proof (pos_INR termTf) as Hx. pose proof (pos_INR termTf') as Hy.
  assert (INR termTf <= INR termTf') as Hxy by by apply le_INR.
  set (K := k1 * (1 - b + b * (INR dl / avg))) in *.
  apply Rdiv_le_cross; [lra|lra|]. unfold k1 in *. nra.
Qed.

Lemma tfNormOf_anti_length termTf dl dl' avg :
  0 < avg -> (dl <= dl')%nat ->
  tfNormOf termTf dl' avg <= tfNormOf termTf dl avg.
Proof.
  intros Ha Hd. unfold tfNormOf.
  pose proof (lengthNorm_pos dl avg Ha) as HK.
  pose proof (lengthNorm_pos dl' avg Ha) as HK'.
  pose proof (lengthNorm_le dl dl' avg Ha Hd) as Hle.
  pose proof (pos_INR termTf) as Hx.
  set (K := k1 * (1 - b + b * (INR dl / avg))) in *.
  set (K' := k1 * (1 - b + b * (INR dl' / avg))) in *.
  apply Rdiv_le_cross; [lra|lra|]. unfold k1 in *. nra.
Qed.

Lemma idfOf_anti n d d' : (d <= d')%nat -> idfOf n d' <= idfOf n d.
Proof.
  intros Hd. unfold idfOf.
  pose proof (pos_INR n) as Hn. pose proof (pos_INR d) as H0.
  assert (INR d <= INR d') as Hdd by by apply le_INR.
  assert (forall x, 0 <= x ->
            (INR n - x + 0.5) / (x + 0.5) + 1 = (INR n + 1) / (x + 0.5)) as E.
  { intros x Hx. replace 0.5 with (/ 2) by lra. field. lra. }
  rewrite !E by lra. apply ln_monotone.
  - apply Rdiv_lt_0_compat; lra.
  - apply Rdiv_le_cross; [lra|lra|]. nra.
Qed.

Close Scope R_scope.

(** ** More of the search *)

Lemma distinct_covered seen tokens :
  (forall t, t ∈ tokens -> t ∈ seen) -> distinct seen tokens = [].
Proof.
  revert seen. induction tokens as [|u tokens IH]; intros seen H; [done|].
  cbn. rewrite decide_True by (apply H; by left).
  apply IH. intros t Ht. apply H. by right.
Qed.

Lemma distinct_app seen l l' :
  distinct seen (l ++ l') = distinct seen l ++ distinct (list_to_set l ∪ seen) l'.
Proof.
  revert seen. induction l as [|u l IH]; intros seen.
  - cbn. f_equal. by rewrite (left_id_L ∅ (∪)).
  - cbn [app distinct list_to_set]. destruct (decide (u ∈ seen)) as [Hin|Hnin].
    + rewrite IH.
      replace (list_to_set l ∪ seen)
        with ({[u]} ∪ list_to_set l ∪ seen :> gset str); [done|].
      apply set_eq. intros t. rewrite !elem_of_union, elem_of_singleton.
      split; [|tauto]. intros [[->|?]|?]; tauto.
    + rewrite IH. cbn.
      replace (list_to_set l ∪ ({[u]} ∪ seen))
        with ({[u]} ∪ list_to_set l ∪ seen :> gset str); [done|].
      apply set_eq. intros t. rewrite !elem_of_union. tauto.
Qed.

Lemma distinct_twice l : distinct ∅ (l ++ l) = distinct ∅ l.
Proof.
  rewrite distinct_app, (distinct_covered (list_to_set l ∪ ∅) l);
    [apply app_nil_r|].
  intros t Ht. apply elem_of_union. left. by apply elem_of_list_to_set.
Qed.

Lemma distinct_NoDup seen tokens : NoDup (distinct seen tokens).
Proof.
  revert seen. induction tokens as [|u tokens IH]; intros seen; cbn.
  - constructor.
  - destruct (decide (u ∈ seen)); [apply IH|].
    constructor; [|apply IH].
    rewrite elem_of_distinct. intros [_ Hn]. apply Hn, elem_of_union. left.
    by apply elem_of_singleton.
Qed.

Lemma distinct_sublist seen tokens : distinct seen tokens `sublist_of` tokens.
Proof.
  revert seen. induction tokens as [|u tokens IH]; intros seen; cbn.
  - constructor.
  - destruct (decide (u ∈ seen)); [apply sublist_cons|apply sublist_skip];
      apply IH.
Qed.

Lemma filter_NoDup {A} (f : A -> bool) l : NoDup l -> NoDup (List.filter f l).
Proof.
  intros H. eapply sublist_NoDup; [done|]. apply filter_sublist.
Qed.

Lemma filter_take_prefix {A} (f : A -> bool) n l :
  List.filter f (take n l) `prefix_of` List.filter f l.
Proof.
  exists (List.filter f (drop n l)).
  by rewrite <- List.filter_app, take_drop.
Qed.

(** The result of a search depends on the query through its distinct
    tokens only. *)
Lemma bm25Search_query chunks query query' topK :
  distinct ∅ (tokenize query) = distinct ∅ (tokenize query') ->
  bm25Search chunks query topK = bm25Search chunks query' topK.
Proof.
  intros E. unfold bm25Search, scored. by rewrite E.
Qed.

Lemma specMatches_nil query c : tokenize query = [] -> specMatches query c = [].
Proof. intros E. unfold specMatches. by rewrite E. Qed.

Lemma bm25Search_take chunks query topK :
  bm25Search chunks query topK
  = take (Z.to_nat (relIndex
                      (len (sortByScore
                              (List.filter isPositive (scored chunks query))))
                      topK))
      (sortByScore (List.filter isPositive (scored chunks query))).
Proof.
  unfold bm25Search. destruct chunks; [|apply slice_0_take].
  cbn. by rewrite take_nil.
Qed.

(** ** More of the chunker *)

Section ChunkerMore.
Variables (chunkSize overlap : Z).

(** *** Document lists *)

Lemma number_renumber di dn start ps n m :
  number (n + di) dn (m + start) ps = map (renumber n m) (number di dn start ps).
Proof.
  unfold number. apply list_eq. intros k.
  rewrite list_lookup_fmap, !list_lookup_imap.
  destruct (ps !! k) as [p|]; [|done]. cbn. unfold renumber. cbn.
  do 2 f_equal. lia.
Qed.

Lemma docsChunks_renumber docs di start n m :
  docsChunks chunkSize overlap docs (n + di) (m + start)
  = map (renumber n m) (docsChunks chunkSize overlap docs di start).
Proof.
  revert di start. induction docs as [|d docs IH]; intros di start; [done|].
  cbn [docsChunks]. rewrite map_app, <- number_renumber. f_equal.
  rewrite <- IH. f_equal; lia.
Qed.

Lemma docsChunks_app docs1 docs2 di start :
  docsChunks chunkSize overlap (docs1 ++ docs2) di start
  = docsChunks chunkSize overlap docs1 di start
    ++ docsChunks chunkSize overlap docs2 (length docs1 + di)
         (length (docsChunks chunkSize overlap docs1 di start) + start).
Proof.
  revert di start. induction docs1 as [|d docs1 IH]; intros di start; [done|].
  cbn [docsChunks app]. rewrite IH, <- app_assoc. do 2 f_equal.
  rewrite length_app, number_length. cbn [length]. f_equal; lia.
Qed.

(** *** Paragraphs that fit *)

Lemma paraStep_short fuel fuel' overlap' di dn st para :
  len para <= chunkSize ->
  paraStep chunkSize overlap fuel di dn st para
  = paraStep chunkSize overlap' fuel' di dn st para.
Proof.
  intros Hs. unfold paraStep. destruct st as [o a].
  destruct (chunkSize <? len para) eqn:E; [apply Z.ltb_lt in E; lia|done].
Qed.

Lemma paraLoop_short fuel fuel' overlap' di dn paras st :
  Forall (fun p => len p <= chunkSize) paras ->
  paraLoop chunkSize overlap fuel di dn paras st
  = paraLoop chunkSize overlap' fuel' di dn paras st.
Proof.
  intros H. revert st. induction H as [|p paras Hp _ IH]; intros st; [done|].
  cbn [paraLoop]. rewrite (paraStep_short fuel fuel' overlap') by done.
  destruct (paraStep _ _ _ _ _ _ _); [apply IH|done].
Qed.

Lemma docsLoop_short fuel fuel' overlap' docs di o :
  allShort chunkSize docs ->
  docsLoop chunkSize overlap fuel docs di o
  = docsLoop chunkSize overlap' fuel' docs di o.
Proof.
  intros H. revert di o. induction H as [|d docs Hd _ IH]; intros di o; [done|].
  cbn [docsLoop]. unfold docStep.
  rewrite (paraLoop_short fuel fuel' overlap') by done.
  destruct (truthy _); [|apply IH].
  destruct (paraLoop _ _ _ _ _ _ _) as [[o' a]|]; [apply IH|done].
Qed.

Lemma allShort_advance docs :
  allShort chunkSize docs -> allAdvance chunkSize overlap docs.
Proof.
  unfold allShort, allAdvance. intros H.
  eapply Forall_impl; [exact H|]. intros d Hd.
  eapply Forall_impl; [exact Hd|]. intros p Hp. cbv beta in Hp.
  unfold advances. lia.
Qed.

Lemma chunkDocuments_short fuel docs :
  allShort chunkSize docs ->
  chunkDocuments chunkSize overlap fuel docs
  = Some (docsChunks chunkSize overlap docs 0 0).
Proof.
  intros H. unfold chunkDocuments.
  rewrite (docsLoop_short fuel (fuelFor docs) overlap) by done.
  apply (chunkDocuments_total chunkSize overlap (fuelFor docs) docs).
  - by apply allShort_advance.
  - by apply fuelFor_enough.
Qed.

Lemma parasPieces_fit rest a :
  truthy (currentChunk a) = true ->
  len (currentChunk a ++ flat_map (fun q => [LF; LF] ++ q) rest) <= chunkSize ->
  fst (parasPieces chunkSize overlap rest a) = []
  /\ currentChunk (snd (parasPieces chunkSize overlap rest a))
     = currentChunk a ++ flat_map (fun q => [LF; LF] ++ q) rest
  /\ currentStart (snd (parasPieces chunkSize overlap rest a))
     = currentStart a.
Proof.
  revert a. induction rest as [|q rest IH]; intros a Ht Hlen.
  - cbn. by rewrite app_nil_r.
  - cbn [parasPieces flat_map] in *.
    rewrite !len_app in Hlen.
    pose proof (len_nonneg (flat_map (fun q => [LF; LF] ++ q) rest)) as Hr.
    unfold paraPieces. rewrite Ht.
    change (len [LF; LF]) with 2 in Hlen.
    destruct (Z.leb_spec (len (currentChunk a) + 2 + len q) chunkSize);
      [|lia].
    set (a1 := mkAcc _ _ _).
    destruct (IH a1) as (Hps & Hc & Hs).
    + unfold a1. cbn. by destruct (currentChunk a).
    + unfold a1. cbn [currentChunk]. rewrite !len_app.
      change (len [LF; LF]) with 2. lia.
    + destruct (parasPieces chunkSize overlap rest a1) as [qs a2].
      cbn [fst snd] in *. subst qs. split; [done|]. split; [|done].
      rewrite Hc. unfold a1. cbn [currentChunk].
      by rewrite <- !app_assoc.
Qed.

Lemma pieces_fit content :
  paragraphs (trim content) <> [] ->
  len (joinParagraphs (paragraphs (trim content))) <= chunkSize ->
  pieces chunkSize overlap content
  = [(joinParagraphs (paragraphs (trim content)), 0)].
Proof.
  intros Hne Hlen. unfold pieces.
  pose proof (paragraphs_truthy (trim content)) as Hpos.
  destruct (paragraphs (trim content)) as [|p rest]; [done|].
  apply Forall_cons in Hpos as [Hp _].
  cbn [joinParagraphs] in Hlen. cbn [parasPieces].
  assert (len p <= chunkSize) as Hple.
  { rewrite len_app in Hlen.
    pose proof (len_nonneg (flat_map (fun q => [LF; LF] ++ q) rest)). lia. }
  unfold paraPieces. cbn [currentChunk truthy currentStart charPos].
  destruct (Z.leb_spec (len p) chunkSize); [|lia].
  set (a1 := mkAcc _ _ _).
  destruct (parasPieces_fit rest a1) as (Hps & Hc & Hs).
  - unfold a1. cbn. apply truthy_len. done.
  - done.
  - destruct (parasPieces chunkSize overlap rest a1) as [qs a2].
    cbn [fst snd] in *. subst qs. cbn [app]. unfold flushPieces.
    rewrite Hc, Hs. unfold a1. cbn [currentChunk currentStart joinParagraphs].
    assert (truthy (p ++ flat_map (fun q => [LF; LF] ++ q) rest) = true) as ->.
    { apply truthy_len. rewrite len_app.
      pose proof (len_nonneg (flat_map (fun q => [LF; LF] ++ q) rest)). lia. }
    done.
Qed.

(** *** Blank documents *)

Lemma trimStart_blank s : nonBlank s = [] -> trimStart s = [].
Proof.
  induction s as [|c s IH]; [done|]. cbn.
  destruct (isWhiteSpace c); [apply IH|done].
Qed.

Lemma pieces_blank content :
  nonBlank content = [] -> pieces chunkSize overlap content = [].
Proof.
  intros Hb. unfold pieces, trim, trimEnd.
  by rewrite (trimStart_blank content Hb).
Qed.

Lemma windows_nonempty para cp :
  0 < len para -> 0 < chunkSize - overlap ->
  windows chunkSize overlap para cp <> [].
Proof.
  intros Hp Hs. unfold windows, windowCount.
  destruct (Z.ltb_spec 0 (len para)); [|lia].
  pose proof (ceilDiv_pos (len para - 0) (chunkSize - overlap) Hs ltac:(lia)).
  destruct (Z.to_nat _) eqn:E; [lia|done].
Qed.

Lemma pieces_nonblank content :
  Forall (advances chunkSize overlap) (paragraphs (trim content)) ->
  nonBlank content <> [] -> pieces chunkSize overlap content <> [].
Proof.
  intros Hadv Hnb. unfold pieces.
  pose proof (paragraphs_truthy (trim content)) as Hpos.
  assert (paragraphs (trim content) <> []) as Hne.
  { intros E. apply Hnb.
    by rewrite <- nonBlank_trim, <- nonBlank_paragraphs, E. }
  pose proof (parasPieces_inv chunkSize overlap
                (fun done ps a =>
                   done <> [] -> ps <> [] \/ truthy (currentChunk a) = true)
                (paragraphs (trim content)) (mkAcc [] 0 0)) as Hinv.
  cbv beta in Hinv.
  destruct (parasPieces _ _ _ _) as [ps a]. cbn [fst snd] in Hinv.
  assert (ps <> [] \/ truthy (currentChunk a) = true) as [Hps|Hbuf].
  { apply Hinv; [done| |done].
    intros done ps' a' para Hin _ _.
    rewrite Forall_forall in Hpos, Hadv.
    pose proof (Hpos para Hin) as Hp. pose proof (Hadv para Hin) as Ha.
    unfold paraPieces.
    destruct (_ <=? chunkSize).
    - right. destruct (truthy (currentChunk a')) eqn:Ht; cbn.
      + by destruct (currentChunk a').
      + by apply truthy_len.
    - destruct (Z.ltb_spec chunkSize (len para)).
      + left. cbn [fst]. intros E.
        apply app_eq_nil in E as [_ E]. apply app_eq_nil in E as [_ E].
        revert E. apply windows_nonempty; [done|]. by apply Ha.
      + right. cbn. by apply truthy_len. }
  - intros E. by apply app_eq_nil in E as [-> _].
  - unfold flushPieces. rewrite Hbuf. intros E.
    by apply app_eq_nil in E as [_ E].
Qed.

(** *** Chunk texts *)

Lemma windows_nonempty_texts para cp :
  0 < chunkSize -> 0 < chunkSize - overlap ->
  Forall (fun p => 0 < len (fst p)) (windows chunkSize overlap para cp).
Proof.
  intros Hc Hs. apply Forall_forall. intros p Hp.
  apply list_elem_of_lookup_1 in Hp as [k Hk].
  destruct (windows_lookup _ _ _ _ _ _ Hk Hs) as [-> Hr]. cbn [fst].
  rewrite slice_length by lia. lia.
Qed.

Lemma pieces_nonempty_texts content :
  0 < chunkSize ->
  Forall (advances chunkSize overlap) (paragraphs (trim content)) ->
  Forall (fun p => 0 < len (fst p)) (pieces chunkSize overlap content).
Proof.
  intros Hc Hadv. unfold pieces.
  pose proof (paragraphs_truthy (trim content)) as Hpos.
  pose proof (parasPieces_inv chunkSize overlap
                (fun _ ps _ => Forall (fun p => 0 < len (fst p)) ps)
                (paragraphs (trim content)) (mkAcc [] 0 0)) as Hinv.
  cbv beta in Hinv.
  destruct (parasPieces _ _ _ _) as [ps a]. cbn [fst snd] in Hinv.
  apply Forall_app. split.
  - apply Hinv; [constructor|].
    intros _ ps' a' para Hin Hps'.
    rewrite Forall_forall in Hpos, Hadv.
    pose proof (Hpos para Hin) as Hp. pose proof (Hadv para Hin) as Ha.
    apply Forall_app. split; [done|].
    assert (Forall (fun p : Piece => 0 < len (fst p))
              (if truthy (currentChunk a')
               then [(currentChunk a', currentStart a')] else [])) as Hfl.
    { destruct (truthy (currentChunk a')) eqn:Ht; [|constructor].
      constructor; [|constructor]. by apply truthy_len. }
    unfold paraPieces.
    destruct (_ <=? chunkSize).
    + destruct (truthy (currentChunk a')); constructor.
    + destruct (Z.ltb_spec chunkSize (len para)); cbn [fst]; [|done].
      apply Forall_app. split; [done|].
      apply windows_nonempty_texts; [done|]. by apply Ha.
  - unfold flushPieces. destruct (truthy (currentChunk a)) eqn:Ht;
      [|constructor].
    constructor; [|constructor]. by apply truthy_len.
Qed.

End ChunkerMore.

(** ** The search route *)

Lemma trim_blank s : trim s = [] <-> nonBlank s = [].
Proof.
  split.
  - intros E. by rewrite <- nonBlank_trim, E.
  - intros E. unfold trim, trimEnd. by rewrite (trimStart_blank s E).
Qed.

Lemma truthy_trim s : truthy (trim s) = true <-> nonBlank s <> [].
Proof.
  rewrite <- trim_blank. by destruct (trim s).
Qed.

Lemma consHead_length c fields : (1 <= length (consHead c fields))%nat.
Proof. destruct fields; cbn; lia. Qed.

Lemma splitWhiteSpace_length inSep s :
  (1 <= length (splitWhiteSpace inSep s))%nat.
Proof.
  revert inSep. induction s as [|c s IH]; intros inSep; cbn; [lia|].
  destruct (isWhiteSpace c); [|apply consHead_length].
  destruct inSep; [apply IH|cbn; lia].
Qed.

Lemma countWords_from docs n :
  (n + length docs
   <= fold_left
        (fun acc d =>
           (acc + length (splitWhiteSpace false (DocumentInput.text d)))%nat)
        docs n)%nat.
Proof.
  revert n. induction docs as [|d docs IH]; intros n; cbn [fold_left length];
    [lia|].
  pose proof (splitWhiteSpace_length false (DocumentInput.text d)).
  etransitivity; [|apply IH]. lia.
Qed.

Lemma countWords_ge docs : (length docs <= countWords docs)%nat.
Proof. apply (countWords_from docs 0). Qed.

(** The reply to a request that passes both checks. *)
Lemma POST_success fuel req docs query :
  SearchRequest.docs req = Some docs -> docs <> [] ->
  SearchRequest.query req = Some query -> nonBlank query <> [] ->
  (fuelFor docs <= fuel)%nat ->
  let chunks := docsChunks 400 80 docs 0 0 in
  let scoredChunks :=
    bm25Search chunks query (default 5 (SearchRequest.topK req)) in
  chunkDocuments 400 80 fuel docs = Some chunks
  /\ POST fuel req
     = Some (Success
               (SearchResponse.mk scoredChunks (length chunks)
                  (Stats.mk (length docs) (countWords docs) (length chunks)
                     (length scoredChunks) (distinct ∅ (tokenize query))))).
Proof.
  intros Hd Hne Hq Hnb Hf. cbv zeta.
  assert (chunkDocuments 400 80 fuel docs = Some (docsChunks 400 80 docs 0 0))
    as E.
  { apply chunkDocuments_total;
      [apply allAdvance_valid; lia|by apply fuelFor_enough]. }
  split; [done|]. unfold POST. rewrite Hd, Hq.
  destruct docs as [|d ds]; [done|].
  apply truthy_trim in Hnb. rewrite Hnb, E. done.
Qed.

(** The chunks that the route hands to the search. *)
Lemma route_chunks docs c :
  c ∈ docsChunks 400 80 docs 0 0 ->
  0 < len (text c) <= 400
  /\ exists d, docs !! docIndex c = Some d
               /\ docName c = DocumentInput.name d.
Proof.
  intros Hc.
  apply docsChunks_elem in Hc as (d & _ & Hd & Hn & Hp).
  rewrite Nat.sub_0_r in Hd. split; [|by exists d].
  pose proof (pieces_size 400 80 ltac:(lia) ltac:(lia) (DocumentInput.text d))
    as Hsize.
  assert (Forall (advances 400 80) (paragraphs (trim (DocumentInput.text d))))
    as Hadv.
  { apply Forall_forall. intros p _. unfold advances. lia. }
  pose proof (pieces_nonempty_texts 400 80 (DocumentInput.text d)
                ltac:(lia) Hadv) as Hpos.
  rewrite Forall_forall in Hsize, Hpos.
  specialize (Hsize _ Hp). specialize (Hpos _ Hp). cbn [fst] in *. lia.
Qed.

(** ** The page *)

Lemma Math_round_spec x :
  (IZR (Math_round x) <= x + / 2 < IZR (Math_round x) + 1)%R.
Proof.
  unfold Math_round, Int_part. destruct (archimed (x + / 2)) as [H1 H2].
  rewrite minus_IZR. lra.
Qed.

Lemma Math_round_mono x y : (x <= y)%R -> Math_round x <= Math_round y.
Proof.
  intros Hxy. pose proof (Math_round_spec x). pose proof (Math_round_spec y).
  assert (IZR (Math_round x) < IZR (Math_round y + 1))%R as Hlt
    by (rewrite plus_IZR; lra).
  apply lt_IZR in Hlt. lia.
Qed.

Lemma Math_round_IZR n : Math_round (IZR n) = n.
Proof.
  pose proof (Math_round_spec (IZR n)) as [H1 H2].
  assert (IZR (Math_round (IZR n)) < IZR (n + 1))%R as Ha
    by (rewrite plus_IZR; lra).
  assert (IZR (n - 1) < IZR (Math_round (IZR n)))%R as Hb
    by (rewrite minus_IZR; lra).
  apply lt_IZR in Ha, Hb. lia.
Qed.

Lemma ScoreBar_range score max :
  (0 <= score <= max)%R -> 0 <= ScoreBar score max <= 100.
Proof.
  intros [H0 Hm]. unfold ScoreBar. destruct (Rlt_dec 0 max) as [Hpos|]; [|lia].
  assert (0 <= score / max * 100 <= 100)%R as [Hlo Hhi].
  { assert (0 <= score / max <= 1)%R; [|lra]. split.
    - apply Rle_mult_inv_pos; lra.
    - apply Rmult_le_reg_r with max; [done|].
      unfold Rdiv. rewrite Rmult_assoc, Rinv_l by lra. lra. }
  pose proof (Math_round_mono _ _ Hlo) as Ha.
  pose proof (Math_round_mono _ _ Hhi) as Hb.
  rewrite (Math_round_IZR 0) in Ha. rewrite (Math_round_IZR 100) in Hb.
  done.
Qed.

Lemma ScoreBar_full max : (0 < max)%R -> ScoreBar max max = 100.
Proof.
  intros Hpos. unfold ScoreBar. destruct (Rlt_dec 0 max); [|done].
  replace (max / max * 100)%R with (IZR 100) by (field; lra).
  apply Math_round_IZR.
Qed.

Lemma ScoreBar_mono score score' max :
  (0 < max)%R -> (score <= score')%R ->
  ScoreBar score max <= ScoreBar score' max.
Proof.
  intros Hpos Hs. unfold ScoreBar. destruct (Rlt_dec 0 max); [|done].
  apply Math_round_mono. apply Rmult_le_compat_r; [lra|].
  apply Rmult_le_compat_r; [|done]. left. by apply Rinv_0_lt_compat.
Qed.

Lemma bm25Search_positive chunks query topK r :
  r ∈ bm25Search chunks query topK -> (0 < ScoredChunk.score r)%R.
Proof.
  intros Hr. apply bm25Search_elem in Hr as (c & Hin & Hm & ->). cbn.
  apply specScore_pos_iff; [done|].
  unfold hasMatch in Hm. by destruct (specMatches query c).
Qed.

Lemma bm25Search_sorted chunks query topK :
  StronglySorted scoreGe (bm25Search chunks query topK).
Proof.
  rewrite bm25Search_take.
  set (sorted := sortByScore (List.filter isPositive (scored chunks query))).
  set (n := Z.to_nat (relIndex (len sorted) topK)).
  apply (StronglySorted_app_1_l scoreGe (take n sorted) (drop n sorted)).
  rewrite take_drop. apply sortByScore_sorted.
Qed.

Lemma maxScore_max chunks query topK r :
  r ∈ bm25Search chunks query topK ->
  (0 < ScoredChunk.score r <= maxScore (bm25Search chunks query topK))%R.
Proof.
  intros Hr. split; [by apply (bm25Search_positive chunks query topK)|].
  pose proof (bm25Search_sorted chunks query topK) as Hs.
  destruct (bm25Search chunks query topK) as [|c l]; [by apply elem_of_nil in Hr|].
  cbn [maxScore]. apply StronglySorted_cons in Hs as [Hc _].
  apply elem_of_cons in Hr as [->|Hr]; [lra|].
  rewrite Forall_forall in Hc. by apply Hc.
Qed.

Lemma bm25Search_nil_iff chunks query topK :
  0 < topK ->
  bm25Search chunks query topK = []
  <-> forall c t, c ∈ chunks -> t ∈ tokenize query -> t ∉ tokenize (text c).
Proof.
  intros Hk.
  assert (bm25Search chunks query topK = []
          <-> List.filter (hasMatch query) chunks = []) as ->.
  { rewrite <- !length_zero_iff_nil, bm25Search_length, slice_0_take.
    rewrite length_take. unfold relIndex, len.
    destruct (Z.ltb_spec topK 0); lia. }
  split.
  - intros Hnil c t Hc Hq Ht.
    assert (In c (List.filter (hasMatch query) chunks)) as Hin.
    { apply filter_In. split; [by apply list_elem_of_In|]. unfold hasMatch.
      destruct (specMatches query c) as [|u m] eqn:Em; [|done].
      assert (t ∈ specMatches query c) as Hm
        by (apply elem_of_specMatches; by split).
      rewrite Em in Hm. by apply elem_of_nil in Hm. }
    by rewrite Hnil in Hin.
  - intros Hno. apply filter_none. intros c Hc. unfold hasMatch.
    destruct (specMatches query c) as [|t m] eqn:Em; [done|].
    assert (t ∈ specMatches query c) as Hm by (rewrite Em; by left).
    apply elem_of_specMatches in Hm as [Hq Ht]. by destruct (Hno c t).
Qed.

Lemma pipelineRequest_Some docs query req :
  pipelineRequest docs query = Some req ->
  req = SearchRequest.mk (Some docs) (Some query) (Some 5)
  /\ docs <> [] /\ nonBlank query <> [].
Proof.
  unfold pipelineRequest. destruct (truthy (trim query)) eqn:Ht; [|done].
  destruct docs as [|d ds]; [done|]. cbn. intros [= <-].
  split; [done|]. split; [done|]. by apply truthy_trim.
Qed.

(** *** Documents that fit in a chunk *)

Lemma list_sum_cons (x : nat) l : list_sum (x :: l) = (x + list_sum l)%nat.
Proof. done. Qed.

Lemma trimStart_length s : (length (trimStart s) <= length s)%nat.
Proof.
  induction s as [|c s IH]; [done|]. cbn [trimStart].
  destruct (isWhiteSpace c); cbn [length]; lia.
Qed.

Lemma trim_length s : (length (trim s) <= length s)%nat.
Proof.
  unfold trim, trimEnd. rewrite length_rev.
  etransitivity; [apply trimStart_length|].
  rewrite length_rev. apply trimStart_length.
Qed.

Lemma joinedLength_cons f fields :
  joinedLength (f :: fields) = 2 + len f + joinedLength fields.
Proof.
  unfold joinedLength, len. cbn [map]. rewrite list_sum_cons. lia.
Qed.

Lemma joinedLength_consHead c fields :
  fields <> [] ->
  joinedLength (consHead c fields) = 1 + joinedLength fields.
Proof.
  destruct fields as [|f fs]; [done|]. intros _.
  unfold joinedLength. cbn [consHead map]. rewrite !list_sum_cons.
  cbn [length]. lia.
Qed.

Lemma splitParagraphs_nonempty inSep s : splitParagraphs inSep s <> [].
Proof.
  revert inSep. induction s as [|c s IH]; intros inSep; [done|].
  cbn [splitParagraphs].
  assert (forall fields, consHead c fields <> []) as Hc
    by (by intros [|? ?]).
  destruct (isNewline c); [|apply Hc].
  destruct inSep; [apply IH|].
  destruct s as [|c' s']; [apply Hc|].
  destruct (isNewline c'); [done|apply Hc].
Qed.

(** The fields of a split and the separators between them are not longer
    than the text: a separator has two line feeds at least. *)
Lemma splitParagraphs_length s :
  joinedLength (splitParagraphs false s) <= len s
  /\ joinedLength (splitParagraphs true s)
     + (match s with c :: _ => if isNewline c then 1 else 0 | [] => 0 end)
     <= len s.
Proof.
  induction s as [|c s [IHf IHt]]; [by cbn|].
  assert (len (c :: s) = 1 + len s) as Hl by (unfold len; cbn [length]; lia).
  rewrite Hl. cbn [splitParagraphs].
  pose proof (joinedLength_consHead c (splitParagraphs false s)
                (splitParagraphs_nonempty false s)) as Hch.
  destruct (isNewline c) eqn:Hc.
  - split.
    + destruct s as [|c' s']; [lia|].
      destruct (isNewline c') eqn:Hc'; [|lia].
      rewrite joinedLength_cons. unfold len in *. cbn [length] in *. lia.
    + destruct s as [|c' s']; [lia|].
      destruct (isNewline c'); lia.
  - split; lia.
Qed.

Lemma joinParagraphs_length paras :
  paras <> [] ->
  len (joinParagraphs paras) = joinedLength paras.
Proof.
  destruct paras as [|p rest]; [done|]. intros _.
  unfold joinedLength. cbn [joinParagraphs map]. rewrite list_sum_cons, len_app.
  assert (len (flat_map (fun q => [LF; LF] ++ q) rest)
          = Z.of_nat (list_sum (map (fun f => (2 + length f)%nat) rest)))
    as ->.
  { induction rest as [|q rest IH]; [done|].
    cbn [flat_map map]. rewrite list_sum_cons, !len_app, IH.
    unfold len. cbn [length]. lia. }
  unfold len. lia.
Qed.

Lemma paragraphs_sum fields :
  (list_sum (map (fun f => (2 + length f)%nat)
               (List.filter truthy (map trim fields)))
   <= list_sum (map (fun f => (2 + length f)%nat) fields))%nat.
Proof.
  induction fields as [|f fields IH]; [done|].
  cbn [map List.filter]. rewrite list_sum_cons.
  pose proof (trim_length f).
  destruct (truthy (trim f)); cbn [map]; rewrite ?list_sum_cons; lia.
Qed.

Lemma paragraphs_length s :
  len (joinParagraphs (paragraphs s)) <= len s.
Proof.
  destruct (paragraphs s) as [|p rest] eqn:E.
  - unfold len. cbn. lia.
  - rewrite joinParagraphs_length by done. rewrite <- E.
    pose proof (proj1 (splitParagraphs_length s)) as Hs.
    pose proof (paragraphs_sum (splitParagraphs false s)) as Hp.
    unfold joinedLength, paragraphs in *. lia.
Qed.

Lemma docParas_nonblank d :
  nonBlank (DocumentInput.text d) <> [] -> docParas d <> [].
Proof.
  intros Hnb E. apply Hnb. unfold docParas in E.
  by rewrite <- nonBlank_trim, <- nonBlank_paragraphs, E.
Qed.

Lemma docParas_length d :
  len (joinParagraphs (docParas d)) <= len (DocumentInput.text d).
Proof.
  unfold docParas.
  pose proof (paragraphs_length (trim (DocumentInput.text d))).
  pose proof (trim_length (DocumentInput.text d)). unfold len in *. lia.
Qed.

Lemma windows_length chunkSize overlap para cp :
  0 < len para -> 0 < chunkSize - overlap ->
  len (windows chunkSize overlap para cp)
  = ceilDiv (len para) (chunkSize - overlap).
Proof.
  intros Hp Hs. unfold windows.
  rewrite windowsFrom_seq. unfold len at 1. rewrite length_map, length_seq.
  unfold windowCount. destruct (Z.ltb_spec 0 (len para)); [|lia].
  rewrite Z.sub_0_r.
  pose proof (ceilDiv_pos (len para) (chunkSize - overlap) Hs Hp). lia.
Qed.

Lemma ceilDiv_coarser a b b' :
  0 < b -> b <= b' -> 0 < a -> ceilDiv a b' <= ceilDiv a b.
Proof.
  intros Hb Hbb Ha.
  pose proof (ceilDiv_spec a b Hb). pose proof (ceilDiv_spec a b' ltac:(lia)).
  pose proof (ceilDiv_pos a b Hb Ha). nia.
Qed.

(** *** The reader of the answer stream *)

Lemma isNewline_LF c : isNewline c = true -> c = LF.
Proof.
  unfold isNewline, LF. intros H. apply Nat.eqb_eq in H.
  by rewrite <- H, ascii_nat_embedding.
Qed.

Lemma consHead_nonempty c fields : consHead c fields <> [].
Proof. by destruct fields. Qed.

Lemma splitBlankLine_nonempty s : splitBlankLine s <> [].
Proof.
  destruct s as [|c [|c' s]]; cbn [splitBlankLine]; [done| |].
  - apply consHead_nonempty.
  - destruct (isNewline c && isNewline c'); [done|apply consHead_nonempty].
Qed.

(** An induction that goes two characters back. *)
Lemma str_ind2 (P : str -> Prop) :
  P [] -> (forall c, P [c]) ->
  (forall c c' s, P s -> P (c' :: s) -> P (c :: c' :: s)) ->
  forall s, P s.
Proof.
  intros H0 H1 H2 s.
  enough (P s /\ forall c, P (c :: s)) as [H _] by exact H.
  induction s as [|c' s [IH IH']]; [by split|].
  split; [apply IH'|]. intros c. by apply H2.
Qed.

Lemma joinParagraphs_consHead c fields :
  fields <> [] -> joinParagraphs (consHead c fields) = c :: joinParagraphs fields.
Proof. by destruct fields. Qed.

Lemma splitBlankLine_cons2 c c' s :
  splitBlankLine (c :: c' :: s)
  = if isNewline c && isNewline c' then [] :: splitBlankLine s
    else consHead c (splitBlankLine (c' :: s)).
Proof. done. Qed.

(** Joining the fields of the split with the separator gives the text
    back. *)
Lemma splitBlankLine_join s : joinParagraphs (splitBlankLine s) = s.
Proof.
  induction s as [|c|c c' s IH IH'] using str_ind2; [done..|].
  rewrite splitBlankLine_cons2.
  destruct (isNewline c) eqn:Hc; cbn [andb].
  - destruct (isNewline c') eqn:Hc'.
    + apply isNewline_LF in Hc, Hc'. subst.
      pose proof (splitBlankLine_nonempty s) as Hne.
      destruct (splitBlankLine s) as [|f fs] eqn:E; [done|].
      cbn [joinParagraphs flat_map app] in *. by rewrite IH.
    + by rewrite joinParagraphs_consHead, IH'
        by apply splitBlankLine_nonempty.
  - by rewrite joinParagraphs_consHead, IH' by apply splitBlankLine_nonempty.
Qed.

Lemma splitBlankLine_one s f : splitBlankLine s = [f] -> f = s.
Proof.
  intros E. pose proof (splitBlankLine_join s) as H. rewrite E in H.
  cbn in H. by rewrite app_nil_r in H.
Qed.

(** The split of a text that goes on: the fields before the last one
    stay, and the split resumes in the last one. *)
Lemma splitBlankLine_app a b :
  splitBlankLine (a ++ b)
  = removelast (splitBlankLine a)
    ++ splitBlankLine (default [] (last (splitBlankLine a)) ++ b).
Proof.
  induction a as [|c|c c' a IH IH'] using str_ind2; [done..|].
  change ((c :: c' :: a) ++ b) with (c :: c' :: (a ++ b)).
  rewrite !splitBlankLine_cons2.
  pose proof (splitBlankLine_nonempty a) as Hne.
  destruct (isNewline c && isNewline c') eqn:Hcc.
  - destruct (splitBlankLine a) as [|f fs] eqn:E; [done|].
    rewrite last_cons_cons. cbn [removelast app].
    by rewrite IH.
  - change ((c' :: a) ++ b) with (c' :: (a ++ b)) in IH'.
    pose proof (splitBlankLine_nonempty (c' :: a)) as Hne'.
    destruct (splitBlankLine (c' :: a)) as [|f [|f' fs]] eqn:E; [done| |].
    + apply splitBlankLine_one in E. subst f.
      change (consHead c (splitBlankLine (c' :: a ++ b))
              = splitBlankLine (c :: c' :: (a ++ b))).
      by rewrite splitBlankLine_cons2, Hcc.
    + rewrite IH'. cbn [consHead]. rewrite !last_cons_cons.
      by cbn [removelast app consHead].
Qed.

Lemma forallb_removelast {A} (f : A -> bool) l :
  forallb f l = true -> forallb f (removelast l) = true.
Proof.
  induction l as [|x [|y l] IH]; [done..|].
  cbn [removelast forallb] in *. intros [Hx Hl]%andb_true_iff.
  rewrite Hx. by apply IH.
Qed.

Section ReaderFacts.
Variable textOf : str -> option str.

(** Without a [break] before the last line, the loop over the lines adds
    the text of each. *)
Lemma forLines_texts lines answer :
  forallb (fun l => negb (isDone l)) (removelast lines) = true ->
  forLines textOf lines answer
  = answer ++ concat (map (frameText textOf) lines).
Proof.
  revert answer. induction lines as [|line rest IH]; intros answer Hnd.
  - cbn. by rewrite app_nil_r.
  - cbn [forLines map concat]. unfold frameText at 1, isDone.
    destruct (startsWith line (S_ "data: ")) eqn:Hs; cbn [negb andb].
    + destruct (bool_decide (slice line 6 (len line) = S_ "[DONE]")) eqn:Hd;
        cbn [negb].
      * destruct rest as [|l2 rest]; [cbn; by rewrite app_nil_r|].
        cbn [removelast forallb] in Hnd. unfold isDone in Hnd at 1.
        by rewrite Hs, Hd in Hnd.
      * assert (forallb (fun l => negb (isDone l)) (removelast rest) = true)
          as Hrest.
        { destruct rest as [|l2 rest]; [done|].
          cbn [removelast forallb] in Hnd.
          by apply andb_true_iff in Hnd as [_ Hnd]. }
        destruct (textOf (slice line 6 (len line))) as [text|];
          cbn [default]; rewrite IH by done.
        -- by rewrite app_assoc.
        -- done.
    + rewrite IH; [done|]. destruct rest as [|l2 rest]; [done|].
      cbn [removelast forallb] in Hnd.
      by apply andb_true_iff in Hnd as [_ Hnd].
Qed.

Lemma readAnswer_snoc reads r :
  readAnswer textOf (reads ++ [r])
  = readStep textOf (readAnswer textOf reads) r.
Proof. unfold readAnswer. by rewrite fold_left_app. Qed.

(** The buffer is the last field of what has been read, whatever the
    reads are. *)
Lemma readAnswer_buffer reads :
  fst (readAnswer textOf reads)
  = default [] (last (splitBlankLine (concat reads))).
Proof.
  induction reads as [|r reads IH] using rev_ind; [done|].
  rewrite readAnswer_snoc, concat_app. cbn [concat]. rewrite app_nil_r.
  destruct (readAnswer textOf reads) as [buffer answer]. cbn [fst] in IH.
  unfold readStep. cbn [fst].
  rewrite (splitBlankLine_app (concat reads) r), <- IH.
  pose proof (splitBlankLine_nonempty (buffer ++ r)) as Hne.
  rewrite last_app.
  by destruct (last (splitBlankLine (buffer ++ r))) eqn:E;
    [|apply last_is_Some in Hne; rewrite E in Hne; destruct Hne].
Qed.

Lemma readAnswer_texts reads :
  forallb (fun l => negb (isDone l))
    (removelast (removelast (splitBlankLine (concat reads)))) = true ->
  snd (readAnswer textOf reads)
  = concat (map (frameText textOf)
              (removelast (splitBlankLine (concat reads)))).
Proof.
  induction reads as [|r reads IH] using rev_ind; [done|].
  rewrite readAnswer_snoc, concat_app. cbn [concat]. rewrite app_nil_r.
  pose proof (readAnswer_buffer reads) as Hb.
  destruct (readAnswer textOf reads) as [buffer answer]. cbn [fst snd] in *.
  unfold readStep. cbn [snd].
  rewrite (splitBlankLine_app (concat reads) r), <- Hb.
  pose proof (splitBlankLine_nonempty (buffer ++ r)) as Hne.
  rewrite removelast_app by done. intros Hnd.
  set (F := removelast (splitBlankLine (concat reads))) in *.
  set (L := removelast (splitBlankLine (buffer ++ r))) in *.
  assert (forallb (fun l => negb (isDone l)) (removelast F) = true
          /\ forallb (fun l => negb (isDone l)) (removelast L) = true)
    as [HF HL].
  { destruct L as [|l1 L'] eqn:EL.
    - rewrite app_nil_r in Hnd. by split.
    - rewrite removelast_app in Hnd by done.
      rewrite forallb_app in Hnd. apply andb_true_iff in Hnd as [H1 H2].
      split; [by apply forallb_removelast|done]. }
  rewrite forLines_texts by done. rewrite IH by done.
  by rewrite map_app, concat_app.
Qed.

End ReaderFacts.

(** ** The answer route *)

Lemma splitLines_nonempty s : splitLines s <> [].
Proof.
  destruct s as [|c s]; cbn [splitLines]; [done|].
  destruct (isNewline c); [done|apply consHead_nonempty].
Qed.

Lemma splitLines_app a b :
  splitLines (a ++ b)
  = removelast (splitLines a)
    ++ splitLines (default [] (last (splitLines a)) ++ b).
Proof.
  induction a as [|c a IH]; [done|].
  cbn [app splitLines].
  pose proof (splitLines_nonempty a) as Hne.
  destruct (isNewline c) eqn:Hc.
  - destruct (splitLines a) as [|f fs] eqn:E; [done|].
    rewrite last_cons_cons. cbn [removelast app]. by rewrite IH.
  - rewrite IH.
    destruct (splitLines a) as [|f [|f' fs]] eqn:E; [done| |].
    + change (consHead c (splitLines (f ++ b)) = splitLines (c :: (f ++ b))).
      cbn [splitLines]. by rewrite Hc.
    + cbn [consHead]. rewrite !last_cons_cons.
      by cbn [removelast app consHead].
Qed.

Section RelayFacts.
Variables (deltaOf : str -> option str) (errorOf : str -> str).

Lemma relayLines_omap lines out :
  relayLines deltaOf lines out
  = out ++ map frame (omap (payload deltaOf) lines).
Proof.
  revert out. induction lines as [|line rest IH]; intros out.
  - cbn. by rewrite app_nil_r.
  - cbn [relayLines omap list_omap]. destruct (payload deltaOf line).
    + rewrite IH. by rewrite <- app_assoc.
    + apply IH.
Qed.

Lemma relayReads_spec reads :
  fold_left (relayStep deltaOf) reads ([], [])
  = (default [] (last (splitLines (concat reads))),
     map frame
       (omap (payload deltaOf) (removelast (splitLines (concat reads))))).
Proof.
  induction reads as [|r reads IH] using rev_ind; [done|].
  rewrite fold_left_app, IH, concat_app. cbn [fold_left concat relayStep].
  rewrite app_nil_r, (splitLines_app (concat reads) r).
  pose proof (splitLines_nonempty
                (default [] (last (splitLines (concat reads))) ++ r)) as Hne.
  rewrite removelast_app by done. rewrite last_app.
  rewrite relayLines_omap, omap_app, map_app. f_equal.
  apply last_is_Some in Hne as [y Hy]. by rewrite Hy.
Qed.

End RelayFacts.

(** *** From the answer route to the page *)

Lemma splitBlankLine_frame x rest :
  Forall (fun c => isNewline c = false) x ->
  splitBlankLine (x ++ [LF; LF] ++ rest) = x :: splitBlankLine rest.
Proof.
  induction 1 as [|c x Hc Hx IH]; [done|]. cbv beta in Hc.
  change ((c :: x) ++ [LF; LF] ++ rest) with (c :: (x ++ [LF; LF] ++ rest)).
  destruct (x ++ [LF; LF] ++ rest) as [|c' s] eqn:E.
  - by destruct x.
  - rewrite splitBlankLine_cons2, Hc, IH. done.
Qed.

Lemma splitBlankLine_frames (lines : list str) tail :
  Forall (Forall (fun c => isNewline c = false)) lines ->
  splitBlankLine (concat (map (fun l => l ++ [LF; LF]) lines) ++ tail)
  = lines ++ splitBlankLine tail.
Proof.
  induction 1 as [|l lines Hl _ IH]; [done|].
  cbn [map concat app]. rewrite <- !app_assoc.
  rewrite (splitBlankLine_frame l) by done. by rewrite IH.
Qed.

Lemma startsWith_app p s : startsWith (p ++ s) p = true.
Proof.
  induction p as [|a p IH]; [done|]. cbn [app startsWith].
  by rewrite Ascii.eqb_refl, IH.
Qed.

Lemma slice_data json :
  slice (S_ "data: " ++ json) 6 (len (S_ "data: " ++ json)) = json.
Proof.
  rewrite slice_nonneg.
  - change (Z.to_nat 6) with (length (S_ "data: ")).
    rewrite drop_app_length. apply take_ge.
    rewrite len_app. unfold len. cbn [length S_ list_ascii_of_string]. lia.
  - lia.
  - rewrite len_app. unfold len. cbn [length S_ list_ascii_of_string]. lia.
Qed.

Lemma isDone_data json :
  isDone (S_ "data: " ++ json) = bool_decide (json = S_ "[DONE]").
Proof. unfold isDone. by rewrite startsWith_app, slice_data. Qed.

Lemma frameText_data textOf json :
  json <> S_ "[DONE]" ->
  frameText textOf (S_ "data: " ++ json) = default [] (textOf json).
Proof.
  intros Hj. unfold frameText.
  rewrite isDone_data, startsWith_app, slice_data.
  by rewrite bool_decide_eq_false_2.
Qed.

Lemma frameText_done textOf : frameText textOf (S_ "data: [DONE]") = [].
Proof. done. Qed.

Lemma data_no_newline json :
  Forall (fun c => isNewline c = false) json ->
  Forall (fun c => isNewline c = false) (S_ "data: " ++ json).
Proof. intros H. apply Forall_app. split; [by repeat constructor|done]. Qed.

(** What the page makes of the frames that the answer route writes. *)
Lemma readAnswer_frames textOf reads jsons terminal :
  Forall (fun json => Forall (fun c => isNewline c = false) json
                      /\ json <> S_ "[DONE]") jsons ->
  Forall (fun c => isNewline c = false) terminal ->
  concat reads = concat (map frame (jsons ++ [terminal])) ->
  readAnswer textOf reads
  = ([], concat (map (fun json => default [] (textOf json)) jsons)
         ++ frameText textOf (S_ "data: " ++ terminal)).
Proof.
  intros Hj Ht E.
  assert (splitBlankLine (concat reads)
          = map (app (S_ "data: ")) (jsons ++ [terminal]) ++ [[]]) as Hs.
  { rewrite E.
    replace (concat (map frame (jsons ++ [terminal])))
      with (concat (map (fun l => l ++ [LF; LF])
                      (map (app (S_ "data: ")) (jsons ++ [terminal])))
            ++ []).
    - rewrite splitBlankLine_frames; [done|].
      apply Forall_fmap, Forall_app. split.
      + eapply Forall_impl; [exact Hj|]. intros j [Hn _].
        by apply data_no_newline.
      + constructor; [|constructor]. by apply data_no_newline.
    - rewrite app_nil_r, map_map. by f_equal. }
  pose proof (readAnswer_buffer textOf reads) as Hb.
  pose proof (readAnswer_texts textOf reads) as Hx.
  rewrite Hs in Hb, Hx.
  rewrite removelast_last in Hx. rewrite last_snoc in Hb.
  rewrite map_app in Hx. cbn [map] in Hx. rewrite removelast_last in Hx.
  destruct (readAnswer textOf reads) as [buffer answer]. cbn [fst snd] in *.
  subst buffer. f_equal. rewrite Hx.
  - rewrite map_app, concat_app. cbn [map concat]. rewrite app_nil_r.
    f_equal. rewrite map_map. f_equal.
    apply Forall_fmap_ext_1. eapply Forall_impl; [exact Hj|].
    intros j [_ Hd]. by apply frameText_data.
  - apply forallb_forall. intros l Hl. apply in_map_iff in Hl as (j & <- & Hin).
    rewrite isDone_data. rewrite Forall_forall in Hj.
    apply list_elem_of_In in Hin. destruct (Hj j Hin) as [_ Hd].
    by rewrite bool_decide_eq_false_2.
Qed.

(** *** The order of the matched terms *)

(** In the distinct tokens, a token that comes before another one occurs
    in the list before any occurrence of the other. *)
Lemma distinct_order seen tokens i j t u :
  (i < j)%nat ->
  distinct seen tokens !! i = Some t -> distinct seen tokens !! j = Some u ->
  exists m, tokens !! m = Some t /\ u ∉ take m tokens.
Proof.
  revert seen i j. induction tokens as [|x tokens IH]; intros seen i j Hij;
    [cbn [distinct]; by rewrite lookup_nil|].
  cbn [distinct]. destruct (decide (x ∈ seen)) as [Hin|Hnin].
  - intros Hi Hj. destruct (IH seen i j Hij Hi Hj) as (m & Hm & Hu).
    exists (S m). split; [done|]. cbn [take]. apply not_elem_of_cons.
    split; [|done]. intros ->.
    apply list_elem_of_lookup_2, elem_of_distinct in Hj as [_ Hns]. done.
  - destruct j as [|j]; [lia|]. destruct i as [|i].
    + intros [= ->] _. exists O. split; [done|]. cbn. apply not_elem_of_nil.
    + cbn [lookup list_lookup]. intros Hi Hj.
      destruct (IH ({[x]} ∪ seen) i j ltac:(lia) Hi Hj) as (m & Hm & Hu).
      exists (S m). split; [done|]. cbn [take]. apply not_elem_of_cons.
      split; [|done]. intros ->.
      apply list_elem_of_lookup_2, elem_of_distinct in Hj as [_ Hns].
      apply Hns, elem_of_union. left. by apply elem_of_singleton.
Qed.

Lemma sublist_lookup_lt {A} (l1 l2 : list A) i j x y :
  l1 `sublist_of` l2 -> (i < j)%nat ->
  l1 !! i = Some x -> l1 !! j = Some y ->
  exists i' j', (i' < j')%nat /\ l2 !! i' = Some x /\ l2 !! j' = Some y.
Proof.
  intros Hs. revert i j. induction Hs as [|z l1 l2 Hs IH|z l1 l2 Hs IH];
    intros i j Hij Hi Hj.
  - by rewrite lookup_nil in Hi.
  - destruct j as [|j]; [lia|]. cbn in Hj. destruct i as [|i]; cbn in Hi.
    + injection Hi as ->.
      apply list_elem_of_lookup_2 in Hj.
      apply (elem_of_sublist _ _ _ Hj), list_elem_of_lookup_1 in Hs
        as [j' Hj'].
      exists O, (S j'). split; [lia|]. by split.
    + destruct (IH i j ltac:(lia) Hi Hj) as (i' & j' & Hlt & Hi' & Hj').
      exists (S i'), (S j'). split; [lia|]. by split.
  - destruct (IH i j Hij Hi Hj) as (i' & j' & Hlt & Hi' & Hj').
    exists (S i'), (S j'). split; [lia|]. by split.
Qed.

(** ** The fallback of any paragraph *)

Lemma number_app di dn start ps qs :
  number di dn start (ps ++ qs)
  = number di dn start ps ++ number di dn (start + length ps) qs.
Proof.
  unfold number. rewrite imap_app. f_equal.
  apply imap_ext. intros k p _. cbn. f_equal. lia.
Qed.

Lemma number_windows chunkSize overlap di dn start para cp :
  0 < len para ->
  number di dn start (windows chunkSize overlap para cp)
  = map (fallbackChunk chunkSize overlap di dn start cp para)
      (seq 0 (Z.to_nat (ceilDiv (len para) (chunkSize - overlap)))).
Proof.
  intros Hp. unfold windows, windowCount.
  destruct (Z.ltb_spec 0 (len para)); [|lia].
  rewrite Z.sub_0_r, windowsFrom_seq, number_map.
  apply map_ext. intros k. unfold fallbackChunk. cbn. f_equal.
Qed.

(** A paragraph longer than [chunkSize]: the buffer is flushed, then come
    the windows of the paragraph, and the buffer is left empty. *)
Lemma paraPieces_long chunkSize overlap a para :
  chunkSize < len para ->
  paraPieces chunkSize overlap a para
  = (flushPieces a ++ windows chunkSize overlap para (charPos a),
     mkAcc [] (charPos a + len para) (charPos a + (len para + 2))).
Proof.
  intros Hl. unfold paraPieces, flushPieces.
  pose proof (len_nonneg (currentChunk a)).
  destruct (Z.ltb_spec chunkSize (len para)); [|lia].
  destruct (truthy (currentChunk a)).
  - destruct (Z.leb_spec (len (currentChunk a) + 2 + len para) chunkSize);
      [lia|done].
  - destruct (Z.leb_spec (len para) chunkSize); [lia|done].
Qed.

Lemma parasPieces_app chunkSize overlap paras1 paras2 a :
  parasPieces chunkSize overlap (paras1 ++ paras2) a
  = (fst (parasPieces chunkSize overlap paras1 a)
     ++ fst (parasPieces chunkSize overlap paras2
               (snd (parasPieces chunkSize overlap paras1 a))),
     snd (parasPieces chunkSize overlap paras2
            (snd (parasPieces chunkSize overlap paras1 a)))).
Proof.
  revert a. induction paras1 as [|p paras1 IH]; intros a.
  - cbn. by destruct (parasPieces chunkSize overlap paras2 a).
  - cbn [app parasPieces].
    destruct (paraPieces chunkSize overlap a p) as [ps a1].
    rewrite IH.
    destruct (parasPieces chunkSize overlap paras1 a1) as [qs a2].
    cbn [fst snd]. by rewrite app_assoc.
Qed.

(** The pieces that the loop emits from a state on start at or after the
    least offset of that state. *)
Lemma parasPieces_from chunkSize overlap paras a lo :
  0 < chunkSize - overlap -> lo <= nextStart a -> lo <= charPos a ->
  Forall (fun p => lo <= snd p)
    (fst (parasPieces chunkSize overlap paras a)
     ++ flushPieces (snd (parasPieces chunkSize overlap paras a))).
Proof.
  intros Hs Hn Hc.
  pose proof (parasPieces_inv chunkSize overlap
                (fun _ ps b =>
                   Forall (fun p => lo <= snd p) ps
                   /\ lo <= nextStart b /\ lo <= charPos b)
                paras a) as Hinv.
  cbv beta in Hinv.
  destruct Hinv as (Hps & Hnext & _).
  - by split; [constructor|].
  - intros _ ps b para _ (Hps & Hnb & Hcb).
    pose proof (len_nonneg para) as Hlen.
    assert (Forall (fun p : Piece => lo <= snd p) (flushPieces b)) as Hfl.
    { unfold flushPieces, nextStart in *.
      destruct (truthy (currentChunk b)); repeat constructor; done. }
    unfold paraPieces.
    destruct (_ <=? chunkSize).
    + destruct (truthy (currentChunk b)) eqn:Ht; cbn [fst snd].
      * rewrite app_nil_r. split; [done|]. unfold nextStart in *.
        cbn [currentChunk currentStart charPos]. rewrite Ht in Hnb.
        split; [|lia].
        destruct (truthy (currentChunk b ++ [LF; LF] ++ para)); lia.
      * rewrite app_nil_r. split; [done|]. unfold nextStart.
        cbn [currentChunk currentStart charPos]. split; [|lia].
        destruct (truthy para); lia.
    + destruct (Z.ltb_spec chunkSize (len para)); cbn [fst snd].
      * split; [|unfold nextStart; cbn; lia].
        apply Forall_app. split; [done|]. apply Forall_app.
        split; [exact Hfl|]. apply Forall_forall. intros p Hp.
        apply list_elem_of_lookup_1 in Hp as [k Hk].
        destruct (windows_lookup _ _ _ _ _ _ Hk Hs) as [-> Hr].
        cbn [snd]. lia.
      * split; [by apply Forall_app|]. unfold nextStart.
        cbn [currentChunk currentStart charPos]. split; [|lia].
        destruct (truthy para); lia.
  - apply Forall_app. split; [done|].
    set (b := snd (parasPieces chunkSize overlap paras a)) in *.
    unfold flushPieces. unfold nextStart in Hnext.
    destruct (truthy (currentChunk b)); repeat constructor; done.
Qed.

(** The state of the loop after some paragraphs, and the pieces emitted
    for them. *)
Lemma parasPieces_before chunkSize overlap paras :
  0 < chunkSize - overlap -> Forall (fun p => 0 < len p) paras ->
  let r := parasPieces chunkSize overlap paras (mkAcc [] 0 0) in
  charPos (snd r) = len (normalized paras)
  /\ Forall (fun p => snd p < len (normalized paras))
       (fst r ++ flushPieces (snd r)).
Proof.
  intros Hs Hpos. cbv zeta.
  pose proof (parasPieces_inv chunkSize overlap structInv paras
                (mkAcc [] 0 0)) as H.
  destruct (parasPieces _ _ _ _) as [ps a]. cbn [fst snd] in *.
  assert (structInv paras ps a) as Hinv.
  { apply H.
    - unfold structInv, nextStart. cbn.
      repeat split; first [done|apply increasing_nil].
    - intros done qs b para Hin. apply paraPieces_struct.
      + unfold advances. lia.
      + rewrite Forall_forall in Hpos. by apply Hpos. }
  pose proof (flushed_struct _ _ _ Hinv) as Hfl.
  pose proof (structInv_next _ _ _ Hinv) as [Hle _].
  destruct Hinv as (Hcp & _ & _ & _ & Hbelow).
  split; [done|]. apply Forall_app. split.
  - eapply Forall_impl; [exact Hbelow|]. intros p Hp. cbv beta in Hp. lia.
  - eapply Forall_impl; [exact Hfl|]. intros p [_ Hp]. lia.
Qed.

Lemma normalized_app paras1 paras2 :
  normalized (paras1 ++ paras2) = normalized paras1 ++ normalized paras2.
Proof. unfold normalized. apply flat_map_app. Qed.

(** The pieces of a document around one of its paragraphs that is longer
    than [chunkSize]. *)
Lemma pieces_around chunkSize overlap content j para :
  0 < chunkSize - overlap ->
  paragraphs (trim content) !! j = Some para -> chunkSize < len para ->
  let base := len (normalized (take j (paragraphs (trim content)))) in
  exists before after,
    pieces chunkSize overlap content
    = before ++ windows chunkSize overlap para base ++ after
    /\ Forall (fun p => snd p < base) before
    /\ Forall (fun p => base + len para < snd p) after.
Proof.
  intros Hs Hj Hl. cbv zeta.
  pose proof (paragraphs_truthy (trim content)) as Hpos.
  set (paras := paragraphs (trim content)) in *.
  assert (paras = take j paras ++ para :: drop (S j) paras) as E.
  { by rewrite <- (take_drop_middle paras j para Hj) at 1. }
  set (paras1 := take j paras) in *. set (paras2 := drop (S j) paras) in *.
  assert (Forall (fun p => 0 < len p) paras1) as Hpos1.
  { rewrite E in Hpos. by apply Forall_app in Hpos as [? _]. }
  destruct (parasPieces_before chunkSize overlap paras1 Hs Hpos1)
    as [Hcp Hbefore].
  unfold pieces. fold paras. rewrite E.
  rewrite parasPieces_app. cbn [parasPieces fst snd].
  destruct (parasPieces chunkSize overlap paras1 (mkAcc [] 0 0))
    as [ps1 a1]. cbn [fst snd] in *.
  rewrite (paraPieces_long chunkSize overlap a1 para Hl), Hcp.
  set (a' := mkAcc _ _ _).
  pose proof (parasPieces_from chunkSize overlap paras2 a'
                (len (normalized paras1) + (len para + 2)) Hs) as Hafter.
  destruct (parasPieces chunkSize overlap paras2 a') as [ps2 a2].
  cbn [fst snd] in *.
  exists (ps1 ++ flushPieces a1), (ps2 ++ flushPieces a2). split.
  - by rewrite <- !app_assoc.
  - split; [done|].
    eapply Forall_impl; [apply Hafter|].
    + unfold a', nextStart. cbn. lia.
    + unfold a'. cbn. lia.
    + intros p Hp. cbv beta in Hp. lia.
Qed.

(** The chunks of a call around the chunks of one of its documents. *)
Lemma docsChunks_around chunkSize overlap docs i d :
  docs !! i = Some d ->
  exists pre post,
    docsChunks chunkSize overlap docs 0 0
    = pre
      ++ number i (DocumentInput.name d) (length pre)
           (pieces chunkSize overlap (DocumentInput.text d))
      ++ post
    /\ Forall (fun c => (docIndex c < i)%nat) pre
    /\ Forall (fun c => (i < docIndex c)%nat) post.
Proof.
  intros Hd.
  assert (docs = take i docs ++ d :: drop (S i) docs) as E.
  { by rewrite <- (take_drop_middle docs i d Hd) at 1. }
  assert (length (take i docs) = i) as Hlen.
  { rewrite length_take. apply lookup_lt_Some in Hd. lia. }
  pose proof (docsChunks_app chunkSize overlap (take i docs)
                (d :: drop (S i) docs) 0 0) as Happ.
  rewrite <- E in Happ. rewrite Happ. cbn [docsChunks].
  rewrite Hlen, !Nat.add_0_r.
  eexists _, _. split; [reflexivity|]. split.
  - apply Forall_forall. intros c Hc.
    apply docsChunks_elem in Hc as (d' & _ & Hd' & _).
    apply lookup_lt_Some in Hd'. rewrite Hlen in Hd'. lia.
  - apply Forall_forall. intros c Hc.
    apply docsChunks_elem in Hc as (d' & Hle & _). lia.
Qed.

(** * The claims of the specification *)

(** ** Configuration and termination *)

(** C1, as stated, fails: a call with [overlap >= chunkSize] is not
    rejected.  With [chunkSize = overlap = 5] the document ["abc"] is
    chunked as usual; with [chunkSize = overlap = 2] the step of the
    fallback is [0], not strictly positive, and the call on ["abc"] returns
    for no amount of fuel. *)
Lemma chunkDocuments_invalid_config_counterexample :
  chunkDocuments 5 5 1 [DocumentInput.mk (S_ "A") (S_ "abc")]
  = Some [mkChunk 0 (S_ "abc") 0 (S_ "A") 0]
  /\ ~ 0 < 2 - 2
  /\ forall fuel,
       chunkDocuments 2 2 fuel [DocumentInput.mk (S_ "A") (S_ "abc")] = None.
Proof.
  split; [reflexivity|]. split; [lia|]. intros fuel.
  destruct (chunkDocuments 2 2 fuel _) as [r|] eqn:Hr; [|done].
  apply chunkDocuments_inv in Hr as [_ Hall].
  apply Forall_cons in Hall as [Hd _].
  assert (docParas (DocumentInput.mk (S_ "A") (S_ "abc")) = [S_ "abc"]) as E
    by (vm_compute; reflexivity).
  rewrite E in Hd. apply Forall_cons in Hd as [Hp _].
  unfold advances in Hp. change (len (S_ "abc")) with 3 in Hp. lia.
Qed.

(** C1 (amended): [chunkDocuments] validates nothing.  Whenever
    [overlap < chunkSize] the step of the character fallback is strictly
    positive and the call returns its chunk list, on every document list,
    as soon as the fuel covers the longest paragraph; and whatever
    [overlap] is, the call returns when no paragraph is longer than
    [chunkSize], since [overlap] is then not used. *)
Theorem chunkDocuments_terminates chunkSize overlap docs :
  (overlap < chunkSize ->
   0 < chunkSize - overlap
   /\ exists result, forall fuel,
        (fuelFor docs <= fuel)%nat ->
        chunkDocuments chunkSize overlap fuel docs = Some result)
  /\ (Forall (fun d => Forall (fun p => len p <= chunkSize) (docParas d)) docs ->
      exists result, forall fuel,
        (fuelFor docs <= fuel)%nat ->
        chunkDocuments chunkSize overlap fuel docs = Some result).
Proof.
  split.
  - intros Hv. split; [lia|].
    exists (docsChunks chunkSize overlap docs 0 0). intros fuel Hf.
    apply chunkDocuments_total.
    + by apply allAdvance_valid.
    + by apply fuelFor_enough.
  - intros Hshort.
    exists (docsChunks chunkSize overlap docs 0 0). intros fuel Hf.
    apply chunkDocuments_total.
    + unfold allAdvance. eapply Forall_impl; [exact Hshort|].
      intros d Hd. eapply Forall_impl; [exact Hd|].
      intros p Hp. unfold advances. cbn beta in Hp. lia.
    + by apply fuelFor_enough.
Qed.

Lemma chunkDocuments_terminates_witness :
  let docs := [DocumentInput.mk (S_ "A") (S_ "abc")] in
  (80 < 400
   /\ 0 < 400 - 80
   /\ exists result, forall fuel,
        (fuelFor docs <= fuel)%nat ->
        chunkDocuments 400 80 fuel docs = Some result)
  /\ (Forall (fun d => Forall (fun p => len p <= 5) (docParas d)) docs
      /\ exists result, forall fuel,
           (fuelFor docs <= fuel)%nat ->
           chunkDocuments 5 5 fuel docs = Some result).
Proof.
  intros docs. split.
  - split; [lia|].
    apply (chunkDocuments_terminates 400 80 docs). lia.
  - assert (Forall (fun d => Forall (fun p => len p <= 5) (docParas d)) docs)
      as Hshort.
    { repeat constructor. vm_compute. discriminate. }
    split; [exact Hshort|].
    exact (proj2 (chunkDocuments_terminates 5 5 docs) Hshort).
Defined.

(** ** The character fallback *)

(** C2, as stated, fails on its own example: a paragraph of 1000 characters
    with [chunkSize = 400] and [overlap = 80] is split into 4 windows
    (starting at 0, 320, 640 and 960), not into
    [ceil ((1000 - 80) / 320) = 3]. *)
Lemma fallback_window_count_counterexample :
  let p := repeat "a"%char 1000 in
  paragraphs (trim p) = [p]
  /\ len p = 1000
  /\ exists result,
       chunkDocuments 400 80 1001 [DocumentInput.mk (S_ "X") p] = Some result
       /\ map (fun c => (startChar c, len (text c))) result
          = [(0, 400); (320, 400); (640, 360); (960, 40)]
       /\ length result = 4%nat
       /\ len result <> ceilDiv (len p - 80) (400 - 80).
Proof.
  cbv zeta. split; [by vm_compute|]. split; [by vm_compute|].
  eexists. split; [by vm_compute|].
  split; [by vm_compute|]. split; [by vm_compute|]. by vm_compute.
Qed.

(** C2 (amended): for every paragraph of length [L > chunkSize], with
    [0 <= overlap < chunkSize], in whatever state the loop comes to it:
    the step pushes the buffer, if there is one, then exactly
    [ceil (L / (chunkSize - overlap))] windows, and leaves the buffer
    empty.  The [k]-th window starts at [k * (chunkSize - overlap)] of the
    paragraph and is the slice of [chunkSize] characters from there, so it
    has [min chunkSize (L - k * (chunkSize - overlap))] characters, at
    least 1 and at most [chunkSize]; what follows the first
    [chunkSize - overlap] characters of a window is the first [overlap]
    characters of the next one (all of it, when the next one is shorter
    than [overlap]).  In the result of a call these windows come one after
    the other, for every such paragraph of every document, with the index
    and the name of the document, ids that follow on, and offsets counted
    from the offset of the paragraph; no other chunk of the document
    starts inside the paragraph.  A document that is one such paragraph
    gives these windows and nothing else. *)
Theorem fallback_windows chunkSize overlap :
  0 <= overlap -> overlap < chunkSize ->
  let step := chunkSize - overlap in
  let count := fun para : str => Z.to_nat (ceilDiv (len para) step) in
  (forall fuel di dn o a para,
     chunkSize < len para -> (length para < fuel)%nat ->
     let flushed :=
       if truthy (currentChunk a)
       then [mkChunk (globalId o) (currentChunk a) di dn (currentStart a)]
       else [] in
     let firstId := (globalId o + length flushed)%nat in
     paraStep chunkSize overlap fuel di dn (o, a) para
     = Some (mkOut
               (chunks o ++ flushed
                ++ map (fallbackChunk chunkSize overlap di dn firstId
                          (charPos a) para)
                     (seq 0 (count para)))
               (firstId + count para),
             mkAcc [] (charPos a + len para) (charPos a + (len para + 2))))
  /\ (forall di dn firstId cp para,
        chunkSize < len para ->
        let w := fallbackChunk chunkSize overlap di dn firstId cp para in
        (forall k, (k < count para)%nat ->
           id (w k) = (firstId + k)%nat
           /\ startChar (w k) = cp + Z.of_nat k * step
           /\ text (w k)
              = slice para (Z.of_nat k * step) (Z.of_nat k * step + chunkSize)
           /\ len (text (w k))
              = Z.min chunkSize (len para - Z.of_nat k * step)
           /\ 0 < len (text (w k)) <= chunkSize)
        /\ (forall k, (S k < count para)%nat ->
              startChar (w (S k)) = startChar (w k) + step
              /\ drop (Z.to_nat step) (text (w k))
                 = take (Z.to_nat overlap) (text (w (S k)))
              /\ len (take (Z.to_nat overlap) (text (w (S k))))
                 = Z.min overlap (len (text (w (S k))))))
  /\ (forall docs fuel result i d j para,
        chunkDocuments chunkSize overlap fuel docs = Some result ->
        docs !! i = Some d -> docParas d !! j = Some para ->
        chunkSize < len para ->
        let base := len (normalized (take j (docParas d))) in
        exists pre post,
          result
          = pre
            ++ map (fallbackChunk chunkSize overlap i (DocumentInput.name d)
                      (length pre) base para)
                 (seq 0 (count para))
            ++ post
          /\ Forall (fun c =>
               (docIndex c < i)%nat
               \/ (docIndex c = i /\ startChar c < base)) pre
          /\ Forall (fun c =>
               (i < docIndex c)%nat
               \/ (docIndex c = i /\ base + len para < startChar c)) post)
  /\ (forall dn content p fuel,
        chunkSize < len p -> paragraphs (trim content) = [p] ->
        (length p < fuel)%nat ->
        chunkDocuments chunkSize overlap fuel [DocumentInput.mk dn content]
        = Some (map (fallbackChunk chunkSize overlap 0 dn 0 0 p)
                  (seq 0 (count p)))).
Proof.
  intros Ho Hv step count.
  assert (0 < step) as Hs by (unfold step; lia).
  assert (forall para k,
            (k < count para)%nat -> Z.of_nat k * step < len para) as Hk.
  { intros para k Hlt. pose proof (ceilDiv_spec (len para) _ Hs) as Hc.
    unfold count in Hlt. nia. }
  split; [|split; [|split]].
  - intros fuel di dn o a para Hl Hf flushed firstId.
    assert (advances chunkSize overlap para) as Hadv
      by (unfold advances; lia).
    destruct (paraStep_enough chunkSize overlap fuel di dn o a para Hadv Hf)
      as [[o' a'] E].
    rewrite E. apply paraStep_Some in E as (-> & -> & _).
    rewrite (paraPieces_long chunkSize overlap a para Hl). cbn [fst snd].
    do 2 f_equal.
    destruct (pushAll_chunks di dn o
                (flushPieces a
                 ++ windows chunkSize overlap para (charPos a)))
      as [Hc Hg].
    destruct (pushAll di dn o _) as [cs g]. cbn [chunks globalId] in Hc, Hg.
    subst cs g.
    assert (number di dn (globalId o) (flushPieces a) = flushed) as Hfl.
    { unfold flushPieces, flushed, number.
      destruct (truthy (currentChunk a)); [|done]. cbn.
      by rewrite Nat.add_0_r. }
    assert (length (flushPieces a) = length flushed) as Hlen
      by (by rewrite <- Hfl, number_length).
    assert (number di dn firstId (windows chunkSize overlap para (charPos a))
            = map (fallbackChunk chunkSize overlap di dn firstId
                     (charPos a) para) (seq 0 (count para))) as Hw
      by (apply number_windows; lia).
    rewrite number_app, Hfl, Hlen. fold firstId. rewrite Hw. f_equal.
    rewrite length_app, Hlen.
    rewrite <- (number_length di dn firstId
                  (windows chunkSize overlap para (charPos a))), Hw.
    rewrite length_map, length_seq. unfold firstId. lia.
  - intros di dn firstId cp para Hl w. split.
    + intros k Hlt. specialize (Hk para k Hlt). subst w.
      cbn [fallbackChunk id text startChar]. fold step.
      split; [done|]. split; [done|]. split; [done|].
      rewrite slice_length by nia. lia.
    + intros k Hlt. subst w. cbn [fallbackChunk text startChar]. fold step.
      pose proof (Hk para (S k) Hlt) as HSk.
      split; [lia|]. split.
      * rewrite (slice_shared para _ step chunkSize) by nia.
        f_equal; [unfold step; lia|]. f_equal; lia.
      * unfold len. rewrite length_take. lia.
  - intros docs fuel result i d j para E Hd Hj Hl base.
    apply chunkDocuments_inv in E as [-> _].
    destruct (docsChunks_around chunkSize overlap docs i d Hd)
      as (pre0 & post0 & -> & Hpre0 & Hpost0).
    destruct (pieces_around chunkSize overlap (DocumentInput.text d) j para
                Hs Hj Hl) as (before & after & -> & Hbefore & Hafter).
    fold (docParas d) in Hbefore, Hafter. fold base in Hbefore, Hafter.
    fold (docParas d). fold base.
    rewrite !number_app, number_windows by lia. fold step. fold (count para).
    exists (pre0 ++ number i (DocumentInput.name d) (length pre0) before),
      (number i (DocumentInput.name d)
         (length pre0 + length before
          + length (windows chunkSize overlap para base)) after ++ post0).
    split; [|split].
    + rewrite length_app, number_length. by rewrite <- !app_assoc.
    + apply Forall_app. split.
      * eapply Forall_impl; [exact Hpre0|]. intros c Hc. by left.
      * apply Forall_forall. intros c Hc.
        apply number_elem in Hc as (Hi & _ & Hp). right. split; [done|].
        rewrite Forall_forall in Hbefore. apply (Hbefore _ Hp).
    + apply Forall_app. split.
      * apply Forall_forall. intros c Hc.
        apply number_elem in Hc as (Hi & _ & Hp). right. split; [done|].
        rewrite Forall_forall in Hafter. apply (Hafter _ Hp).
      * eapply Forall_impl; [exact Hpost0|]. intros c Hc. by left.
  - intros dn content p fuel Hl Hp Hf.
    rewrite (chunkDocuments_total chunkSize overlap fuel).
    + f_equal. cbn [docsChunks DocumentInput.text DocumentInput.name].
      rewrite app_nil_r, (pieces_single _ _ _ p) by done.
      apply number_windows. lia.
    + apply allAdvance_valid. lia.
    + constructor; [|constructor]. unfold docParas.
      cbn [DocumentInput.text]. rewrite Hp. by repeat constructor.
Qed.

Lemma fallback_windows_witness :
  let X := S_ "X" in
  let result := [mkChunk 0 (S_ "ab") 0 X 0; mkChunk 1 (S_ "cdefgh") 0 X 4;
                 mkChunk 2 (S_ "ghijkl") 0 X 8; mkChunk 3 (S_ "kl") 0 X 12] in
  0 <= 2 /\ 2 < 6
  /\ chunkDocuments 6 2 11
       [DocumentInput.mk X (S_ "ab" ++ [LF; LF] ++ S_ "cdefghijkl")]
     = Some result
  /\ paraStep 6 2 11 0 X (mkOut [mkChunk 0 (S_ "ab") 0 X 0] 1, mkAcc [] 0 0)
       (S_ "cdefghijkl")
     = Some (mkOut [mkChunk 0 (S_ "ab") 0 X 0; mkChunk 1 (S_ "cdefgh") 0 X 0;
                    mkChunk 2 (S_ "ghijkl") 0 X 4; mkChunk 3 (S_ "kl") 0 X 8]
               4, mkAcc [] 10 12)
  /\ paraStep 6 2 11 0 X (mkOut [] 0, mkAcc (S_ "ab") 0 4) (S_ "cdefghijkl")
     = Some (mkOut result 4, mkAcc [] 14 16).
Proof.
  cbv zeta. split; [lia|]. split; [lia|]. split; [reflexivity|].
  destruct (fallback_windows 6 2 ltac:(lia) ltac:(lia)) as [HA _].
  split.
  - rewrite (HA 11%nat 0%nat (S_ "X") (mkOut [mkChunk 0 (S_ "ab") 0 (S_ "X") 0] 1)
               (mkAcc [] 0 0) (S_ "cdefghijkl")); [reflexivity| |].
    + vm_compute. reflexivity.
    + vm_compute. lia.
  - rewrite (HA 11%nat 0%nat (S_ "X") (mkOut [] 0) (mkAcc (S_ "ab") 0 4)
               (S_ "cdefghijkl")); [reflexivity| |].
    + vm_compute. reflexivity.
    + vm_compute. lia.
Defined.

(** ** Chunk size *)

(** C4: with valid size parameters ([overlap < chunkSize], [chunkSize] not
    negative) a call returns, and no returned chunk, whether it comes from
    the accumulation of paragraphs or from the character fallback, has a
    text longer than [chunkSize]. *)
Theorem chunk_size_bound chunkSize overlap docs :
  0 <= chunkSize -> overlap < chunkSize ->
  exists result,
    (forall fuel, (fuelFor docs <= fuel)%nat ->
       chunkDocuments chunkSize overlap fuel docs = Some result)
    /\ Forall (fun c => len (text c) <= chunkSize) result.
Proof.
  intros Hs Hv. exists (docsChunks chunkSize overlap docs 0 0). split.
  - intros fuel Hf. apply chunkDocuments_total.
    + by apply allAdvance_valid.
    + by apply fuelFor_enough.
  - apply Forall_forall. intros c Hc.
    apply docsChunks_elem in Hc as (d & _ & _ & _ & Hp).
    pose proof (pieces_size chunkSize overlap Hs Hv (DocumentInput.text d))
      as Hall.
    rewrite Forall_forall in Hall. by apply Hall in Hp.
Qed.

Lemma chunk_size_bound_witness :
  let docs := [DocumentInput.mk (S_ "A") (S_ "abcdefghij");
               DocumentInput.mk (S_ "B") (S_ "xy")] in
  0 <= 4 /\ 1 < 4
  /\ exists result,
       (forall fuel, (fuelFor docs <= fuel)%nat ->
          chunkDocuments 4 1 fuel docs = Some result)
       /\ Forall (fun c => len (text c) <= 4) result.
Proof.
  intros docs. split; [lia|]. split; [lia|].
  apply (chunk_size_bound 4 1 docs); lia.
Defined.

(** ** Chunk ids, order and source document *)

(** C5: a call with [overlap < chunkSize] returns, and in the result of
    any call that returns the [k]-th chunk has id [k], so that the ids are
    [0 .. n-1], unique and consecutive; the chunks come in document, then
    position order; the [docIndex] of a chunk is the index of a document of
    the input, [docName] is its name, and the text of the chunk is found
    at [startChar] in the normalized text of that one document. *)
Theorem chunk_ids_and_order chunkSize overlap docs :
  (overlap < chunkSize ->
   exists result, forall fuel,
     (fuelFor docs <= fuel)%nat ->
     chunkDocuments chunkSize overlap fuel docs = Some result)
  /\ forall fuel result,
       chunkDocuments chunkSize overlap fuel docs = Some result ->
       map id result = seq 0 (length result)
       /\ (forall j k cj ck,
             (j < k)%nat -> result !! j = Some cj -> result !! k = Some ck ->
             (docIndex cj < docIndex ck)%nat
             \/ (docIndex cj = docIndex ck /\ startChar cj < startChar ck))
       /\ (forall c, c ∈ result ->
             exists d,
               docs !! docIndex c = Some d
               /\ docName c = DocumentInput.name d
               /\ subAt (normalized (docParas d)) (startChar c) (text c)).
Proof.
  split.
  { intros Hv. exists (docsChunks chunkSize overlap docs 0 0).
    intros fuel Hf. apply chunkDocuments_total.
    - by apply allAdvance_valid.
    - by apply fuelFor_enough. }
  intros fuel result Hr. apply chunkDocuments_inv in Hr as [-> Hall].
  split; [|split].
  - apply list_eq. intros k. rewrite list_lookup_fmap.
    destruct (docsChunks chunkSize overlap docs 0 0 !! k) as [c|] eqn:Hk.
    + pose proof (lookup_lt_Some _ _ _ Hk) as Hlt.
      apply docsChunks_ids in Hk. cbn. rewrite Hk.
      by rewrite lookup_seq_lt.
    + apply lookup_ge_None in Hk. cbn. by rewrite lookup_seq_ge.
  - intros j k cj ck. by apply docsChunks_order.
  - intros c Hc. apply docsChunks_elem in Hc as (d & _ & Hd & Hn & Hp).
    rewrite Nat.sub_0_r in Hd. exists d. split; [done|]. split; [done|].
    unfold allAdvance in Hall. rewrite Forall_forall in Hall.
    apply list_elem_of_lookup_2 in Hd. specialize (Hall d Hd).
    destruct (pieces_struct chunkSize overlap _ Hall) as [Hsub _].
    rewrite Forall_forall in Hsub. by apply Hsub in Hp.
Qed.

Lemma chunk_ids_and_order_witness :
  let docs := [DocumentInput.mk (S_ "A") (S_ "abcdefghij");
               DocumentInput.mk (S_ "B") (S_ "xy")] in
  exists result,
    chunkDocuments 4 1 11 docs = Some result
    /\ map id result = seq 0 5
    /\ map id result = seq 0 (length result)
    /\ (forall j k cj ck,
          (j < k)%nat -> result !! j = Some cj -> result !! k = Some ck ->
          (docIndex cj < docIndex ck)%nat
          \/ (docIndex cj = docIndex ck /\ startChar cj < startChar ck))
    /\ (forall c, c ∈ result ->
          exists d,
            docs !! docIndex c = Some d
            /\ docName c = DocumentInput.name d
            /\ subAt (normalized (docParas d)) (startChar c) (text c)).
Proof.
  intros docs.
  exists (docsChunks 4 1 docs 0 0).
  split; [reflexivity|]. split; [reflexivity|].
  apply (proj2 (chunk_ids_and_order 4 1 docs) 11%nat). reflexivity.
Defined.

(** ** Coverage *)

(** C6: with [0 <= overlap < chunkSize] a call returns, and for every
    document of the input the texts of its chunks, concatenated without
    what a chunk repeats of the text before it, hold the characters of the
    trimmed document that are not white space: all of them, in reading
    order, and nothing else. *)
Theorem chunks_cover_document chunkSize overlap docs :
  0 <= overlap -> overlap < chunkSize ->
  exists result,
    (forall fuel, (fuelFor docs <= fuel)%nat ->
       chunkDocuments chunkSize overlap fuel docs = Some result)
    /\ forall i d,
         docs !! i = Some d ->
         nonBlank (stitch 0 (piecesOf i result))
         = nonBlank (trim (DocumentInput.text d)).
Proof.
  intros Ho Hv. exists (docsChunks chunkSize overlap docs 0 0). split.
  - intros fuel Hf. apply chunkDocuments_total.
    + by apply allAdvance_valid.
    + by apply fuelFor_enough.
  - intros i d Hd.
    pose proof (piecesOf_docsChunks chunkSize overlap docs 0 0 i d Hd) as E.
    rewrite Nat.add_0_l in E. rewrite E.
    by apply pieces_cover.
Qed.

Lemma chunks_cover_document_witness :
  let docs := [DocumentInput.mk (S_ "A") (S_ "  abcdefghij   klm ");
               DocumentInput.mk (S_ "B") (S_ "xy")] in
  0 <= 1 /\ 1 < 4
  /\ exists result,
       (forall fuel, (fuelFor docs <= fuel)%nat ->
          chunkDocuments 4 1 fuel docs = Some result)
       /\ forall i d,
            docs !! i = Some d ->
            nonBlank (stitch 0 (piecesOf i result))
            = nonBlank (trim (DocumentInput.text d)).
Proof.
  intros docs. split; [lia|]. split; [lia|].
  apply (chunks_cover_document 4 1 docs); lia.
Defined.

(** ** The BM25 scores *)



(** C7: every score that [bm25Search] computes is non-negative, for the
    chunks it returns and for those it does not; the smoothed [idf] of a
    term is non-negative (positive, in fact), also for a term that occurs
    in every chunk. *)
Theorem scores_nonnegative chunks query topK :
  Forall (fun c => (0 <= ScoredChunk.score c)%R) (scored chunks query)
  /\ Forall (fun c => (0 <= ScoredChunk.score c)%R)
       (bm25Search chunks query topK)
  /\ (forall t, (0 < idfOf (length chunks) (docFreq chunks t))%R)
  /\ (forall n, (0 < idfOf n n)%R).
Proof.
  split; [|split; [|split]].
  - rewrite scored_spec. apply Forall_forall. intros r Hr.
    apply list_elem_of_fmap in Hr as [c [-> _]]. cbn.
    apply specScore_nonneg.
  - apply Forall_forall. intros r Hr.
    apply bm25Search_elem in Hr as (c & _ & _ & ->). cbn.
    apply specScore_nonneg.
  - intros t. apply idfOf_pos, docFreq_le.
  - intros n. by apply idfOf_pos.
Qed.

(** ** The result of a search *)

(** C8, as stated, fails for a negative [topK]: [slice(0, -1)] drops the
    last entry only, so that the search for ["food"] in two chunks that
    both hold it returns one entry, which is more than [-1]. *)
Lemma search_negative_topK_counterexample :
  length (bm25Search [dogChunk; catChunk] (S_ "food") (-1)) = 1%nat
  /\ ~ len (bm25Search [dogChunk; catChunk] (S_ "food") (-1)) <= -1.
Proof.
  assert (length (bm25Search [dogChunk; catChunk] (S_ "food") (-1)) = 1%nat)
    as E by (rewrite bm25Search_length; reflexivity).
  split; [done|]. unfold len. rewrite E. lia.
Qed.

(** C8 (amended): the entries that a search returns have a score above
    [0] and come in descending order of score, for every [topK]; when
    [topK] is not negative there are at most [topK] of them. *)
Theorem search_topK chunks query topK :
  (0 <= topK -> len (bm25Search chunks query topK) <= topK)
  /\ Forall (fun c => (0 < ScoredChunk.score c)%R)
       (bm25Search chunks query topK)
  /\ descending (bm25Search chunks query topK).
Proof.
  split; [|split].
  - intros Hk. unfold bm25Search. destruct chunks; [unfold len; cbn; lia|].
    replace topK with (0 + topK) at 1 by lia.
    apply slice_length_le; lia.
  - apply Forall_forall. intros r Hr.
    pose proof (elem_of_sublist _ _ _ Hr
                  (bm25Search_sublist chunks query topK)) as Hs.
    rewrite sortByScore_perm in Hs.
    apply list_elem_of_In, filter_In in Hs as [_ Hp].
    by apply isPositive_true.
  - unfold bm25Search. destruct chunks as [|c l].
    + intros i j x y _ Hi. by rewrite lookup_nil in Hi.
    + rewrite slice_0_take. apply descending_take, StronglySorted_descending,
        sortByScore_sorted.
Qed.

Lemma search_topK_witness :
  0 <= 1 /\ len (bm25Search [dogChunk; catChunk] (S_ "food") 1) <= 1.
Proof.
  split; [lia|].
  apply (search_topK [dogChunk; catChunk] (S_ "food") 1). lia.
Defined.

(** C9: a call on a store in which [chunksRef] is an array of chunks
    returns; every cell of the store before the call, the array of chunks
    and the chunks among them, is in the store after the call as it was;
    the entries of the returned array are entries of distinct input
    chunks, and each has the [id], [text], [docIndex], [docName] and
    [startChar] of its chunk and, besides them, only the score and the
    matched terms of that chunk. *)
Theorem search_preserves_chunks h chunksRef chunks query topK :
  readChunks h chunksRef = Some chunks ->
  exists res h' entries,
    bm25SearchOn h chunksRef query topK = Some (res, h')
    /\ h ⊆ h'
    /\ readChunks h' chunksRef = Some chunks
    /\ readEntries h' res = Some entries
    /\ entries.*2 = bm25Search chunks query topK
    /\ map toChunk (entries.*2) ⊆+ chunks
    /\ Forall (fun r =>
         exists c,
           c ∈ chunks
           /\ ScoredChunk.id r = id c
           /\ ScoredChunk.text r = text c
           /\ ScoredChunk.docIndex r = docIndex c
           /\ ScoredChunk.docName r = docName c
           /\ ScoredChunk.startChar r = startChar c
           /\ ScoredChunk.score r = specScore chunks query c
           /\ ScoredChunk.termMatches r = specMatches query c)
         (entries.*2).
Proof.
  intros Hread.
  destruct (bm25SearchOn_spec h chunksRef chunks query topK Hread)
    as (res & h' & entries & Hcall & Hsub & Hentries & Hsnd).
  exists res, h', entries.
  split; [done|]. split; [done|].
  split; [by apply (readChunks_weaken h)|].
  split; [done|]. split; [done|]. rewrite Hsnd.
  apply bm25Search_fields.
Qed.

Lemma search_preserves_chunks_witness :
  let h : Store :=
    {[ 1%positive := ChunkCell dogChunk; 2%positive := ChunkCell catChunk;
       3%positive := ArrayCell [1%positive; 2%positive] ]} in
  readChunks h 3%positive = Some [dogChunk; catChunk]
  /\ exists res h' entries,
       bm25SearchOn h 3%positive (S_ "food") 5 = Some (res, h')
       /\ h ⊆ h'
       /\ readChunks h' 3%positive = Some [dogChunk; catChunk]
       /\ readEntries h' res = Some entries
       /\ entries.*2 = bm25Search [dogChunk; catChunk] (S_ "food") 5
       /\ map toChunk (entries.*2) ⊆+ [dogChunk; catChunk]
       /\ Forall (fun r =>
            exists c,
              c ∈ [dogChunk; catChunk]
              /\ ScoredChunk.id r = id c
              /\ ScoredChunk.text r = text c
              /\ ScoredChunk.docIndex r = docIndex c
              /\ ScoredChunk.docName r = docName c
              /\ ScoredChunk.startChar r = startChar c
              /\ ScoredChunk.score r
                 = specScore [dogChunk; catChunk] (S_ "food") c
              /\ ScoredChunk.termMatches r = specMatches (S_ "food") c)
            (entries.*2).
Proof.
  intros h. split; [reflexivity|].
  apply (search_preserves_chunks h 3%positive [dogChunk; catChunk]
           (S_ "food") 5).
  reflexivity.
Defined.

(** C10: every entry that a search returns has matched terms, and every
    matched term is a token of the query and a token of the text of the
    chunk; in [scored], an entry with a score above [0] has matched terms,
    so that a chunk in which no query term occurs is not returned. *)
Theorem returned_chunks_match chunks query topK :
  Forall (fun r =>
       ScoredChunk.termMatches r <> []
       /\ forall t, t ∈ ScoredChunk.termMatches r ->
            t ∈ tokenize query /\ t ∈ tokenize (ScoredChunk.text r))
    (bm25Search chunks query topK)
  /\ Forall (fun r =>
       (0 < ScoredChunk.score r)%R -> ScoredChunk.termMatches r <> [])
       (scored chunks query)
  /\ Forall (fun r =>
       exists t, t ∈ tokenize query /\ t ∈ tokenize (ScoredChunk.text r))
       (bm25Search chunks query topK).
Proof.
  assert (forall r, r ∈ bm25Search chunks query topK ->
            ScoredChunk.termMatches r <> []
            /\ forall t, t ∈ ScoredChunk.termMatches r ->
                 t ∈ tokenize query /\ t ∈ tokenize (ScoredChunk.text r))
    as Hret.
  { intros r Hr. apply bm25Search_elem in Hr as (c & Hc & Hm & ->). cbn.
    split.
    - unfold hasMatch in Hm. by destruct (specMatches query c).
    - intros t Ht. by apply elem_of_specMatches. }
  split; [|split].
  - by apply Forall_forall.
  - rewrite scored_spec. apply Forall_forall. intros r Hr.
    apply list_elem_of_fmap in Hr as [c [-> Hc]]. cbn.
    by apply specScore_pos_iff.
  - apply Forall_forall. intros r Hr. destruct (Hret r Hr) as [Hne Hin].
    destruct (ScoredChunk.termMatches r) as [|t l] eqn:E; [done|].
    exists t. apply Hin. by left.
Qed.

(** * Further properties of the code *)

(** ** The tokenizer *)

(** X1: every token that [tokenize] returns has more than two code units,
    all of them in [a-z0-9]: no capital, no white space, no punctuation. *)
Theorem tokens_are_lowercase_words s :
  Forall (fun t => (2 < length t)%nat
                   /\ Forall (fun c => isLowerAlnum c = true) t)
    (tokenize s).
Proof. apply tokenize_words. Qed.

(** X2: a token is tokenized to itself: the terms of an index and of a
    query can be fed to [tokenize] again without change. *)
Theorem tokenize_token s t : t ∈ tokenize s -> tokenize t = [t].
Proof.
  intros Ht. pose proof (tokenize_words s) as Hall.
  rewrite Forall_forall in Hall. destruct (Hall t Ht) as [Hlen Hc].
  by apply tokenize_word.
Qed.

Lemma tokenize_token_witness :
  S_ "food" ∈ tokenize (S_ "Dog FOOD, recipes!")
  /\ tokenize (S_ "food") = [S_ "food"].
Proof.
  assert (S_ "food" ∈ tokenize (S_ "Dog FOOD, recipes!")) as H.
  { vm_compute. apply list_elem_of_In. right. left. reflexivity. }
  split; [exact H|]. exact (tokenize_token _ _ H).
Defined.

(** X3: [tokenize] does not see the case of letters. *)
Theorem tokenize_ignores_case s : tokenize (map toLowerCase s) = tokenize s.
Proof.
  rewrite !tokenize_normalize, map_map. do 2 f_equal.
  apply map_ext. intros c. apply normalizeChar_toLowerCase.
Qed.

(** X4: a separator ends a token, a separator being a code unit whose
    lower case is not in [a-z0-9]: the tokens of a text around a separator
    are the tokens of what is before it, then the tokens of what is after
    it; and a text of separators only has no token.  Among the code units
    of the model, those below 256, the separators are the ones that are
    not a letter of [a-z] or [A-Z] nor a digit. *)
Theorem tokenize_separator s c t :
  isSeparator c = true ->
  tokenize (s ++ c :: t) = tokenize s ++ tokenize t
  /\ (Forall (fun d => isSeparator d = true) s -> tokenize s = []).
Proof.
  intros Hc. split; [by apply tokenize_app_separator|].
  apply tokenize_separators.
Qed.

Lemma tokenize_separator_witness :
  isSeparator ","%char = true
  /\ tokenize (S_ "dog food" ++ ","%char :: S_ "cat food")
     = tokenize (S_ "dog food") ++ tokenize (S_ "cat food").
Proof.
  split; [reflexivity|].
  apply (tokenize_separator (S_ "dog food") ","%char (S_ "cat food")).
  reflexivity.
Defined.

(** ** The index *)

(** X5: [buildIndex] returns the counts of the chunk list: [N] is the
    number of chunks, [tf] and [docLengths] have one entry for each chunk,
    [tf[i]] holds for every term the number of its occurrences among the
    tokens of chunk [i] (0 when the term is not a key), [df] the number of
    chunks with an occurrence, [docLengths[i]] the number of tokens of
    chunk [i], and [avgdl] is their sum divided by [N]. *)
Theorem buildIndex_counts chunks :
  let idx := buildIndex chunks in
  N idx = length chunks
  /\ length (tf idx) = length chunks
  /\ docLengths idx = map (fun c => length (tokenize (text c))) chunks
  /\ avgdl idx = (INR (list_sum (docLengths idx)) / INR (N idx))%R
  /\ (forall t, getOr0 (df idx) t
                = length (List.filter
                            (fun c => bool_decide (t ∈ tokenize (text c)))
                            chunks))
  /\ (forall i c, chunks !! i = Some c ->
        exists m, tf idx !! i = Some m
                  /\ forall t, getOr0 m t
                               = occurrences t (tokenize (text c))).
Proof.
  destruct (buildIndex_full chunks)
    as (HN & Hlen & Hdl & Havg & Hdf & Htf & _).
  cbn zeta. split; [done|]. split; [done|]. split; [done|].
  split; [by rewrite Havg, Hdl, HN|]. split; [|done].
  intros t. rewrite Hdf. unfold docFreq. f_equal.
  apply filter_ext. intros c. unfold freq.
  destruct (Nat.ltb_spec 0 (occurrences t (tokenize (text c)))) as [H|H].
  - symmetry. by apply bool_decide_eq_true, occurrences_pos.
  - symmetry. apply bool_decide_eq_false. intros Hin%occurrences_pos. lia.
Qed.

(** X6: the keys of the maps of the index are the terms that occur: a term
    is a key of [tf[i]] exactly when it is a token of chunk [i] and a key
    of [df] exactly when it is a token of some chunk, and no map holds a
    count of 0. *)
Theorem index_keys chunks :
  let idx := buildIndex chunks in
  (forall i c m t,
     chunks !! i = Some c -> tf idx !! i = Some m ->
     is_Some (m !! t) <-> t ∈ tokenize (text c))
  /\ (forall t,
        is_Some (df idx !! t)
        <-> exists c, c ∈ chunks /\ t ∈ tokenize (text c))
  /\ Forall positiveCounts (tf idx)
  /\ positiveCounts (df idx).
Proof.
  destruct (buildIndex_full chunks)
    as (_ & _ & _ & _ & Hdf & Htf & Hp1 & Hp2).
  cbn zeta. split; [|split; [|done]].
  - intros i c m t Hi Hm. destruct (Htf i c Hi) as (m' & Hm' & Hc).
    assert (m' = m) as -> by congruence.
    assert (positiveCounts m) as Hpos.
    { rewrite Forall_forall in Hp1. apply Hp1.
      by eapply list_elem_of_lookup_2. }
    rewrite <- not_eq_None_Some, (positiveCounts_getOr0 m t Hpos), Hc.
    unfold freq. rewrite <- occurrences_pos. lia.
  - intros t.
    rewrite <- not_eq_None_Some, (positiveCounts_getOr0 _ t Hp2), Hdf.
    split.
    + intros Hd. assert (0 < docFreq chunks t)%nat as Hpos by lia.
      unfold docFreq in Hpos.
      destruct (List.filter _ chunks) as [|c l] eqn:Hf; [cbn in Hpos; lia|].
      assert (In c (List.filter (fun c => (0 <? freq t c)%nat) chunks))
        as Hin by (rewrite Hf; by left).
      apply filter_In in Hin as [Hin Hfreq]. apply Nat.ltb_lt in Hfreq.
      exists c. split; [by apply list_elem_of_In|].
      by apply occurrences_pos.
    + intros (c & Hc & Ht). apply occurrences_pos in Ht.
      pose proof (freq_docFreq chunks c t Hc Ht). lia.
Qed.

(** X7: in the index no document frequency is above [N], no term count of
    a chunk is above the length of that chunk, and a term that is counted
    in a chunk has a document frequency of at least 1: the division by
    [termDf + 0.5] and the logarithm of the score are on positive
    numbers. *)
Theorem index_bounds chunks :
  let idx := buildIndex chunks in
  (forall t, (getOr0 (df idx) t <= N idx)%nat)
  /\ (forall i t,
        (i < length chunks)%nat ->
        (getOr0 (tf idx !!! i) t <= docLengths idx !!! i)%nat
        /\ ((0 < getOr0 (tf idx !!! i) t)%nat ->
            (0 < getOr0 (df idx) t)%nat /\ (0 < avgdl idx)%R)).
Proof.
  destruct (buildIndex_spec chunks) as (HN & Havg & Hdf & Htf & Hdl).
  cbn zeta. split.
  - intros t. rewrite Hdf, HN. apply docFreq_le.
  - intros i t Hi. destruct (lookup_lt_is_Some_2 chunks i Hi) as [c Hc].
    rewrite (Htf i c t Hc), (Hdl i c Hc), Hdf, Havg. split.
    + apply occurrences_le.
    + intros Hpos.
      pose proof (freq_docFreq chunks c t
                    (list_elem_of_lookup_2 _ _ _ Hc) Hpos) as Hd.
      split; [done|]. by apply (meanTokenCount_pos chunks t).
Qed.

Lemma index_bounds_witness :
  let idx := buildIndex [dogChunk; catChunk] in
  (1 < length [dogChunk; catChunk])%nat
  /\ (getOr0 (tf idx !!! 1%nat) (S_ "food") <= docLengths idx !!! 1%nat)%nat.
Proof.
  cbv zeta. split; [cbn; lia|].
  apply (index_bounds [dogChunk; catChunk]). cbn. lia.
Defined.

(** ** The terms of a score *)

(** X8: the two factors of a term of the score.  The term-frequency
    factor saturates: it is at least 0 and stays below [k1 + 1 = 2.5],
    however often the term occurs; it does not fall when the term occurs
    more often, and does not rise when the chunk is longer.  The inverse
    document frequency does not rise with the document frequency: of two
    terms, the one that occurs in fewer chunks weighs at least as much. *)
Theorem score_factors_shape termTf dl avg n d :
  (0 < avg)%R ->
  (0 <= tfNormOf termTf dl avg < k1 + 1)%R
  /\ (forall termTf',
        (termTf <= termTf')%nat ->
        (tfNormOf termTf dl avg <= tfNormOf termTf' dl avg)%R)
  /\ (forall dl',
        (dl <= dl')%nat ->
        (tfNormOf termTf dl' avg <= tfNormOf termTf dl avg)%R)
  /\ (forall d', (d <= d')%nat -> (idfOf n d' <= idfOf n d)%R).
Proof.
  intros Ha. split; [split|split; [|split]].
  - by apply tfNormOf_nonneg.
  - by apply tfNormOf_bound.
  - intros termTf' Ht. by apply tfNormOf_mono_tf.
  - intros dl' Hd. by apply tfNormOf_anti_length.
  - intros d' Hd. by apply idfOf_anti.
Qed.

Lemma score_factors_shape_witness :
  (0 < 4)%R /\ (0 <= tfNormOf 7 9 4 < k1 + 1)%R.
Proof.
  split; [lra|]. apply (score_factors_shape 7 9 4 2 1). lra.
Defined.

(** ** More on the result of a search *)

(** X9: a search returns no entry when there is no chunk, when [topK] is
    0, and when no token of the query is a token of a chunk, which is so
    for a query without a token. *)
Theorem search_empty chunks query topK :
  bm25Search [] query topK = []
  /\ bm25Search chunks query 0 = []
  /\ ((forall c t,
         c ∈ chunks -> t ∈ tokenize query -> t ∉ tokenize (text c)) ->
      bm25Search chunks query topK = [])
  /\ (tokenize query = [] -> bm25Search chunks query topK = []).
Proof.
  assert ((forall c t,
             c ∈ chunks -> t ∈ tokenize query -> t ∉ tokenize (text c)) ->
          bm25Search chunks query topK = []) as Hnone.
  { intros Hno. rewrite bm25Search_spec.
    replace (List.filter (hasMatch query) chunks) with (@nil Chunk).
    - cbn. by rewrite slice_0_take, take_nil.
    - symmetry. induction chunks as [|c l IH]; [done|]. cbn [List.filter].
      assert (hasMatch query c = false) as ->.
      { unfold hasMatch. destruct (specMatches query c) as [|t m] eqn:E; [done|].
        assert (t ∈ specMatches query c) as Ht by (rewrite E; by left).
        apply elem_of_specMatches in Ht as [Hq Hc].
        destruct (Hno c t); [by left|done..]. }
      apply IH. intros c' t Hc'. apply Hno. by right. }
  split; [done|]. split; [|split; [done|]].
  - rewrite bm25Search_take.
    replace (relIndex _ 0) with 0; [done|]. unfold relIndex. cbn.
    pose proof (len_nonneg (sortByScore
                              (List.filter isPositive (scored chunks query)))).
    lia.
  - intros E. apply Hnone. intros c t _ Ht. rewrite E in Ht.
    by apply elem_of_nil in Ht.
Qed.

(** X10: the last stage of a search, [filter], [sort] and [slice], keeps
    ties in the order of the array.  For every array of entries, whatever
    their scores are, and every score [s]: the entries with score [s] of
    the outcome are the first ones, in the order of the array, of the
    entries with score [s] that pass the filter.  A tie is an equality of
    the scores as they are in the array. *)
Theorem ranking_keeps_ties_in_order (entries : list ScoredChunk.t) topK s :
  List.filter (hasScore s)
    (slice (sortByScore (List.filter isPositive entries)) 0 topK)
  `prefix_of` List.filter (hasScore s) (List.filter isPositive entries).
Proof.
  rewrite slice_0_take.
  rewrite <- (sortByScore_stable s (List.filter isPositive entries)).
  apply filter_take_prefix.
Qed.

(** X11: the entries returned are the best ones: together with the
    entries left out they are the entries that passed the filter, each
    once, and no entry left out has a higher score than an entry
    returned. *)
Theorem search_returns_best chunks query topK :
  exists rest,
    bm25Search chunks query topK ++ rest
    ≡ₚ List.filter isPositive (scored chunks query)
    /\ forall r x,
         r ∈ bm25Search chunks query topK -> x ∈ rest ->
         (ScoredChunk.score x <= ScoredChunk.score r)%R.
Proof.
  rewrite bm25Search_take.
  set (sorted := sortByScore (List.filter isPositive (scored chunks query))).
  set (n := Z.to_nat (relIndex (len sorted) topK)).
  exists (drop n sorted). split.
  - rewrite take_drop. apply sortByScore_perm.
  - intros r x Hr Hx.
    apply (StronglySorted_app_1_elem_of scoreGe (take n sorted) (drop n sorted));
      [|done..].
    rewrite take_drop. apply sortByScore_sorted.
Qed.

(** X12: with a [topK] of at least the number of chunks nothing is cut:
    the result holds the entry of every chunk in which a token of the
    query occurs. *)
Theorem search_complete chunks query topK :
  len chunks <= topK ->
  bm25Search chunks query topK ≡ₚ List.filter isPositive (scored chunks query)
  /\ forall c t,
       c ∈ chunks -> t ∈ tokenize query -> t ∈ tokenize (text c) ->
       exists r, r ∈ bm25Search chunks query topK /\ toChunk r = c.
Proof.
  intros Hk.
  assert (bm25Search chunks query topK
          = sortByScore (List.filter isPositive (scored chunks query))) as E.
  { rewrite bm25Search_take. apply take_ge.
    set (sorted := sortByScore (List.filter isPositive (scored chunks query))).
    assert (length sorted <= length chunks)%nat as Hle.
    { unfold sorted. rewrite sortByScore_perm.
      etransitivity; [apply sublist_length, filter_sublist|].
      by rewrite scored_spec, length_map. }
    unfold relIndex, len in *.
    destruct (Z.ltb_spec topK 0); lia. }
  split; [rewrite E; apply sortByScore_perm|].
  intros c t Hc Hq Ht. exists (specScored chunks query c).
  split; [|apply toChunk_specScored].
  rewrite E, sortByScore_perm, positive_scored.
  apply list_elem_of_fmap. exists c. split; [done|].
  apply list_elem_of_In, filter_In. split; [by apply list_elem_of_In|].
  unfold hasMatch.
  destruct (specMatches query c) as [|u m] eqn:Em; [|done].
  assert (t ∈ specMatches query c) as Hin
    by (apply elem_of_specMatches; by split).
  rewrite Em in Hin. by apply elem_of_nil in Hin.
Qed.

Lemma search_complete_witness :
  len [dogChunk; catChunk] <= 5
  /\ bm25Search [dogChunk; catChunk] (S_ "food") 5
     ≡ₚ List.filter isPositive (scored [dogChunk; catChunk] (S_ "food")).
Proof.
  assert (len [dogChunk; catChunk] <= 5) as H by (unfold len; cbn; lia).
  split; [exact H|].
  apply (search_complete [dogChunk; catChunk] (S_ "food") 5 H).
Defined.

(** X13: a search does not see the case of the letters of the query, nor
    a repetition of the query after a separator. *)
Theorem search_query_normalized chunks query c topK :
  isSeparator c = true ->
  bm25Search chunks (map toLowerCase query) topK
  = bm25Search chunks query topK
  /\ bm25Search chunks (query ++ c :: query) topK
     = bm25Search chunks query topK.
Proof.
  intros Hc. split; apply bm25Search_query.
  - f_equal. rewrite !tokenize_normalize, map_map. do 2 f_equal.
    apply map_ext. intros d. apply normalizeChar_toLowerCase.
  - rewrite tokenize_app_separator by done. apply distinct_twice.
Qed.

Lemma search_query_normalized_witness :
  isSeparator " "%char = true
  /\ bm25Search [dogChunk; catChunk] (S_ "food" ++ " "%char :: S_ "food") 5
     = bm25Search [dogChunk; catChunk] (S_ "food") 5.
Proof.
  split; [reflexivity|].
  apply (search_query_normalized [dogChunk; catChunk] (S_ "food") " "%char 5).
  reflexivity.
Defined.

(** X14: the matched terms of an entry hold no term twice, and they come
    in the order of their first occurrence in the query: they are picked,
    in order, from the distinct tokens of the query, and of two matched
    terms the one that comes first occurs in the query before any
    occurrence of the other. *)
Theorem termMatches_distinct_in_query_order chunks query topK :
  Forall (fun r =>
       NoDup (ScoredChunk.termMatches r)
       /\ ScoredChunk.termMatches r
          `sublist_of` distinct ∅ (tokenize query)
       /\ forall i j t u,
            (i < j)%nat ->
            ScoredChunk.termMatches r !! i = Some t ->
            ScoredChunk.termMatches r !! j = Some u ->
            exists m,
              tokenize query !! m = Some t
              /\ u ∉ take m (tokenize query))
    (bm25Search chunks query topK).
Proof.
  apply Forall_forall. intros r Hr.
  apply bm25Search_elem in Hr as (c & _ & _ & ->). cbn.
  unfold specMatches. split; [|split].
  - apply filter_NoDup, distinct_NoDup.
  - apply filter_sublist.
  - intros i j t u Hij Hi Hj.
    destruct (sublist_lookup_lt _ _ i j t u
                (filter_sublist _ (distinct ∅ (tokenize query))) Hij Hi Hj)
      as (i' & j' & Hlt & Hi' & Hj').
    by apply (distinct_order ∅ (tokenize query) i' j').
Qed.

(** X15: in [scored] the score of an entry is 0 exactly when it has no
    matched term, that is when no token of the query is a token of its
    chunk. *)
Theorem score_zero_iff_no_match chunks query :
  Forall (fun r =>
       (ScoredChunk.score r = 0%R <-> ScoredChunk.termMatches r = [])
       /\ (ScoredChunk.termMatches r = []
           <-> forall t, t ∈ tokenize query ->
                         t ∉ tokenize (ScoredChunk.text r)))
    (scored chunks query).
Proof.
  rewrite scored_spec. apply Forall_forall. intros r Hr.
  apply list_elem_of_fmap in Hr as [c [-> Hc]]. cbn.
  pose proof (specScore_pos_iff chunks query c Hc) as Hiff.
  pose proof (specScore_nonneg chunks query c) as Hnn.
  split; split.
  - intros E. destruct (specMatches query c) as [|t m] eqn:Em; [done|].
    assert (0 < specScore chunks query c)%R by (by apply Hiff). lra.
  - intros E. destruct (Rle_lt_or_eq_dec _ _ Hnn) as [Hlt|Heq]; [|done].
    by apply Hiff in Hlt.
  - intros E t Hq Ht.
    assert (t ∈ specMatches query c) as Hin
      by (apply elem_of_specMatches; by split).
    rewrite E in Hin. by apply elem_of_nil in Hin.
  - intros Hno. destruct (specMatches query c) as [|t m] eqn:Em; [done|].
    assert (t ∈ specMatches query c) as Hin by (rewrite Em; by left).
    apply elem_of_specMatches in Hin as [Hq Ht]. by destruct (Hno t).
Qed.

(** ** More on the chunker *)

(** X16: a call returns exactly when [overlap < chunkSize] or no paragraph
    is longer than [chunkSize]: with a paragraph longer than [chunkSize]
    and [overlap >= chunkSize] the fallback loop never ends, whatever the
    other documents are. *)
Theorem chunkDocuments_returns_iff chunkSize overlap docs :
  ((exists fuel result,
      chunkDocuments chunkSize overlap fuel docs = Some result)
   <-> overlap < chunkSize \/ allShort chunkSize docs)
  /\ (forall d p,
        d ∈ docs -> p ∈ docParas d -> chunkSize < len p ->
        chunkSize <= overlap ->
        forall fuel, chunkDocuments chunkSize overlap fuel docs = None).
Proof.
  assert (forall d p fuel,
            d ∈ docs -> p ∈ docParas d -> chunkSize < len p ->
            chunkSize <= overlap ->
            chunkDocuments chunkSize overlap fuel docs = None) as Hnever.
  { intros d p fuel Hd Hp Hlong Hov.
    destruct (chunkDocuments chunkSize overlap fuel docs) as [r|] eqn:E;
      [|done].
    apply chunkDocuments_inv in E as [_ Hadv].
    unfold allAdvance in Hadv. rewrite Forall_forall in Hadv.
    pose proof (Hadv d Hd) as Hdp. rewrite Forall_forall in Hdp.
    pose proof (Hdp p Hp) as Ha. unfold advances in Ha.
    pose proof (len_nonneg p). destruct (decide (0 < len p)); [lia|].
    pose proof (paragraphs_truthy (trim (DocumentInput.text d))) as Hpos.
    rewrite Forall_forall in Hpos. specialize (Hpos p Hp). lia. }
  split; [split|].
  - intros (fuel & result & E).
    destruct (decide (overlap < chunkSize)) as [|Hov]; [by left|right].
    apply Forall_forall. intros d Hd. apply Forall_forall. intros p Hp.
    destruct (decide (len p <= chunkSize)) as [|Hlong]; [done|].
    rewrite (Hnever d p fuel) in E; [done..|lia|lia].
  - intros [Hov|Hshort].
    + exists (fuelFor docs), (docsChunks chunkSize overlap docs 0 0).
      apply chunkDocuments_total;
        [by apply allAdvance_valid|by apply fuelFor_enough].
    + exists O, (docsChunks chunkSize overlap docs 0 0).
      by apply chunkDocuments_short.
  - intros d p Hd Hp Hlong Hov fuel. by apply (Hnever d p).
Qed.

(** X17: documents are chunked one by one: the chunks of two document
    lists put together are the chunks of the first list, followed by the
    chunks of the second list with their [docIndex] and [id] counted on
    from the first. *)
Theorem chunks_of_concatenation chunkSize overlap docs1 docs2
    fuel1 fuel2 r1 r2 :
  chunkDocuments chunkSize overlap fuel1 docs1 = Some r1 ->
  chunkDocuments chunkSize overlap fuel2 docs2 = Some r2 ->
  forall fuel,
    (fuelFor (docs1 ++ docs2) <= fuel)%nat ->
    chunkDocuments chunkSize overlap fuel (docs1 ++ docs2)
    = Some (r1 ++ map (renumber (length docs1) (length r1)) r2).
Proof.
  intros E1 E2 fuel Hf.
  apply chunkDocuments_inv in E1 as [-> Ha1].
  apply chunkDocuments_inv in E2 as [-> Ha2].
  rewrite chunkDocuments_total.
  - rewrite docsChunks_app, <- docsChunks_renumber. done.
  - unfold allAdvance in *. by apply Forall_app.
  - by apply fuelFor_enough.
Qed.

Lemma chunks_of_concatenation_witness :
  let a := DocumentInput.mk (S_ "A") (S_ "abc") in
  let b := DocumentInput.mk (S_ "B") (S_ "de") in
  chunkDocuments 5 2 1 [a] = Some [mkChunk 0 (S_ "abc") 0 (S_ "A") 0]
  /\ chunkDocuments 5 2 1 [b] = Some [mkChunk 0 (S_ "de") 0 (S_ "B") 0]
  /\ (fuelFor ([a] ++ [b]) <= 4)%nat
  /\ chunkDocuments 5 2 4 ([a] ++ [b])
     = Some ([mkChunk 0 (S_ "abc") 0 (S_ "A") 0]
             ++ map (renumber 1 1) [mkChunk 0 (S_ "de") 0 (S_ "B") 0]).
Proof.
  cbv zeta.
  assert (chunkDocuments 5 2 1 [DocumentInput.mk (S_ "A") (S_ "abc")]
          = Some [mkChunk 0 (S_ "abc") 0 (S_ "A") 0]) as Ha by reflexivity.
  assert (chunkDocuments 5 2 1 [DocumentInput.mk (S_ "B") (S_ "de")]
          = Some [mkChunk 0 (S_ "de") 0 (S_ "B") 0]) as Hb by reflexivity.
  assert (fuelFor ([DocumentInput.mk (S_ "A") (S_ "abc")]
                   ++ [DocumentInput.mk (S_ "B") (S_ "de")]) <= 4)%nat
    as Hf by (vm_compute; lia).
  split; [exact Ha|]. split; [exact Hb|]. split; [exact Hf|].
  exact (chunks_of_concatenation 5 2 _ _ 1%nat 1%nat _ _ Ha Hb 4%nat Hf).
Defined.

(** X18: in the result of a call that returns, a document has a chunk
    exactly when its text is not blank: a document of white space only is
    skipped (its index is still counted), and no other document is. *)
Theorem document_has_chunk_iff_not_blank chunkSize overlap fuel docs result :
  chunkDocuments chunkSize overlap fuel docs = Some result ->
  forall i d,
    docs !! i = Some d ->
    (exists c, c ∈ result /\ docIndex c = i)
    <-> nonBlank (DocumentInput.text d) <> [].
Proof.
  intros E i d Hd. apply chunkDocuments_inv in E as [-> Hadv].
  pose proof (piecesOf_docsChunks chunkSize overlap docs 0 0 i d Hd) as Hp.
  cbn [Nat.add] in Hp.
  assert (Forall (advances chunkSize overlap)
            (paragraphs (trim (DocumentInput.text d)))) as Had.
  { unfold allAdvance in Hadv. rewrite Forall_forall in Hadv.
    apply Hadv. by eapply list_elem_of_lookup_2. }
  split.
  - intros (c & Hc & Hi) Hb.
    rewrite (pieces_blank chunkSize overlap _ Hb) in Hp.
    unfold piecesOf in Hp. apply map_eq_nil in Hp.
    assert (In c (List.filter (fun c => (docIndex c =? i)%nat)
                    (docsChunks chunkSize overlap docs 0 0))) as Hin.
    { apply filter_In. split; [by apply list_elem_of_In|].
      by apply Nat.eqb_eq. }
    by rewrite Hp in Hin.
  - intros Hnb.
    pose proof (pieces_nonblank chunkSize overlap _ Had Hnb) as Hne.
    rewrite <- Hp in Hne. unfold piecesOf in Hne.
    destruct (List.filter _ _) as [|c l] eqn:Ef; [done|].
    assert (In c (List.filter (fun c => (docIndex c =? i)%nat)
                    (docsChunks chunkSize overlap docs 0 0))) as Hin
      by (rewrite Ef; by left).
    apply filter_In in Hin as [Hin Hi]. exists c.
    split; [by apply list_elem_of_In|by apply Nat.eqb_eq].
Qed.

Lemma document_has_chunk_iff_not_blank_witness :
  let docs := [DocumentInput.mk (S_ "A") (S_ "  ");
               DocumentInput.mk (S_ "B") (S_ "de")] in
  chunkDocuments 5 2 1 docs = Some [mkChunk 0 (S_ "de") 1 (S_ "B") 0]
  /\ docs !! 0%nat = Some (DocumentInput.mk (S_ "A") (S_ "  "))
  /\ ((exists c, c ∈ [mkChunk 0 (S_ "de") 1 (S_ "B") 0] /\ docIndex c = 0%nat)
      <-> nonBlank (S_ "  ") <> []).
Proof.
  cbv zeta.
  assert (chunkDocuments 5 2 1 [DocumentInput.mk (S_ "A") (S_ "  ");
                                DocumentInput.mk (S_ "B") (S_ "de")]
          = Some [mkChunk 0 (S_ "de") 1 (S_ "B") 0]) as E by reflexivity.
  split; [exact E|]. split; [reflexivity|].
  exact (document_has_chunk_iff_not_blank 5 2 1%nat _ _ E 0%nat
           (DocumentInput.mk (S_ "A") (S_ "  ")) eq_refl).
Defined.



(** X20: when no paragraph is longer than [chunkSize] the character
    fallback is not entered: the call returns, and its result is the same
    for every [overlap]. *)
Theorem overlap_unused_without_fallback chunkSize overlap overlap'
    fuel fuel' docs :
  allShort chunkSize docs ->
  is_Some (chunkDocuments chunkSize overlap fuel docs)
  /\ chunkDocuments chunkSize overlap fuel docs
     = chunkDocuments chunkSize overlap' fuel' docs.
Proof.
  intros Hs. split.
  - rewrite chunkDocuments_short by done. by eexists.
  - unfold chunkDocuments.
    by rewrite (docsLoop_short chunkSize overlap fuel fuel' overlap').
Qed.

Lemma overlap_unused_without_fallback_witness :
  let docs := [DocumentInput.mk (S_ "A") (S_ "abc")] in
  allShort 5 docs
  /\ chunkDocuments 5 2 0 docs = chunkDocuments 5 7 1 docs.
Proof.
  cbv zeta.
  assert (allShort 5 [DocumentInput.mk (S_ "A") (S_ "abc")]) as H.
  { repeat constructor. vm_compute. discriminate. }
  split; [exact H|].
  apply (overlap_unused_without_fallback 5 2 7 0%nat 1%nat _ H).
Defined.

(** X21: with a [chunkSize] above 0, no chunk of a call that returns has
    an empty text. *)
Theorem chunk_texts_nonempty chunkSize overlap fuel docs result :
  0 < chunkSize ->
  chunkDocuments chunkSize overlap fuel docs = Some result ->
  Forall (fun c => 0 < len (text c)) result.
Proof.
  intros Hc E. apply chunkDocuments_inv in E as [-> Hadv].
  apply Forall_forall. intros c Hin.
  apply docsChunks_elem in Hin as (d & _ & Hd & _ & Hp).
  assert (Forall (advances chunkSize overlap)
            (paragraphs (trim (DocumentInput.text d)))) as Had.
  { unfold allAdvance in Hadv. rewrite Forall_forall in Hadv.
    apply Hadv. by eapply list_elem_of_lookup_2. }
  pose proof (pieces_nonempty_texts chunkSize overlap _ Hc Had) as Hall.
  rewrite Forall_forall in Hall. apply (Hall _ Hp).
Qed.

Lemma chunk_texts_nonempty_witness :
  0 < 2
  /\ chunkDocuments 2 1 4 [DocumentInput.mk (S_ "A") (S_ "abc")]
     = Some [mkChunk 0 (S_ "ab") 0 (S_ "A") 0;
             mkChunk 1 (S_ "bc") 0 (S_ "A") 1;
             mkChunk 2 (S_ "c") 0 (S_ "A") 2]
  /\ Forall (fun c => 0 < len (text c))
       [mkChunk 0 (S_ "ab") 0 (S_ "A") 0;
        mkChunk 1 (S_ "bc") 0 (S_ "A") 1;
        mkChunk 2 (S_ "c") 0 (S_ "A") 2].
Proof.
  assert (chunkDocuments 2 1 4 [DocumentInput.mk (S_ "A") (S_ "abc")]
          = Some [mkChunk 0 (S_ "ab") 0 (S_ "A") 0;
                  mkChunk 1 (S_ "bc") 0 (S_ "A") 1;
                  mkChunk 2 (S_ "c") 0 (S_ "A") 2]) as E by reflexivity.
  split; [lia|]. split; [exact E|].
  exact (chunk_texts_nonempty 2 1 4%nat _ _ ltac:(lia) E).
Defined.

(** ** The search route *)

(** X23: a request with at least one document and a query that is not
    blank is answered with a result: the chunker is called with its
    defaults 400 and 80 and returns, and the counts of the reply agree:
    [totalChunks] and [chunkCount] are the number of chunks, [docCount]
    the number of documents, [retrievedCount] the number of entries of
    [chunks]; this is at most [chunkCount] and, for a [topK] that is not
    negative, at most [topK], which is 5 when the request has none; and
    [totalWords] is at least [docCount], since an empty text counts as
    one word. *)
Theorem search_route_counts fuel req docs query :
  SearchRequest.docs req = Some docs -> docs <> [] ->
  SearchRequest.query req = Some query -> nonBlank query <> [] ->
  (fuelFor docs <= fuel)%nat ->
  exists chunks body,
    chunkDocuments 400 80 fuel docs = Some chunks
    /\ POST fuel req = Some (Success body)
    /\ SearchResponse.chunks body
       = bm25Search chunks query (default 5 (SearchRequest.topK req))
    /\ SearchResponse.totalChunks body = length chunks
    /\ Stats.chunkCount (SearchResponse.stats body) = length chunks
    /\ Stats.docCount (SearchResponse.stats body) = length docs
    /\ Stats.retrievedCount (SearchResponse.stats body)
       = length (SearchResponse.chunks body)
    /\ (Stats.retrievedCount (SearchResponse.stats body)
        <= Stats.chunkCount (SearchResponse.stats body))%nat
    /\ (0 <= default 5 (SearchRequest.topK req) ->
        Z.of_nat (Stats.retrievedCount (SearchResponse.stats body))
        <= default 5 (SearchRequest.topK req))
    /\ (Stats.docCount (SearchResponse.stats body)
        <= Stats.totalWords (SearchResponse.stats body))%nat.
Proof.
  intros Hd Hne Hq Hnb Hf.
  destruct (POST_success fuel req docs query Hd Hne Hq Hnb Hf) as [Hc Hp].
  eexists _, _. split; [exact Hc|]. split; [exact Hp|].
  cbn [SearchResponse.chunks SearchResponse.totalChunks SearchResponse.stats
       Stats.chunkCount Stats.docCount Stats.retrievedCount Stats.totalWords].
  do 5 (split; [done|]). split; [|split].
  - destruct (bm25Search_fields (docsChunks 400 80 docs 0 0) query
                (default 5 (SearchRequest.topK req))) as [Hsub _].
    apply submseteq_length in Hsub. by rewrite length_map in Hsub.
  - intros Hk. unfold bm25Search.
    destruct (docsChunks 400 80 docs 0 0); [cbn; lia|].
    set (k := default 5 (SearchRequest.topK req)) in *.
    replace k with (0 + k) at 1 by lia.
    apply (slice_length_le _ 0 k); lia.
  - apply countWords_ge.
Qed.

Lemma search_route_counts_witness :
  let docs := [DocumentInput.mk (S_ "A") (S_ "dog food")] in
  let req := SearchRequest.mk (Some docs) (Some (S_ "food")) None in
  SearchRequest.docs req = Some docs /\ docs <> []
  /\ SearchRequest.query req = Some (S_ "food")
  /\ nonBlank (S_ "food") <> []
  /\ (fuelFor docs <= 9)%nat
  /\ exists chunks body,
       chunkDocuments 400 80 9 docs = Some chunks
       /\ POST 9 req = Some (Success body).
Proof.
  cbv zeta.
  set (docs := [DocumentInput.mk (S_ "A") (S_ "dog food")]).
  set (req := SearchRequest.mk (Some docs) (Some (S_ "food")) None).
  assert (docs <> []) as Hne by discriminate.
  assert (nonBlank (S_ "food") <> []) as Hnb by (vm_compute; discriminate).
  assert (fuelFor docs <= 9)%nat as Hf by (vm_compute; lia).
  do 2 (split; [done|]). do 3 (split; [done|]).
  destruct (search_route_counts 9%nat req docs (S_ "food")
              eq_refl Hne eq_refl Hnb Hf) as (chunks & body & Hc & Hp & _).
  by exists chunks, body.
Defined.

(** X24: in such a reply every entry of [chunks] has a text of 1 to 400
    characters, the index and the name of a document of the request, a
    score above 0 and at least one matched term, and its matched terms
    are among the [queryTerms] of the reply, in their order; the
    [queryTerms] are the distinct tokens of the query, none twice; for a
    query without a token both lists are empty. *)
Theorem search_route_entries fuel req docs query :
  SearchRequest.docs req = Some docs -> docs <> [] ->
  SearchRequest.query req = Some query -> nonBlank query <> [] ->
  (fuelFor docs <= fuel)%nat ->
  exists body,
    POST fuel req = Some (Success body)
    /\ Stats.queryTerms (SearchResponse.stats body)
       = distinct ∅ (tokenize query)
    /\ NoDup (Stats.queryTerms (SearchResponse.stats body))
    /\ (tokenize query = [] ->
        SearchResponse.chunks body = []
        /\ Stats.queryTerms (SearchResponse.stats body) = [])
    /\ Forall (fun r =>
         0 < len (ScoredChunk.text r) <= 400
         /\ (exists d,
               docs !! ScoredChunk.docIndex r = Some d
               /\ ScoredChunk.docName r = DocumentInput.name d)
         /\ (0 < ScoredChunk.score r)%R
         /\ ScoredChunk.termMatches r <> []
         /\ ScoredChunk.termMatches r
            `sublist_of` Stats.queryTerms (SearchResponse.stats body))
         (SearchResponse.chunks body).
Proof.
  intros Hd Hne Hq Hnb Hf.
  destruct (POST_success fuel req docs query Hd Hne Hq Hnb Hf) as [Hc Hp].
  eexists. split; [exact Hp|].
  cbn [SearchResponse.chunks SearchResponse.stats Stats.queryTerms].
  split; [done|]. split; [apply distinct_NoDup|]. split.
  - intros E. rewrite E. split; [|done].
    rewrite bm25Search_spec.
    replace (List.filter (hasMatch query) (docsChunks 400 80 docs 0 0))
      with (@nil Chunk).
    + cbn. by rewrite slice_0_take, take_nil.
    + symmetry. apply filter_none. intros c _. unfold hasMatch.
      by rewrite specMatches_nil.
  - apply Forall_forall. intros r Hr.
    apply bm25Search_elem in Hr as (c & Hin & Hm & ->).
    destruct (route_chunks docs c Hin) as [Hlen Hdoc]. cbn.
    split; [done|]. split; [done|].
    assert (specMatches query c <> []) as Hmne.
    { unfold hasMatch in Hm. by destruct (specMatches query c). }
    split; [by apply specScore_pos_iff|]. split; [done|].
    apply filter_sublist.
Qed.

Lemma search_route_entries_witness :
  let docs := [DocumentInput.mk (S_ "A") (S_ "dog food")] in
  let req := SearchRequest.mk (Some docs) (Some (S_ "food")) (Some 3) in
  SearchRequest.docs req = Some docs /\ docs <> []
  /\ SearchRequest.query req = Some (S_ "food")
  /\ nonBlank (S_ "food") <> []
  /\ (fuelFor docs <= 9)%nat
  /\ exists body,
       POST 9 req = Some (Success body)
       /\ Stats.queryTerms (SearchResponse.stats body) = [S_ "food"].
Proof.
  cbv zeta.
  set (docs := [DocumentInput.mk (S_ "A") (S_ "dog food")]).
  set (req := SearchRequest.mk (Some docs) (Some (S_ "food")) (Some 3)).
  assert (docs <> []) as Hne by discriminate.
  assert (nonBlank (S_ "food") <> []) as Hnb by (vm_compute; discriminate).
  assert (fuelFor docs <= 9)%nat as Hf by (vm_compute; lia).
  do 2 (split; [done|]). do 3 (split; [done|]).
  destruct (search_route_entries 9%nat req docs (S_ "food")
              eq_refl Hne eq_refl Hnb Hf) as (body & Hp & Ht & _).
  exists body. split; [done|]. rewrite Ht. reflexivity.
Defined.

(** ** The page *)

(** X25: the relevance bars of the results fit: with [max] the score of
    the first entry, as the page passes it, the width that [ScoreBar]
    computes for an entry of a search result is between 0 and 100 percent,
    the bar of the first entry is full, and the widths do not grow down
    the list. *)
Theorem score_bars_fit chunks query topK :
  let result := bm25Search chunks query topK in
  Forall (fun r =>
       0 <= ScoreBar (ScoredChunk.score r) (maxScore result) <= 100) result
  /\ (forall r,
        head result = Some r ->
        ScoreBar (ScoredChunk.score r) (maxScore result) = 100)
  /\ (forall i j x y,
        (i < j)%nat -> result !! i = Some x -> result !! j = Some y ->
        ScoreBar (ScoredChunk.score y) (maxScore result)
        <= ScoreBar (ScoredChunk.score x) (maxScore result)).
Proof.
  cbv zeta. split; [|split].
  - apply Forall_forall. intros r Hr.
    pose proof (maxScore_max chunks query topK r Hr).
    apply ScoreBar_range. lra.
  - intros r Hh.
    assert (r ∈ bm25Search chunks query topK) as Hr.
    { destruct (bm25Search chunks query topK); [done|].
      injection Hh as ->. by left. }
    pose proof (maxScore_max chunks query topK r Hr) as [Hpos _].
    destruct (bm25Search chunks query topK) as [|c l]; [done|].
    injection Hh as ->. cbn [maxScore]. by apply ScoreBar_full.
  - intros i j x y Hij Hx Hy.
    pose proof (maxScore_max chunks query topK x
                  (list_elem_of_lookup_2 _ _ _ Hx)) as [Hpos Hle].
    apply ScoreBar_mono; [lra|].
    apply (StronglySorted_descending _ (bm25Search_sorted chunks query topK)
             i j x y Hij Hx Hy).
Qed.

(** X26: the page and the search route agree on what a valid request is:
    [runPipeline] sends no request exactly when the route would answer
    the request with an error; a request that it sends gets a result with
    at most 5 entries, so that ["Retrieval failed"] does not come from the
    checks of the route; the page shows its "no relevant content" message
    exactly when no token of the query is a token of a chunk; and
    otherwise it calls the answer route with the entries and the query,
    which the check of the answer route lets through. *)
Theorem pipeline_requests_accepted docs query fuel :
  (fuelFor docs <= fuel)%nat ->
  (pipelineRequest docs query = None
   <-> exists error,
         POST fuel (SearchRequest.mk (Some docs) (Some query) (Some 5))
         = Some (Failure 400 error))
  /\ forall req,
       pipelineRequest docs query = Some req ->
       exists chunks body,
         chunkDocuments 400 80 fuel docs = Some chunks
         /\ POST fuel req = Some (Success body)
         /\ (length (SearchResponse.chunks body) <= 5)%nat
         /\ (afterSearch query (Success body) = NoContent
             <-> forall c t,
                   c ∈ chunks -> t ∈ tokenize query ->
                   t ∉ tokenize (text c))
         /\ (afterSearch query (Success body) <> NoContent ->
             exists answerReq,
               afterSearch query (Success body) = Generate answerReq
               /\ AnswerRequest.chunks answerReq
                  = Some (SearchResponse.chunks body)
               /\ AnswerRequest.query answerReq = Some query
               /\ answerRejects answerReq = None).
Proof.
  intros Hf.
  assert (forall req,
            pipelineRequest docs query = Some req ->
            exists chunks body,
              chunkDocuments 400 80 fuel docs = Some chunks
              /\ POST fuel req = Some (Success body)
              /\ SearchResponse.chunks body = bm25Search chunks query 5)
    as Hsome.
  { intros req Hreq.
    apply pipelineRequest_Some in Hreq as (-> & Hne & Hnb).
    destruct (POST_success fuel
                (SearchRequest.mk (Some docs) (Some query) (Some 5))
                docs query eq_refl Hne eq_refl Hnb Hf) as [Hc Hp].
    eexists _, _. split; [exact Hc|]. split; [exact Hp|]. done. }
  split.
  - clear Hsome. split.
    + intros Hnone. unfold pipelineRequest in Hnone. unfold POST.
      cbn [SearchRequest.docs SearchRequest.query SearchRequest.topK].
      destruct docs as [|d ds]; [by eexists|].
      destruct (truthy (trim query)); [done|by eexists].
    + intros [error Herr].
      destruct (pipelineRequest docs query) as [req|] eqn:Hreq; [|done].
      pose proof Hreq as Hreq'.
      apply pipelineRequest_Some in Hreq' as (-> & Hne & Hnb).
      destruct (POST_success fuel
                  (SearchRequest.mk (Some docs) (Some query) (Some 5))
                  docs query eq_refl Hne eq_refl Hnb Hf) as [_ Hp].
      congruence.
  - intros req Hreq.
    destruct (Hsome req Hreq) as (chunks & body & Hc & Hp & Hb).
    exists chunks, body. split; [done|]. split; [done|].
    unfold afterSearch. rewrite Hb. split; [|split].
    + pose proof (slice_length_le
                    (sortByScore (List.filter isPositive (scored chunks query)))
                    0 5 ltac:(lia) ltac:(lia)) as Hle.
      unfold bm25Search. destruct chunks; [cbn; lia|].
      change (0 + 5) with 5 in Hle. unfold len in Hle. lia.
    + rewrite <- (bm25Search_nil_iff chunks query 5) by lia.
      by destruct (bm25Search chunks query 5).
    + intros Hnc. destruct (bm25Search chunks query 5) as [|r l] eqn:E;
        [done|].
      eexists. split; [done|]. cbn. by rewrite <- E.
Qed.

Lemma pipeline_requests_accepted_witness :
  let docs := [DocumentInput.mk (S_ "A") (S_ "dog food")] in
  (fuelFor docs <= 9)%nat
  /\ (pipelineRequest docs (S_ "  ") = None
      <-> exists error,
            POST 9 (SearchRequest.mk (Some docs) (Some (S_ "  ")) (Some 5))
            = Some (Failure 400 error)).
Proof.
  cbv zeta.
  assert (fuelFor [DocumentInput.mk (S_ "A") (S_ "dog food")] <= 9)%nat
    as Hf by (vm_compute; lia).
  split; [exact Hf|].
  apply (pipeline_requests_accepted _ (S_ "  ") 9%nat Hf).
Defined.

(** X27: the number of chunks that the page announces for a document,
    [Math.ceil(doc.text.length / 400)], against the chunks that the
    search route makes of it: for a document of at most 400 characters
    that is not blank both are 1; for a document that is one paragraph of
    more than 400 characters the route makes [ceil(length / 320)] chunks,
    never fewer than announced and more than announced as soon as the
    document has more than 1280 characters. *)
Theorem announced_chunk_count fuel docs result i d :
  chunkDocuments 400 80 fuel docs = Some result ->
  docs !! i = Some d ->
  let L := len (DocumentInput.text d) in
  let actual := len (piecesOf i result) in
  (nonBlank (DocumentInput.text d) <> [] -> L <= 400 ->
   actual = 1 /\ announcedChunks (DocumentInput.text d) = 1)
  /\ (docParas d = [DocumentInput.text d] -> 400 < L ->
      actual = ceilDiv L 320
      /\ announcedChunks (DocumentInput.text d) <= actual
      /\ (1280 < L -> announcedChunks (DocumentInput.text d) < actual)).
Proof.
  intros E Hd. cbv zeta. apply chunkDocuments_inv in E as [-> _].
  pose proof (piecesOf_docsChunks 400 80 docs 0 0 i d Hd) as Hp.
  cbn [Nat.add] in Hp. rewrite Hp. unfold announcedChunks. split.
  - intros Hnb HL.
    pose proof (docParas_length d) as Hj.
    rewrite pieces_fit; [|by apply docParas_nonblank|unfold docParas in Hj; lia].
    split; [done|].
    assert (0 < len (DocumentInput.text d)) as Hpos.
    { destruct (DocumentInput.text d); [done|]. unfold len. cbn. lia. }
    pose proof (ceilDiv_spec (len (DocumentInput.text d)) 400 ltac:(lia)).
    lia.
  - intros Hone HL.
    rewrite (pieces_single 400 80 _ (DocumentInput.text d)) by done.
    rewrite windows_length by lia. change (400 - 80) with 320.
    split; [done|].
    pose proof (ceilDiv_spec (len (DocumentInput.text d)) 320 ltac:(lia)).
    pose proof (ceilDiv_spec (len (DocumentInput.text d)) 400 ltac:(lia)).
    split; [lia|]. intros Hlong. lia.
Qed.

Lemma announced_chunk_count_witness :
  let d := DocumentInput.mk (S_ "A") (S_ "dog food") in
  chunkDocuments 400 80 0 [d] = Some [mkChunk 0 (S_ "dog food") 0 (S_ "A") 0]
  /\ [d] !! 0%nat = Some d
  /\ (nonBlank (DocumentInput.text d) <> [] ->
      len (DocumentInput.text d) <= 400 ->
      len (piecesOf 0 [mkChunk 0 (S_ "dog food") 0 (S_ "A") 0]) = 1
      /\ announcedChunks (DocumentInput.text d) = 1).
Proof.
  cbv zeta.
  assert (chunkDocuments 400 80 0 [DocumentInput.mk (S_ "A") (S_ "dog food")]
          = Some [mkChunk 0 (S_ "dog food") 0 (S_ "A") 0]) as E by reflexivity.
  split; [exact E|]. split; [reflexivity|].
  apply (announced_chunk_count 0%nat _ _ 0%nat
           (DocumentInput.mk (S_ "A") (S_ "dog food")) E eq_refl).
Defined.

(** X28: the answer that [runPipeline] builds from the stream of the
    answer route does not depend on how the network cuts the stream into
    reads.  When no frame before the last complete one is
    ["data: [DONE]"], the answer is the texts of the complete frames, in
    their order, a frame being what a blank line ends; what follows the
    last blank line stays in the buffer and adds nothing. *)
Theorem answer_stream_reads textOf reads :
  let frames := removelast (splitBlankLine (concat reads)) in
  forallb (fun l => negb (isDone l)) (removelast frames) = true ->
  readAnswer textOf reads
  = (default [] (last (splitBlankLine (concat reads))),
     concat (map (frameText textOf) frames))
  /\ forall reads',
       concat reads' = concat reads ->
       readAnswer textOf reads' = readAnswer textOf reads.
Proof.
  cbv zeta. intros Hnd.
  assert (forall rs,
            concat rs = concat reads ->
            readAnswer textOf rs
            = (default [] (last (splitBlankLine (concat reads))),
               concat (map (frameText textOf)
                         (removelast (splitBlankLine (concat reads))))))
    as Hall.
  { intros rs E.
    pose proof (readAnswer_buffer textOf rs) as Hb.
    pose proof (readAnswer_texts textOf rs) as Ht.
    rewrite E in Hb, Ht. specialize (Ht Hnd).
    destruct (readAnswer textOf rs) as [buffer answer].
    cbn [fst snd] in *. by subst. }
  split; [by apply Hall|].
  intros reads' E. by rewrite (Hall reads' E), (Hall reads eq_refl).
Qed.

Lemma answer_stream_reads_witness :
  let reads := [S_ "data: ab" ++ [LF]; LF :: S_ "data: [DONE]" ++ [LF; LF]] in
  forallb (fun l => negb (isDone l))
    (removelast (removelast (splitBlankLine (concat reads)))) = true
  /\ readAnswer Some reads = ([], S_ "ab").
Proof.
  cbv zeta.
  assert (forallb (fun l => negb (isDone l))
            (removelast
               (removelast
                  (splitBlankLine
                     (concat [S_ "data: ab" ++ [LF];
                              LF :: S_ "data: [DONE]" ++ [LF; LF]]))))
          = true) as H by reflexivity.
  split; [exact H|].
  destruct (answer_stream_reads Some _ H) as [E _]. rewrite E. reflexivity.
Defined.

(** ** The answer route *)

(** X29: the stream of the reply does not depend on how the stream of the
    model is cut into reads: the handler enqueues one frame for each
    complete line of the stream of the model that carries a text delta,
    in the order of the lines, and then one last frame, ["data: [DONE]"]
    when the stream of the model ends and the error when a read fails; a
    last line that no line feed ends is not forwarded. *)
Theorem answer_relay_reads deltaOf errorOf reads ending :
  answerStream deltaOf errorOf reads ending
  = map frame
      (omap (payload deltaOf) (removelast (splitLines (concat reads))))
    ++ [frame (match ending with
               | Done => S_ "[DONE]"
               | Failed errorMsg => errorOf errorMsg
               end)]
  /\ forall reads',
       concat reads' = concat reads ->
       answerStream deltaOf errorOf reads' ending
       = answerStream deltaOf errorOf reads ending.
Proof.
  assert (forall rs,
            concat rs = concat reads ->
            answerStream deltaOf errorOf rs ending
            = map frame
                (omap (payload deltaOf)
                   (removelast (splitLines (concat reads))))
              ++ [frame (match ending with
                         | Done => S_ "[DONE]"
                         | Failed errorMsg => errorOf errorMsg
                         end)]) as Hall.
  { intros rs E. unfold answerStream.
    rewrite relayReads_spec, E. cbn [snd]. by destruct ending. }
  split; [by apply Hall|].
  intros reads' E. by rewrite (Hall reads' E), (Hall reads eq_refl).
Qed.

(** X30: from the model to the page.  When the JSON that the answer route
    writes holds no line feed and is not ["[DONE]"], as is the case of
    what [JSON.stringify] makes of an object, the answer on the page is
    the texts of the frames that the route has written, in their order,
    however the stream of the model and the stream of the reply are cut
    into reads; the buffer of the page is empty at the end; and the frame
    of an error adds to the answer what a frame of text would. *)
Theorem answer_end_to_end deltaOf errorOf textOf upstream ending reads :
  (forall data json,
     deltaOf data = Some json ->
     Forall (fun c => isNewline c = false) json /\ json <> S_ "[DONE]") ->
  (forall errorMsg,
     Forall (fun c => isNewline c = false) (errorOf errorMsg)) ->
  concat reads = concat (answerStream deltaOf errorOf upstream ending) ->
  readAnswer textOf reads
  = ([],
     concat (map (fun json => default [] (textOf json))
               (omap (payload deltaOf)
                  (removelast (splitLines (concat upstream)))))
     ++ match ending with
        | Done => []
        | Failed errorMsg =>
            frameText textOf (S_ "data: " ++ errorOf errorMsg)
        end).
Proof.
  intros Hdelta Herror E.
  unfold answerStream in E. rewrite relayReads_spec in E. cbn [snd] in E.
  set (jsons := omap (payload deltaOf)
                  (removelast (splitLines (concat upstream)))) in *.
  assert (Forall (fun json => Forall (fun c => isNewline c = false) json
                              /\ json <> S_ "[DONE]") jsons) as Hj.
  { apply Forall_forall. intros json Hin.
    apply list_elem_of_omap in Hin as (line & _ & Hp).
    unfold payload in Hp.
    destruct (startsWith line (S_ "data: ")); [|done].
    destruct (bool_decide _); [done|]. by apply (Hdelta _ _ Hp). }
  destruct ending as [|errorMsg].
  - rewrite (readAnswer_frames textOf reads jsons (S_ "[DONE]") Hj).
    + by rewrite frameText_done.
    + by repeat constructor.
    + by rewrite E, map_app.
  - rewrite (readAnswer_frames textOf reads jsons (errorOf errorMsg) Hj);
      [done|apply Herror|].
    by rewrite E, map_app.
Qed.

Lemma answer_end_to_end_witness :
  let deltaOf := fun data : str =>
    if bool_decide (data = S_ "hi") then Some (S_ "ok") else None in
  let errorOf := fun _ : str => S_ "err" in
  let upstream := [S_ "data: h"; S_ "i" ++ [LF] ++ S_ "data: [DONE]" ++ [LF]] in
  let reads := [S_ "data: ok" ++ [LF]; LF :: S_ "data: [DONE]" ++ [LF; LF]] in
  concat reads = concat (answerStream deltaOf errorOf upstream Done)
  /\ readAnswer Some reads = ([], S_ "ok").
Proof.
  cbv zeta.
  set (deltaOf := fun data : str =>
         if bool_decide (data = S_ "hi") then Some (S_ "ok") else None).
  set (errorOf := fun _ : str => S_ "err").
  set (upstream := [S_ "data: h";
                    S_ "i" ++ [LF] ++ S_ "data: [DONE]" ++ [LF]]).
  set (reads := [S_ "data: ok" ++ [LF];
                 LF :: S_ "data: [DONE]" ++ [LF; LF]]).
  assert (concat reads = concat (answerStream deltaOf errorOf upstream Done))
    as E by reflexivity.
  assert (forall data json,
            deltaOf data = Some json ->
            Forall (fun c => isNewline c = false) json
            /\ json <> S_ "[DONE]") as Hd.
  { intros data json. unfold deltaOf. destruct (bool_decide _); [|done].
    intros [= <-]. split; [by repeat constructor|discriminate]. }
  assert (forall errorMsg : str,
            Forall (fun c => isNewline c = false) (errorOf errorMsg)) as He
    by (intros ?; by repeat constructor).
  split; [exact E|].
  rewrite (answer_end_to_end deltaOf errorOf Some upstream Done reads Hd He E).
  reflexivity.
Defined.
